(** * Element resolution and step execution of the GUI agent

    A shallow embedding of
    - [executor_playwright.py]  (text normaliser, candidate resolver, step executor),
    - [snapshot_runtime.py]     (snapshot fuser),
    - [agent_llm.py]            (the planner's fallback to the empty plan),
    - [run_gui_agent_loop.py]   (the recovery loop),
    followed by the properties established about them.

    Conventions of the embedding.
    - Python [str] values are [string]s; names are taken to be ASCII, so [\s],
      [str.strip] and [str.lower] act on the ASCII white-space and letters.
    - A dictionary entry that may be missing or [None] is an [option] field.
    - Python floats are IEEE 754 binary64 numbers: they are the primitive
      [float]s, whose operations round as Python's do and whose comparisons
      are false on a NaN.  The numbers of a bounding box, which the browser
      measures as doubles, are [float]s too.  [math.hypot] and
      [rapidfuzz.fuzz.token_set_ratio] are library functions and are taken as
      parameters of the sections that use them.
    - The browser page is an abstract state threaded through the executor,
      together with the trace of the primitives called on it. *)

From Stdlib Require Import List Bool Arith Lia ZArith Floats.
From Stdlib Require Import Ascii String DecimalString Permutation Sorted.
Import ListNotations.

Set Warnings "-inexact-float".

Local Open Scope string_scope.
Local Open Scope list_scope.

(* ------------------------------------------------------------------ *)
(** ** Small Python idioms *)

(** [x or d] on an optional string: [None] and the empty string are falsy. *)
Definition str_or (x : option string) (d : string) : string :=
  match x with
  | Some s => if String.eqb s "" then d else s
  | None => d
  end.

(** Truthiness of an optional string. *)
Definition truthy (x : option string) : bool :=
  match x with
  | Some s => negb (String.eqb s "")
  | None => false
  end.

Definition nonempty (s : string) : bool := negb (String.eqb s "").

Definition opt_or {A : Type} (x y : option A) : option A :=
  match x with Some _ => x | None => y end.

(** [a in b] on strings. *)
Fixpoint contains (needle hay : string) : bool :=
  String.prefix needle hay ||
  match hay with
  | EmptyString => false
  | String _ rest => contains needle rest
  end.

(* ------------------------------------------------------------------ *)
(** ** Text normaliser: [_norm] *)

Definition is_space (c : ascii) : bool :=
  let n := nat_of_ascii c in
  (Nat.leb 9 n && Nat.leb n 13) || (Nat.leb 28 n && Nat.leb n 32).

Definition lower_char (c : ascii) : ascii :=
  let n := nat_of_ascii c in
  if Nat.leb 65 n && Nat.leb n 90 then ascii_of_nat (n + 32) else c.

Fixpoint lower (s : string) : string :=
  match s with
  | EmptyString => EmptyString
  | String c r => String (lower_char c) (lower r)
  end.

(** [re.sub(r"\s+", " ", s)]: [in_ws] records that the previous character
    belonged to the white-space run already replaced. *)
Fixpoint collapse_ws (in_ws : bool) (s : string) : string :=
  match s with
  | EmptyString => EmptyString
  | String c r =>
      if is_space c
      then (if in_ws then collapse_ws true r else String " " (collapse_ws true r))
      else String c (collapse_ws false r)
  end.

Fixpoint lstrip (s : string) : string :=
  match s with
  | EmptyString => EmptyString
  | String c r => if is_space c then lstrip r else s
  end.

Fixpoint rstrip (s : string) : string :=
  match s with
  | EmptyString => EmptyString
  | String c r =>
      match rstrip r with
      | EmptyString => if is_space c then EmptyString else String c EmptyString
      | r' => String c r'
      end
  end.

Definition strip (s : string) : string := rstrip (lstrip s).

Definition _norm (s : option string) : string :=
  lower (strip (collapse_ws false (str_or s ""))).

(* ------------------------------------------------------------------ *)
(** ** Data model *)

Record BBox : Type := mkBBox {
  bx : float; by_ : float; bwidth : float; bheight : float
}.

(** One record of [elements_min]. *)
Record Element : Type := mkElement {
  uid : string;
  role : option string;
  tag : option string;
  name : option string;
  selector_pref : option string;
  selector : option string;
  bbox : option BBox;
  frame_path : list string;
  shadow_path : option (list string)
}.

(** The [match] object of a target.  The four keys the resolver reads are
    fields, [None] when the key is missing or its value is [null], which the
    resolver does not tell apart; [m_other_keys] records that the dictionary
    holds something else: another key, or one of the four keys with the value
    [null]. *)
Record MatchSpec : Type := mkMatch {
  m_text : option string;
  m_role : option string;
  m_exact : option bool;
  m_not_contains : option (list string);
  m_other_keys : bool
}.

(** A dictionary is truthy when it has at least one key, whatever the key
    and its value. *)
Definition match_truthy (m : MatchSpec) : bool :=
  m_other_keys m ||
  match m_text m, m_role m, m_exact m, m_not_contains m with
  | None, None, None, None => false
  | _, _, _, _ => true
  end.

(* ------------------------------------------------------------------ *)
(** ** Candidate resolver *)

Definition _PREFER_ROLES : list string := ["textbox"; "button"; "link"].

Definition _NEG_DEFAULT : list string :=
  ["with google"; "with apple"; "with facebook"; "with"].

(** Python's [min(a, b)] and [max(a, b)]: the first argument is kept unless
    the second is strictly better. *)
Definition py_min (a b : float) : float := if (b <? a)%float then b else a.
Definition py_max (a b : float) : float := if (a <? b)%float then b else a.

(** A float is not a NaN when it equals itself. *)
Definition not_nan (x : float) : bool := (x =? x)%float.

(** [float(n)] for an index [n]. *)
Definition float_of_nat (n : nat) : float :=
  of_uint63 (Uint63.of_Z (Z.of_nat n)).

(** ** Order of the floats

    [Prim2SF] maps a float to its sign, mantissa and exponent; the comparison
    of two floats that are not NaN is the lexicographic comparison of their
    ranks. *)
Definition SFrank (x : spec_float) : Z * Z * Z :=
  match x with
  | S754_nan => (0, 0, 0)
  | S754_infinity true => (-2, 0, 0)
  | S754_infinity false => (2, 0, 0)
  | S754_zero _ => (0, 0, 0)
  | S754_finite true m e => (-1, - e, - Zpos m)
  | S754_finite false m e => (1, e, Zpos m)
  end%Z.

Definition lex3 (a b : Z * Z * Z) : comparison :=
  let '(a1, a2, a3) := a in
  let '(b1, b2, b3) := b in
  match (a1 ?= b1)%Z with
  | Eq => match (a2 ?= b2)%Z with
          | Eq => (a3 ?= b3)%Z
          | c => c
          end
  | c => c
  end.

Definition SFinfinite (x : spec_float) : bool :=
  match x with S754_infinity _ => true | _ => false end.

Definition _score_text (q t : string) : float :=
  let qn := _norm (Some q) in
  let tn := _norm (Some t) in
  if negb (nonempty qn) || negb (nonempty tn) then 0
  else if String.eqb qn tn then 1
  else if String.prefix qn tn then 0.85
  else if contains qn tn then 0.6
  else 0.

Fixpoint _is_blocked (text : option string) (not_contains : list string) : bool :=
  match not_contains with
  | [] => false
  | bad :: rest =>
      if nonempty (_norm (Some bad)) && contains (_norm (Some bad)) (_norm text)
      then true
      else _is_blocked text rest
  end.

(** [tuple.index] *)
Fixpoint index_of (x : string) (l : list string) : option nat :=
  match l with
  | [] => None
  | y :: r => if String.eqb x y then Some 0%nat
              else option_map S (index_of x r)
  end.

Definition center_x (b : BBox) : float := (bx b + bwidth b / 2)%float.
Definition center_y (b : BBox) : float := (by_ b + bheight b / 2)%float.

(** Stable sort of [(key, element)] pairs by ascending key, as performed by
    [list.sort(key=lambda x: x[0])]. *)
Section StableSort.
Context {A : Type}.

Fixpoint insert_by_key (x : float * A) (l : list (float * A))
  : list (float * A) :=
  match l with
  | [] => [x]
  | y :: r => if (fst y <? fst x)%float then y :: insert_by_key x r
              else x :: y :: r
  end.

Definition sort_by_key (l : list (float * A)) : list (float * A) :=
  fold_right insert_by_key [] l.

(** Order of the keys, and the test selecting the pairs of a given key. *)
Definition key_le (a b : float * A) : Prop := (fst a <=? fst b)%float = true.

Definition has_key (k : float) (p : float * A) : bool := (fst p =? k)%float.
End StableSort.

Section Resolver.
(** [math.hypot] *)
Variable hypot : float -> float -> float.

Definition distance (b b2 : BBox) : float :=
  hypot (center_x b - center_x b2)%float (center_y b - center_y b2)%float.

Definition s_text_of (m : MatchSpec) (el : Element) : float :=
  let want_text := str_or (m_text m) "" in
  let exact := match m_exact m with Some b => b | None => false end in
  let s_txt := if nonempty want_text
               then _score_text want_text (str_or (name el) "")
               else 0.3%float in
  if exact && negb (String.eqb (_norm (Some want_text)) (_norm (name el)))
  then 0%float else s_txt.

Definition s_role_of (el : Element) : float :=
  match index_of (_norm (role el)) _PREFER_ROLES with
  | Some i => (0.3 - 0.1 * float_of_nat i)%float
  | None => 0%float
  end.

Definition s_near_of (last_target : option Element) (el : Element) : float :=
  match last_target with
  | Some lt =>
      match bbox el, bbox lt with
      | Some b, Some b2 =>
          let d := distance b b2 in
          py_max 0 (0.25 - py_min (d / 1000) 0.25)
      | _, _ => 0%float
      end
  | None => 0%float
  end.

(** Body of the loop of [_rank_candidates]: [None] when the element is
    skipped, otherwise the appended pair [(-score, el)]. *)
Definition candidate (m : MatchSpec) (last_target : option Element)
           (el : Element) : option (float * Element) :=
  let want_role := m_role m in
  let not_contains :=
    (match m_not_contains m with Some l => l | None => [] end) ++ _NEG_DEFAULT in
  let name_ := str_or (name el) "" in
  let role_ := _norm (role el) in
  if truthy want_role && negb (String.eqb (_norm want_role) role_) then None
  else if negb (nonempty name_) then None
  else if _is_blocked (Some name_) not_contains then None
  else
    let s_txt := s_text_of m el in
    if (s_txt <=? 0)%float then None
    else
      let score := (s_txt + s_role_of el + s_near_of last_target el)%float in
      Some ((- score)%float, el).

Fixpoint candidates (elements_min : list Element) (m : MatchSpec)
         (last_target : option Element) : list (float * Element) :=
  match elements_min with
  | [] => []
  | el :: rest =>
      match candidate m last_target el with
      | Some c => c :: candidates rest m last_target
      | None => candidates rest m last_target
      end
  end.

Definition _rank_candidates (elements_min : list Element) (m : MatchSpec)
           (last_target : option Element) : list Element :=
  map snd (sort_by_key (candidates elements_min m last_target)).

(** The total score of an element, and the test that none of the four
    [continue] statements of the loop skips it. *)
Definition total_score (m : MatchSpec) (last_target : option Element)
           (el : Element) : float :=
  (s_text_of m el + s_role_of el + s_near_of last_target el)%float.

Definition eligible (m : MatchSpec) (el : Element) : bool :=
  negb (truthy (m_role m) && negb (String.eqb (_norm (m_role m)) (_norm (role el))))
  && nonempty (str_or (name el) "")
  && negb (_is_blocked (Some (str_or (name el) ""))
             ((match m_not_contains m with Some l => l | None => [] end)
                ++ _NEG_DEFAULT))
  && negb (s_text_of m el <=? 0)%float.

(** Descending order of the total score, and the test selecting the elements
    of a given total score. *)
Definition score_ge (m : MatchSpec) (lt : option Element) (a b : Element) : Prop :=
  (total_score m lt b <=? total_score m lt a)%float = true.

Definition has_score (m : MatchSpec) (lt : option Element) (q : float)
           (el : Element) : bool :=
  (total_score m lt el =? q)%float.
End Resolver.

(** A [hypot] for running the resolver on concrete boxes: the square root of
    the sum of the squares, each operation rounded.  It is the exact distance
    when the sum of the squares is computed exactly and is a perfect square,
    as it is for the boxes used below. *)
Definition hypot_sqrt (x y : float) : float := sqrt (x * x + y * y)%float.

(* ------------------------------------------------------------------ *)
(** ** Step executor: plans, targets and selectors *)

(** The [target] object of a step; a key that is present is [Some]. *)
Record Target : Type := mkTarget {
  t_selector : option string;
  t_uid : option string;
  t_match : option MatchSpec;
  t_role : option string;
  t_name : option string;
  t_text : option string;
  t_exact : option bool;
  t_not_contains : option (list string)
}.

Definition empty_target : Target :=
  mkTarget None None None None None None None None.

Record Step : Type := mkStep {
  s_action : string;
  s_text : option string;
  s_value : option string;
  s_target : option Target;
  s_name : option string;
  s_role : option string
}.

(** The plan handed to the executor: [steps] is [None] when the key is
    missing, and the list of the steps otherwise, which is what the planner
    returns. *)
Record Plan : Type := mkPlan { steps : option (list Step) }.

Definition _resolve_target_selector (element : Element) : option string :=
  if truthy (selector_pref element) then selector_pref element
  else if truthy (role element) && truthy (name element)
  then Some ("aria://" ++ lower (strip (str_or (role element) "")) ++ "::"
               ++ strip (str_or (name element) ""))%string
  else if truthy (selector element) then selector element
  else None.

Fixpoint _find_element_by_uid (elements_min : list Element) (u : string)
  : option Element :=
  match elements_min with
  | [] => None
  | el :: rest => if String.eqb (uid el) u then Some el
                  else _find_element_by_uid rest u
  end.

Definition _find_by_match (elements_min : list Element)
           (role_ name_ : option string) : option Element :=
  let role_n := _norm role_ in
  let name_n := _norm name_ in
  let role_ok el :=
    negb (nonempty role_n && negb (String.eqb (_norm (role el)) role_n)) in
  match find (fun el => role_ok el &&
                negb (nonempty name_n && negb (String.eqb (_norm (name el)) name_n)))
             elements_min with
  | Some el => Some el
  | None =>
      find (fun el => role_ok el &&
              negb (nonempty name_n && negb (contains name_n (_norm (name el)))))
           elements_min
  end.

(** [str.replace(old, new)] for a non-empty [old]; [skip] counts the characters
    of a matched occurrence still to be dropped. *)
Fixpoint replace_from (old new : string) (skip : nat) (s : string) : string :=
  match s with
  | EmptyString => EmptyString
  | String c r =>
      match skip with
      | S k => replace_from old new k r
      | O => if String.prefix old s
             then (new ++ replace_from old new (String.length old - 1) r)%string
             else String c (replace_from old new 0 r)
      end
  end.

Definition replace (old new s : string) : string := replace_from old new 0 s.

Definition substitute_vars (user_vars : list (string * string)) (text : string)
  : string :=
  fold_left (fun t kv => replace ("<" ++ fst kv ++ ">")%string (snd kv) t) user_vars text.

(** [target.get("not_contains", [])] *)
Definition target_not_contains (target : Target) : list string :=
  match t_not_contains target with Some l => l | None => [] end.

(** The match object built from a legacy [(role, name)] target: its four
    keys are always there, [role] with the value [null] when the target has
    no role. *)
Definition legacy_match (target : Target) : MatchSpec :=
  mkMatch (Some (if truthy (t_name target) then str_or (t_name target) ""
                 else str_or (t_text target) ""))
          (t_role target)
          (Some (match t_exact target with Some b => b | None => false end))
          (Some (target_not_contains target))
          (match t_role target with Some _ => false | None => true end).

Definition is_some {A : Type} (x : option A) : bool :=
  match x with Some _ => true | None => false end.

Definition _NAV_OPENER_NAMES : list string :=
  ["Menu"; "Main menu"; "Navigation"; "Open navigation"; "More"; "More options";
   "Toggle navigation"; "Show menu"; "Close"; "Open"].

Definition _LOGO_NAMES : list string :=
  ["Adobe Express"; "Express"; "Adobe logo"; "Home"; "Go to Home"].

Definition name_in (n : string) (names : list string) : bool :=
  existsb (fun x => String.eqb n (_norm (Some x))) names.

(** Outcome of resolving a target: the chosen element (if any) and the
    selector, or the message of the [RuntimeError] raised. *)
Inductive Resolved : Type :=
| Selected (chosen_el : option Element) (sel : option string)
| Raised (msg : string).

Section TargetResolution.
Variable hypot : float -> float -> float.

Definition resolve_target (elements_min : list Element) (step : Step)
           (last_chosen_el : option Element) : Resolved :=
  let target := match s_target step with Some t => t | None => empty_target end in
  match t_selector target with
  | Some s => Selected None (Some s)
  | None =>
  match t_uid target with
  | Some u =>
      match _find_element_by_uid elements_min u with
      | None => Raised "uid not found"
      | Some el => Selected (Some el) (_resolve_target_selector el)
      end
  | None =>
  match t_match target with
  | Some m =>
      match _rank_candidates hypot elements_min m last_chosen_el with
      | [] => Raised "no candidates for match"
      | el :: _ => Selected (Some el) (_resolve_target_selector el)
      end
  | None =>
  if (is_some (t_role target) || is_some (t_name target)) &&
     (is_some (t_not_contains target) || is_some (t_exact target))
  then
    match _rank_candidates hypot elements_min (legacy_match target) last_chosen_el with
    | [] => Raised "no candidates for (role,name)+mask"
    | el :: _ => Selected (Some el) (_resolve_target_selector el)
    end
  else if is_some (t_role target) || is_some (t_name target)
  then
    match _find_by_match elements_min (t_role target) (t_name target) with
    | None => Raised "role/name not found"
    | Some el => Selected (Some el) (_resolve_target_selector el)
    end
  else if truthy (s_name step) && truthy (s_role step)
  then Selected None
         (Some ("aria://" ++ _norm (s_role step) ++ "::" ++ str_or (s_name step) "")%string)
  else Raised "missing target in step"
  end end end.

(** The object [m2] of the guard before a click, when it is truthy. *)
Definition click_match (target : Target) : option MatchSpec :=
  match t_match target with
  | Some m => if match_truthy m then Some m else None
  | None =>
      if is_some (t_role target) || is_some (t_name target)
      then Some (legacy_match target) else None
  end.

(** The guard before a click: when the chosen element's name is blocked by
    the target's own [not_contains], the candidates are ranked again and the
    second one, when there is one, replaces the choice. *)
Definition click_substitute (elements_min : list Element) (target : Target)
           (last_chosen_el chosen_el : option Element) (sel : option string)
  : option Element * option string :=
  match chosen_el with
  | Some el =>
      if _is_blocked (name el) (target_not_contains target)
      then
        match click_match target with
        | Some m =>
            match _rank_candidates hypot elements_min m last_chosen_el with
            | _ :: alt :: _ => (Some alt, _resolve_target_selector alt)
            | _ => (chosen_el, sel)
            end
        | None => (chosen_el, sel)
        end
      else (chosen_el, sel)
  | None => (chosen_el, sel)
  end.
End TargetResolution.

(* ------------------------------------------------------------------ *)
(** ** Step executor: actions on the page *)

Inductive AfterArg : Type :=
| AfterTarget (t : Target)
| AfterValue (v : string).

(** The primitives called on the page and the observer callback. *)
Inductive Event : Type :=
| EvVisible (sel : string) (timeout_ms : nat)
| EvClick (sel : string)
| EvType (sel text : string)
| EvWaitUrl (want : string)
| EvAfter (action : string) (arg : AfterArg).

(** What one step does to the loop of [run_plan_stepwise]. *)
Inductive Outcome : Type :=
| Next (last_chosen_el : option Element)
| ReturnTrue
| ReturnFalse (msg : string).

(** The actions [run_plan_stepwise] supports. *)
Definition supported (action : string) : bool :=
  existsb (String.eqb action) ["type"; "click"; "wait_url_contains"; "end"].

Definition first_truthy (l : list (option string)) : option string :=
  match find truthy l with Some x => x | None => None end.

Section Executor.
Variable hypot : float -> float -> float.

(** The page, and the source's helpers whose bodies are calls of the
    automation library: [_is_visible] never raises, [_click], [_type_text]
    and [page.wait_for_url] return [false] when they raise. *)
Variable Page : Type.
Variable page_is_visible : Page -> string -> nat -> bool * Page.
Variable page_click : Page -> string -> bool * Page.
Variable page_type_text : Page -> string -> string -> bool * Page.
Variable page_wait_for_url : Page -> string -> bool * Page.
Variable on_after_action : option (string -> AfterArg -> Page -> Page).

Record World : Type := mkWorld { w_page : Page; w_trace : list Event }.

Definition _is_visible (sel : option string) (timeout_ms : nat) (w : World)
  : bool * World :=
  match sel with
  | None => (false, w)
  | Some s =>
      let (b, p) := page_is_visible (w_page w) s timeout_ms in
      (b, mkWorld p (w_trace w ++ [EvVisible s timeout_ms]))
  end.

Definition _click (sel : option string) (w : World) : bool * World :=
  match sel with
  | None => (false, w)
  | Some s =>
      let (b, p) := page_click (w_page w) s in
      (b, mkWorld p (w_trace w ++ [EvClick s]))
  end.

Definition _type_text (sel text : string) (w : World) : bool * World :=
  let (b, p) := page_type_text (w_page w) sel text in
  (b, mkWorld p (w_trace w ++ [EvType sel text])).

Definition wait_for_url (want : string) (w : World) : bool * World :=
  let (b, p) := page_wait_for_url (w_page w) want in
  (b, mkWorld p (w_trace w ++ [EvWaitUrl want])).

Definition _after (a : string) (tgt : AfterArg) (w : World) : World :=
  match on_after_action with
  | Some f => mkWorld (f a tgt (w_page w)) (w_trace w ++ [EvAfter a tgt])
  | None => w
  end.

(** First loop of [_try_open_nav_and_retry_home]: open a navigation menu
    and try the Home target again. *)
Fixpoint nav_opener_loop (els : list Element) (home_selector : option string)
         (w : World) : bool * World :=
  match els with
  | [] => (false, w)
  | el :: rest =>
      if negb (String.eqb (_norm (role el)) "button")
      then nav_opener_loop rest home_selector w
      else if name_in (_norm (name el)) _NAV_OPENER_NAMES
      then
        let opener_selector := _resolve_target_selector el in
        if truthy opener_selector
        then
          let (v, w1) := _is_visible opener_selector 1500 w in
          if v then
            let (c, w2) := _click opener_selector w1 in
            if c then
              let (v2, w3) := _is_visible home_selector 2000 w2 in
              if v2 then
                let (c2, w4) := _click home_selector w3 in
                if c2 then (true, w4)
                else nav_opener_loop rest home_selector w4
              else nav_opener_loop rest home_selector w3
            else nav_opener_loop rest home_selector w2
          else nav_opener_loop rest home_selector w1
        else nav_opener_loop rest home_selector w
      else nav_opener_loop rest home_selector w
  end.

(** Second and third loops: click the first visible element accepted by
    [accept]. *)
Fixpoint click_first_visible (accept : Element -> bool) (els : list Element)
         (w : World) : bool * World :=
  match els with
  | [] => (false, w)
  | el :: rest =>
      if accept el then
        let sel := _resolve_target_selector el in
        if truthy sel then
          let (v, w1) := _is_visible sel 2000 w in
          if v then
            let (c, w2) := _click sel w1 in
            if c then (true, w2) else click_first_visible accept rest w2
          else click_first_visible accept rest w1
        else click_first_visible accept rest w
      else click_first_visible accept rest w
  end.

Definition is_logo (el : Element) : bool :=
  existsb (String.eqb (_norm (role el))) ["link"; "img"; "button"] &&
  name_in (_norm (name el)) _LOGO_NAMES.

Definition is_home_link (el : Element) : bool :=
  String.eqb (_norm (role el)) "link" && contains "home" (_norm (name el)).

Definition _try_open_nav_and_retry_home (elements_min : list Element)
           (home_selector : option string) (w : World) : bool * World :=
  let (ok1, w1) := nav_opener_loop elements_min home_selector w in
  if ok1 then (true, w1)
  else
    let (ok2, w2) := click_first_visible is_logo elements_min w1 in
    if ok2 then (true, w2)
    else click_first_visible is_home_link elements_min w2.

(** Body of the loop of [run_plan_stepwise]; an exception raised inside the
    [try] block is the outcome [ReturnFalse]. *)
Definition exec_step (elements_min : list Element)
           (user_vars : list (string * string)) (step : Step)
           (last_chosen_el : option Element) (w : World) : Outcome * World :=
  let action := lower (strip (s_action step)) in
  if negb (nonempty action) then (Next last_chosen_el, w)
  else if String.eqb action "end" then (ReturnTrue, w)
  else
    let text0 := match s_text step with
                 | Some t => t
                 | None => match s_value step with Some v => v | None => "" end
                 end in
    let text := substitute_vars user_vars text0 in
    let target := match s_target step with Some t => t | None => empty_target end in
    match resolve_target hypot elements_min step last_chosen_el with
    | Raised msg => (ReturnFalse msg, w)
    | Selected chosen_el sel =>
        if negb (truthy sel) then (ReturnFalse "selector resolve failed", w)
        else if String.eqb action "type" then
          let (v, w1) := _is_visible sel 2000 w in
          if negb v then (ReturnFalse "target not visible for type", w1)
          else
            let (ok, w2) := _type_text (str_or sel "") text w1 in
            if negb ok then (ReturnFalse "type failed", w2)
            else (Next (opt_or chosen_el last_chosen_el),
                  _after "type" (AfterTarget target) w2)
        else if String.eqb action "click" then
          let (chosen_el', sel') :=
            click_substitute hypot elements_min target last_chosen_el chosen_el sel in
          let (v, w1) := _is_visible sel' 2000 w in
          if negb v then
            let tgt_name :=
              _norm (first_truthy
                       [match chosen_el' with Some el => name el | None => None end;
                        match t_match target with Some m => m_text m | None => None end;
                        t_name target]) in
            if contains "home" tgt_name then
              let (ok, w2) := _try_open_nav_and_retry_home elements_min sel' w1 in
              if ok then (Next None, _after "click" (AfterTarget target) w2)
              else (ReturnFalse "target not visible for click", w2)
            else (ReturnFalse "target not visible for click", w1)
          else
            let (ok, w2) := _click sel' w1 in
            if negb ok then (ReturnFalse "click failed", w2)
            else (Next (opt_or chosen_el' last_chosen_el),
                  _after "click" (AfterTarget target) w2)
        else if String.eqb action "wait_url_contains" then
          if negb (nonempty text)
          then (ReturnFalse "wait_url_contains requires text/value", w)
          else
            let (ok, w1) := wait_for_url text w in
            if negb ok then (ReturnFalse "wait_for_url failed", w1)
            else (Next last_chosen_el,
                  _after "wait_url_contains" (AfterValue text) w1)
        else (Next last_chosen_el, w)
    end.

Fixpoint run_steps (elements_min : list Element)
         (user_vars : list (string * string)) (steps_ : list Step)
         (last_chosen_el : option Element) (w : World) : bool * World :=
  match steps_ with
  | [] => (true, w)
  | step :: rest =>
      match exec_step elements_min user_vars step last_chosen_el w with
      | (Next last', w') => run_steps elements_min user_vars rest last' w'
      | (ReturnTrue, w') => (true, w')
      | (ReturnFalse _, w') => (false, w')
      end
  end.

Definition run_plan_stepwise (elements_min : list Element) (plan : option Plan)
           (user_vars : list (string * string)) (w : World) : bool * World :=
  let steps_ := match plan with
                | Some p => match steps p with Some l => l | None => [] end
                | None => []
                end in
  run_steps elements_min user_vars steps_ None w.
End Executor.

Arguments mkWorld {Page} w_page w_trace.
Arguments w_page {Page} w.
Arguments w_trace {Page} w.

(* ------------------------------------------------------------------ *)
(** ** Snapshot fuser: [snapshot_page] *)

(** A node of the DOM traversal as it stands after the loop that fills
    [dom_nodes]: [dn_uid] is the value drawn by [_uid()], [dn_frame_path] the
    path of the frame.  Keys the fuser never reads are left out. *)
Record DomNode : Type := mkDomNode {
  dn_uid : string;
  dn_tag : option string;
  dn_role_attr : option string;
  dn_name : option string;
  dn_attrs : list (string * string);
  dn_display : option string;
  dn_visibility : option string;
  dn_bbox : option BBox;
  dn_css : option string;
  dn_frame_path : list string;
  dn_shadow_path : option (list string)
}.

(** A flattened accessibility node. *)
Record AxNode : Type := mkAxNode {
  ax_role : option string;
  ax_name : option string;
  ax_description : option string;
  ax_frame_path : list string
}.

(** A record of [full_elems]. *)
Record FullElem : Type := mkFullElem {
  fe_uid : string;
  fe_tag : option string;
  fe_role : option string;
  fe_name : option string;
  fe_attrs : list (string * string);
  fe_css : option string;
  fe_bbox : option BBox;
  fe_display : option string;
  fe_visibility : option string;
  fe_frame_path : list string;
  fe_shadow_path : option (list string);
  fe_ax : option AxNode;
  fe_selector_pref : option string
}.

Definition ostr_eqb (a b : option string) : bool :=
  match a, b with
  | Some x, Some y => String.eqb x y
  | None, None => true
  | _, _ => false
  end.

Fixpoint strs_eqb (a b : list string) : bool :=
  match a, b with
  | [], [] => true
  | x :: a', y :: b' => String.eqb x y && strs_eqb a' b'
  | _, _ => false
  end.

(** [dict.get] on an attribute map. *)
Fixpoint attr_get (k : string) (attrs : list (string * string)) : option string :=
  match attrs with
  | [] => None
  | (k', v) :: rest => if String.eqb k k' then Some v else attr_get k rest
  end.

Definition mem_str (x : string) (l : list string) : bool :=
  existsb (String.eqb x) l.

Definition _str_or_none (x : option string) : option string :=
  match x with
  | None => None
  | Some s => if nonempty (strip s) then Some (strip s) else None
  end.

Definition visible_like (display visibility : option string)
           (b : option BBox) : bool :=
  if ostr_eqb display (Some "none") || ostr_eqb visibility (Some "hidden")
  then false
  else
    match b with
    | Some bb => (1 <=? bwidth bb)%float && (1 <=? bheight bb)%float
    | None => false
    end.

Definition _is_visible_like (dn : DomNode) : bool :=
  visible_like (dn_display dn) (dn_visibility dn) (dn_bbox dn).

Definition dquote : string := String (ascii_of_nat 34) EmptyString.

Definition _preferred_selector (tag_ : string) (attrs : list (string * string))
           (css : option string) : option string :=
  if truthy (attr_get "aria-label" attrs)
  then Some ("[aria-label=" ++ dquote ++ str_or (attr_get "aria-label" attrs) ""
               ++ dquote ++ "]")%string
  else if String.eqb tag_ "input" && truthy (attr_get "name" attrs)
  then Some ("input[name=" ++ dquote ++ str_or (attr_get "name" attrs) ""
               ++ dquote ++ "]")%string
  else if String.eqb tag_ "a" && truthy (attr_get "href" attrs)
  then Some ("a[href=" ++ dquote ++ str_or (attr_get "href" attrs) ""
               ++ dquote ++ "]")%string
  else if truthy css then css
  else None.

Definition _aria_selector (role_ name_ : option string) : option string :=
  if negb (truthy role_) || negb (truthy name_) then None
  else Some ("aria://" ++ lower (strip (str_or role_ "")) ++ "::"
               ++ strip (str_or name_ ""))%string.

Definition INTERACTIVE_ROLES : list string :=
  ["button"; "link"; "textbox"; "checkbox"; "radio"; "combobox"; "menuitem";
   "switch"; "tab"; "listbox"; "option"].

Definition INTERACTIVE_TAGS : list string :=
  ["input"; "button"; "a"; "select"; "textarea"; "label"].

(** [_is_interactive] is applied to records of [full_elems], which carry no
    [role_attr] key: the role is read from the attribute map. *)
Definition _is_interactive (e : FullElem) : bool :=
  if negb (visible_like (fe_display e) (fe_visibility e) (fe_bbox e)) then false
  else
    let tag_ := lower (str_or (fe_tag e) "") in
    let role_attr := lower (str_or (attr_get "role" (fe_attrs e)) "") in
    let role_hit := mem_str role_attr INTERACTIVE_ROLES in
    let tag_hit := mem_str tag_ INTERACTIVE_TAGS in
    let span_linkish := String.eqb tag_ "span" && String.eqb role_attr "link" in
    let clickable_attrs :=
      existsb (fun k => is_some (attr_get k (fe_attrs e)))
              ["aria-label"; "tabindex"; "onclick"; "href"; "type";
               "data-react-aria-pressable"] in
    let provider :=
      existsb (fun kv => String.prefix "data-social" (fst kv)) (fe_attrs e) in
    role_hit || tag_hit || span_linkish || clickable_attrs || provider.

(** [enumerate] *)
Fixpoint enumerate_from {A : Type} (i : nat) (l : list A) : list (nat * A) :=
  match l with
  | [] => []
  | x :: r => (i, x) :: enumerate_from (S i) r
  end.

Definition enumerate {A : Type} (l : list A) : list (nat * A) :=
  enumerate_from 0 l.

(** Order of the indices given by [enumerate]. *)
Definition index_lt {A : Type} (a b : nat * A) : Prop := (fst a < fst b)%nat.

(** The DOM nodes an accessibility node may align to: the visible-like nodes
    of its frame, [dom_nodes[j]] being [dn]. *)
Definition candidate_for (dom_nodes : list DomNode) (ax : AxNode)
           (j : nat) (dn : DomNode) : Prop :=
  nth_error dom_nodes j = Some dn /\ _is_visible_like dn = true /\
  dn_frame_path dn = ax_frame_path ax.

Section Alignment.
(** [rapidfuzz.fuzz.token_set_ratio], a score between 0 and 100. *)
Variable token_set_ratio : string -> string -> float.

Definition align_score (ax : AxNode) (ax_name_ : string) (dn : DomNode) : float :=
  let dn_text := str_or (dn_name dn) "" in
  let text_s := if nonempty ax_name_ || nonempty dn_text
                then (token_set_ratio ax_name_ dn_text / 100)%float
                else 0%float in
  let role_bonus :=
    if truthy (ax_role ax) &&
       (ostr_eqb (ax_role ax) (dn_role_attr dn) ||
        ostr_eqb (ax_role ax) (attr_get "role" (dn_attrs dn)))
    then 0.1%float else 0%float in
  (0.85 * text_s + 0.15 * role_bonus)%float.

(** The inner loop over [same_frame]: [best] and [best_s] as updated so far. *)
Fixpoint best_match (ax : AxNode) (ax_name_ : string)
         (same_frame : list (nat * DomNode)) (best : option nat) (best_s : float)
  : option nat * float :=
  match same_frame with
  | [] => (best, best_s)
  | (i, dn) :: rest =>
      let sc := align_score ax ax_name_ dn in
      if (best_s <? sc)%float then best_match ax ax_name_ rest (Some i) sc
      else best_match ax ax_name_ rest best best_s
  end.

(** [ax_name]: the name of the accessibility node, else its description. *)
Definition ax_label (ax : AxNode) : string :=
  str_or (opt_or (_str_or_none (ax_name ax)) (_str_or_none (ax_description ax))) "".

Definition align_one (cand_idx : list (nat * DomNode)) (ax : AxNode)
  : option nat :=
  let ax_name_ := ax_label ax in
  let same_frame :=
    filter (fun c => strs_eqb (dn_frame_path (snd c)) (ax_frame_path ax)) cand_idx in
  match best_match ax ax_name_ same_frame None (-1)%float with
  | (Some best, best_s) => if (0.5 <=? best_s)%float then Some best else None
  | (None, _) => None
  end.

(** The dictionary [ax2dom], as the list of its items in insertion order. *)
Fixpoint align_from (cand_idx : list (nat * DomNode)) (ai : nat)
         (ax_flat : list AxNode) : list (nat * nat) :=
  match ax_flat with
  | [] => []
  | ax :: rest =>
      match align_one cand_idx ax with
      | Some best => (ai, best) :: align_from cand_idx (S ai) rest
      | None => align_from cand_idx (S ai) rest
      end
  end.

Definition ax2dom_of (dom_nodes : list DomNode) (ax_flat : list AxNode)
  : list (nat * nat) :=
  let cand_idx := filter (fun c => _is_visible_like (snd c)) (enumerate dom_nodes) in
  align_from cand_idx 0 ax_flat.
End Alignment.

(** The record built for a DOM node, before the alignment is written in. *)
Definition full_of_dom (dn : DomNode) : FullElem :=
  mkFullElem (dn_uid dn) (dn_tag dn)
             (opt_or (if truthy (dn_role_attr dn) then dn_role_attr dn else None)
                     (attr_get "role" (dn_attrs dn)))
             (dn_name dn) (dn_attrs dn) (dn_css dn) (dn_bbox dn)
             (dn_display dn) (dn_visibility dn)
             (dn_frame_path dn) (dn_shadow_path dn) None
             (_preferred_selector (str_or (dn_tag dn) "") (dn_attrs dn) (dn_css dn)).

Definition set_ax (ax : AxNode) (e : FullElem) : FullElem :=
  mkFullElem (fe_uid e) (fe_tag e) (fe_role e) (fe_name e) (fe_attrs e)
             (fe_css e) (fe_bbox e) (fe_display e) (fe_visibility e)
             (fe_frame_path e) (fe_shadow_path e) (Some ax) (fe_selector_pref e).

(** [l[i] = f(l[i])] *)
Fixpoint update_nth {A : Type} (i : nat) (f : A -> A) (l : list A) : list A :=
  match l, i with
  | [], _ => []
  | x :: r, O => f x :: r
  | x :: r, S k => x :: update_nth k f r
  end.

(** [for ai, di in ax2dom.items(): full_elems[di]["ax"] = ...] *)
Definition write_alignment (ax_flat : list AxNode) (ax2dom : list (nat * nat))
           (full_elems : list FullElem) : list FullElem :=
  fold_left
    (fun full p =>
       match nth_error ax_flat (fst p) with
       | Some ax => update_nth (snd p) (set_ax ax) full
       | None => full
       end)
    ax2dom full_elems.

Definition Key : Type := option string * string * option string.

Definition key_eqb (a b : Key) : bool :=
  match a, b with
  | (r1, n1, s1), (r2, n2, s2) =>
      ostr_eqb r1 r2 && String.eqb n1 n2 && ostr_eqb s1 s2
  end.

Definition key_of (item : Element) : Key :=
  (role item, str_or (name item) "", selector_pref item).

Definition seen_mem (k : Key) (seen : list Key) : bool := existsb (key_eqb k) seen.

(** The list built so far has pairwise distinct keys, all recorded in [seen]. *)
Definition keys_recorded (minimal : list Element) (seen : list Key) : Prop :=
  NoDup (map key_of minimal) /\
  forall k, In k (map key_of minimal) -> In k seen.

Definition truthy_or (x y : option string) : option string :=
  if truthy x then x else if truthy y then y else None.

Definition ax_field (f : AxNode -> option string) (e : FullElem) : option string :=
  match fe_ax e with Some ax => f ax | None => None end.

(** The record of [elements_min] that the main loop builds from a record of
    [full_elems]. *)
Definition item_of_full (e : FullElem) : Element :=
  let tag_ := lower (str_or (fe_tag e) "") in
  mkElement (fe_uid e)
            (truthy_or (fe_role e) (ax_field ax_role e))
            (Some tag_)
            (Some (substring 0 140
                     (str_or (truthy_or (fe_name e) (ax_field ax_name e)) "")))
            (truthy_or (fe_selector_pref e)
                       (_preferred_selector tag_ (fe_attrs e) (fe_css e)))
            None
            (fe_bbox e) (fe_frame_path e) (fe_shadow_path e).

(** Main loop: interactive DOM records, deduplicated through [seen]. *)
Fixpoint minimal_dom (full_elems : list FullElem)
         (minimal : list Element) (seen : list Key)
  : list Element * list Key :=
  match full_elems with
  | [] => (minimal, seen)
  | e :: rest =>
      if negb (_is_interactive e) then minimal_dom rest minimal seen
      else
        let item := item_of_full e in
        if seen_mem (key_of item) seen then minimal_dom rest minimal seen
        else minimal_dom rest (minimal ++ [item]) (key_of item :: seen)
  end.

Definition AX_FALLBACK_ROLES : list string :=
  ["button"; "link"; "textbox"; "combobox"; "tab"; "menuitem"; "checkbox";
   "radio"; "listbox"; "option"].

Definition string_of_nat (n : nat) : string :=
  DecimalString.NilZero.string_of_uint (Nat.to_uint n).

Definition item_of_ax (ai : nat) (ax : AxNode) : Element :=
  let ax_role_ := lower (str_or (ax_role ax) "") in
  let ax_name_ := strip (str_or (ax_name ax) "") in
  mkElement ("ax-" ++ string_of_nat ai)%string
            (Some ax_role_) None
            (Some (substring 0 140 ax_name_))
            (_aria_selector (Some ax_role_) (Some ax_name_))
            None None (ax_frame_path ax) None.

(** Accessibility-only fallback: nodes without an alignment. *)
Fixpoint minimal_ax (ax2dom : list (nat * nat)) (axs : list (nat * AxNode))
         (minimal : list Element) (seen : list Key)
  : list Element * list Key :=
  match axs with
  | [] => (minimal, seen)
  | (ai, ax) :: rest =>
      let ax_role_ := lower (str_or (ax_role ax) "") in
      let ax_name_ := strip (str_or (ax_name ax) "") in
      if existsb (fun p => Nat.eqb (fst p) ai) ax2dom
      then minimal_ax ax2dom rest minimal seen
      else if negb (nonempty ax_role_) || negb (nonempty ax_name_)
      then minimal_ax ax2dom rest minimal seen
      else if negb (mem_str ax_role_ AX_FALLBACK_ROLES)
      then minimal_ax ax2dom rest minimal seen
      else
        let item := item_of_ax ai ax in
        if seen_mem (key_of item) seen then minimal_ax ax2dom rest minimal seen
        else minimal_ax ax2dom rest (minimal ++ [item]) (key_of item :: seen)
  end.

(** Equality of two records of [full_elems] (Python's [==] on dictionaries). *)
Definition bbox_eqb (a b : BBox) : bool :=
  (bx a =? bx b)%float && (by_ a =? by_ b)%float &&
  (bwidth a =? bwidth b)%float && (bheight a =? bheight b)%float.

Definition opt_eqb {A : Type} (eqb : A -> A -> bool) (a b : option A) : bool :=
  match a, b with
  | Some x, Some y => eqb x y
  | None, None => true
  | _, _ => false
  end.

Definition attrs_eqb (a b : list (string * string)) : bool :=
  Nat.eqb (List.length a) (List.length b) &&
  forallb (fun kv => ostr_eqb (attr_get (fst kv) b) (Some (snd kv))) a.

Definition ax_eqb (a b : AxNode) : bool :=
  ostr_eqb (ax_role a) (ax_role b) && ostr_eqb (ax_name a) (ax_name b) &&
  ostr_eqb (ax_description a) (ax_description b).

Definition full_eqb (a b : FullElem) : bool :=
  String.eqb (fe_uid a) (fe_uid b) && ostr_eqb (fe_tag a) (fe_tag b) &&
  ostr_eqb (fe_role a) (fe_role b) && ostr_eqb (fe_name a) (fe_name b) &&
  attrs_eqb (fe_attrs a) (fe_attrs b) && ostr_eqb (fe_css a) (fe_css b) &&
  opt_eqb bbox_eqb (fe_bbox a) (fe_bbox b) &&
  ostr_eqb (fe_display a) (fe_display b) &&
  ostr_eqb (fe_visibility a) (fe_visibility b) &&
  strs_eqb (fe_frame_path a) (fe_frame_path b) &&
  opt_eqb strs_eqb (fe_shadow_path a) (fe_shadow_path b) &&
  opt_eqb ax_eqb (fe_ax a) (fe_ax b) &&
  ostr_eqb (fe_selector_pref a) (fe_selector_pref b).

(** [x or y] on optional strings. *)
Definition py_or (x y : option string) : option string :=
  if truthy x then x else y.

(** Last resort: the tuples [(-area, y, e)] of the named button, anchor and
    input records. *)
Fixpoint degraded_cands (full_elems : list FullElem)
  : list (float * float * FullElem) :=
  match full_elems with
  | [] => []
  | e :: rest =>
      let tag_ := lower (str_or (fe_tag e) "") in
      if negb (mem_str tag_ ["button"; "a"; "input"]) then degraded_cands rest
      else
        let area := match fe_bbox e with
                    | Some b => (py_max 0 (bwidth b) * py_max 0 (bheight b))%float
                    | None => (0 * 0)%float
                    end in
        let y := match fe_bbox e with Some b => by_ b | None => 1e9%float end in
        if negb (truthy (truthy_or (fe_name e) (ax_field ax_name e)))
        then degraded_cands rest
        else ((- area)%float, y, e) :: degraded_cands rest
  end.

(** [a < b] on the tuples: two tuples that tie on area and position compare
    their records, which raises [TypeError] ([None]) unless they are equal. *)
Definition cand_lt (a b : float * float * FullElem) : option bool :=
  match a, b with
  | (na, ya, ea), (nb, yb, eb) =>
      if negb (na =? nb)%float then Some (na <? nb)%float
      else if negb (ya =? yb)%float then Some (ya <? yb)%float
      else if full_eqb ea eb then Some false
      else None
  end.

Fixpoint insert_cand (x : float * float * FullElem)
         (l : list (float * float * FullElem))
  : option (list (float * float * FullElem)) :=
  match l with
  | [] => Some [x]
  | y :: r =>
      match cand_lt y x with
      | None => None
      | Some true => option_map (cons y) (insert_cand x r)
      | Some false => Some (x :: y :: r)
      end
  end.

(** [sorted(cands)] *)
Fixpoint sorted_cands (l : list (float * float * FullElem))
  : option (list (float * float * FullElem)) :=
  match l with
  | [] => Some []
  | x :: r =>
      match sorted_cands r with
      | Some r' => insert_cand x r'
      | None => None
      end
  end.

Definition item_of_degraded (e : FullElem) : Element :=
  mkElement (fe_uid e)
            (py_or (fe_role e) (ax_field ax_role e))
            (Some (lower (str_or (fe_tag e) "")))
            (Some (substring 0 140
                     (str_or (truthy_or (fe_name e) (ax_field ax_name e)) "")))
            (py_or (fe_selector_pref e)
                   (_preferred_selector (str_or (fe_tag e) "") (fe_attrs e) (fe_css e)))
            None
            (fe_bbox e) (fe_frame_path e) (fe_shadow_path e).

Definition is_nil {A : Type} (l : list A) : bool :=
  match l with [] => true | _ => false end.

Section Snapshot.
Variable token_set_ratio : string -> string -> float.

Definition full_elems_of (dom_nodes : list DomNode) (ax_flat : list AxNode)
  : list FullElem :=
  write_alignment ax_flat (ax2dom_of token_set_ratio dom_nodes ax_flat)
                  (map full_of_dom dom_nodes).

(** The list [minimal] after the main loop and the accessibility-only
    fallback. *)
Definition minimal_fused (dom_nodes : list DomNode) (ax_flat : list AxNode)
  : list Element :=
  let ax2dom := ax2dom_of token_set_ratio dom_nodes ax_flat in
  let full_elems := full_elems_of dom_nodes ax_flat in
  let (minimal, seen) := minimal_dom full_elems [] [] in
  fst (minimal_ax ax2dom (enumerate ax_flat) minimal seen).

(** [elements_min] as returned by [snapshot_page]; [None] when the call
    raises. *)
Definition elements_min_of (dom_nodes : list DomNode) (ax_flat : list AxNode)
  : option (list Element) :=
  let full_elems := full_elems_of dom_nodes ax_flat in
  let minimal := minimal_fused dom_nodes ax_flat in
  if is_nil minimal && negb (is_nil full_elems)
  then
    match sorted_cands (degraded_cands full_elems) with
    | Some s => Some (minimal ++ map (fun c => item_of_degraded (snd c)) (firstn 10 s))
    | None => None
    end
  else Some minimal.
End Snapshot.

(* ------------------------------------------------------------------ *)
(** ** Planner: what [plan_actions] makes of the model's answer *)

Definition _normalize_step (st : Step) : Step :=
  if String.eqb (lower (s_action st)) "type"
  then
    match s_text st, s_value st with
    | None, Some v =>
        mkStep (s_action st) (Some v) None (s_target st) (s_name st) (s_role st)
    | _, _ => st
    end
  else st.

(** The decoded answer of the model, a JSON object, as far as
    [_normalize_plan] looks at it: the value under its key [steps]. *)
Inductive RawPlan : Type :=
| RawNoSteps                  (* the key is missing, or its value is [null] *)
| RawSteps (l : list Step)    (* a list of steps *)
| RawOther.                   (* any other value: an object, a string, a number *)

Definition _normalize_plan (raw : RawPlan) : Plan :=
  match raw with
  | RawSteps l => mkPlan (Some (map _normalize_step l))
  | RawNoSteps | RawOther => mkPlan (Some [])
  end.

Section Planner.
(** [json.loads]; [None] when it raises. *)
Variable json_loads : string -> option RawPlan.

(** The end of [plan_actions], from the content of the answer on. *)
Definition plan_of_content (content : string) : Plan :=
  match json_loads content with
  | None => mkPlan (Some [])
  | Some raw_plan => _normalize_plan raw_plan
  end.
End Planner.

(* ------------------------------------------------------------------ *)
(** ** Recovery loop: one round of [main] *)

(** The calls the body of the loop makes itself, in order. *)
Inductive LoopEvent (Snap PlanT : Type) : Type :=
| LSnapshot (label : string)
| LInput (prompt : string)
| LPlan (user_prompt : string) (snap : Snap) (email_value : string)
| LExec (snap : Snap) (plan : PlanT).

Arguments LSnapshot {Snap PlanT} label.
Arguments LInput {Snap PlanT} prompt.
Arguments LPlan {Snap PlanT} user_prompt snap email_value.
Arguments LExec {Snap PlanT} snap plan.

(** How a round ends: [break], or the value of [ok] with the e-mail kept
    for the next round. *)
Inductive RoundEnd : Type :=
| RoundBreak
| RoundDone (ok : bool) (email_value : string).

Definition newline : ascii := ascii_of_nat 10.

(** The two prompts of [input]; the first starts with a line break. *)
Definition instruction_prompt : string := String newline "Your instruction > ".

Definition email_prompt : string := "Enter email to use: ".

Section RecoveryLoop.
(** The session (browser, console, language model) and the three
    collaborators of the loop.  The executor receives the observer callback
    of the round; what the callback does happens inside the executor's run. *)
Variable Session Snap PlanT : Type.
Variable snapshot_page : string -> Session -> Snap * Session.
Variable input : string -> Session -> string * Session.
Variable plan_actions : string -> Snap -> string -> Session -> PlanT * Session.
Variable run_plan : nat -> Snap -> PlanT -> string -> Session -> bool * Session.

Definition Trace : Type := list (LoopEvent Snap PlanT).

Definition round_label (round_id : nat) (suffix : string) : string :=
  ("r" ++ string_of_nat round_id ++ suffix)%string.

(** Steps 4 and 5 of the round: run the plan, and on failure take a fresh
    snapshot, plan again for the same instruction and run once more. *)
Definition round_execute (round_id : nat) (user_prompt email_value : string)
           (min_json : Snap) (plan : PlanT) (s : Session)
  : bool * Session * Trace :=
  let (ok, s5) := run_plan round_id min_json plan email_value s in
  let t5 := [LExec min_json plan] in
  if negb ok then
    let label_rec := round_label round_id "_recover" in
    let (min_json', s6) := snapshot_page label_rec s5 in
    let (plan', s7) := plan_actions user_prompt min_json' email_value s6 in
    let (ok', s8) := run_plan round_id min_json' plan' email_value s7 in
    (ok', s8,
     t5 ++ [LSnapshot label_rec; LPlan user_prompt min_json' email_value;
            LExec min_json' plan'])
  else (ok, s5, t5).

Definition round (round_id : nat) (user_prompt email_value : string)
           (s : Session) : RoundEnd * Session * Trace :=
  let label_pre := round_label round_id "_pre" in
  let (min_json, s1) := snapshot_page label_pre s in
  let t1 := [LSnapshot label_pre] in
  let '(user_prompt1, s2, t2) :=
    if negb (nonempty user_prompt)
    then let (u, s') := input instruction_prompt s1 in
         (strip u, s', t1 ++ [LInput instruction_prompt])
    else (user_prompt, s1, t1) in
  if mem_str (lower user_prompt1) ["exit"; "quit"] then (RoundBreak, s2, t2)
  else
    let '(email_value1, s3, t3) :=
      if contains "email" (lower user_prompt1) && negb (nonempty email_value)
      then let (e, s') := input email_prompt s2 in
           (strip e, s', t2 ++ [LInput email_prompt])
      else (email_value, s2, t2) in
    let (plan, s4) := plan_actions user_prompt1 min_json email_value1 s3 in
    let t4 := t3 ++ [LPlan user_prompt1 min_json email_value1] in
    let '(ok, s5, t5) :=
      round_execute round_id user_prompt1 email_value1 min_json plan s4 in
    (RoundDone ok email_value1, s5, t4 ++ t5).

(** Counting the events of a trace. *)
Definition is_exec (e : LoopEvent Snap PlanT) : bool :=
  match e with LExec _ _ => true | _ => false end.

Definition is_snapshot (e : LoopEvent Snap PlanT) : bool :=
  match e with LSnapshot _ => true | _ => false end.

Definition is_plan (e : LoopEvent Snap PlanT) : bool :=
  match e with LPlan _ _ _ => true | _ => false end.

Definition count_events (f : LoopEvent Snap PlanT -> bool) (t : Trace) : nat :=
  List.length (filter f t).

(** [while True], bounded by the number of rounds to run. *)
Fixpoint rounds (fuel round_id : nat) (user_prompt email_value : string)
         (s : Session) : Session * Trace :=
  match fuel with
  | O => (s, [])
  | S k =>
      match round round_id user_prompt email_value s with
      | (RoundBreak, s', t) => (s', t)
      | (RoundDone _ email', s', t) =>
          let (s'', t') := rounds k (S round_id) "" email' s' in
          (s'', t ++ t')
      end
  end.
End RecoveryLoop.

(** [single_spaced prev_ws s]: the only white space of [s] is single blanks,
    none of them first when [prev_ws] holds. *)
Fixpoint single_spaced (prev_ws : bool) (s : string) : bool :=
  match s with
  | EmptyString => true
  | String c r =>
      if is_space c
      then negb prev_ws && Ascii.eqb c " " && single_spaced true r
      else single_spaced false r
  end.

Definition no_leading_space (s : string) : bool :=
  match s with
  | EmptyString => true
  | String c _ => negb (is_space c)
  end.

(** The tests of [_find_by_match] on one element, for a normalised wanted
    role and name. *)
Definition role_matches (role_n : string) (el : Element) : Prop :=
  role_n = "" \/ _norm (role el) = role_n.

Definition name_equals (name_n : string) (el : Element) : Prop :=
  name_n = "" \/ _norm (name el) = name_n.

Definition name_contains (name_n : string) (el : Element) : Prop :=
  name_n = "" \/ contains name_n (_norm (name el)) = true.

(** The selector a click or a typing event acts on. *)
Definition acts_on (e : Event) : option string :=
  match e with
  | EvClick s => Some s
  | EvType s _ => Some s
  | _ => None
  end.

(** The selector whose visibility an event has just tested. *)
Definition tested_by (e : Event) : option string :=
  match e with
  | EvVisible s _ => Some s
  | _ => None
  end.

(** [guarded prev t]: every click and every typing event of [t] comes right
    after a visibility test of the same selector; [prev] is the selector
    tested by the event before [t], if that event is a test. *)
Fixpoint guarded (prev : option string) (t : list Event) : bool :=
  match t with
  | [] => true
  | e :: r =>
      match acts_on e with
      | Some s => ostr_eqb prev (Some s)
      | None => true
      end && guarded (tested_by e) r
  end.
(** What holds of a loop of the Home fallback started in [w] and ended with
    [r]: the trace stays guarded, and success means that the last event is a
    click that follows a visibility test of its selector. *)
Definition fallback_post {Page : Type} (w : World Page)
           (r : bool * World Page) : Prop :=
  (guarded None (w_trace w) = true -> guarded None (w_trace (snd r)) = true) /\
  (fst r = true ->
   exists t s, w_trace (snd r) = (t ++ [EvVisible s 2000]) ++ [EvClick s]).

(* ------------------------------------------------------------------ *)
(** ** Reading an [aria://] selector: [_ARIA_RE] in [_get_by_role] *)

(** The class [[a-zA-Z0-9_-]] of the role group. *)
Definition is_role_char (c : ascii) : bool :=
  let n := nat_of_ascii c in
  (Nat.leb 97 n && Nat.leb n 122) || (Nat.leb 65 n && Nat.leb n 90) ||
  (Nat.leb 48 n && Nat.leb n 57) || Nat.eqb n 95 || Nat.eqb n 45.

Fixpoint all_role_chars (s : string) : bool :=
  match s with
  | EmptyString => true
  | String c r => is_role_char c && all_role_chars r
  end.

(** The longest prefix made of role characters, and what follows it. *)
Fixpoint span_role (s : string) : string * string :=
  match s with
  | EmptyString => (EmptyString, EmptyString)
  | String c r =>
      if is_role_char c
      then let (a, b) := span_role r in (String c a, b)
      else (EmptyString, s)
  end.

Fixpoint drop_prefix (p s : string) : option string :=
  match p, s with
  | EmptyString, _ => Some s
  | String a p', String b s' =>
      if Ascii.eqb a b then drop_prefix p' s' else None
  | String _ _, EmptyString => None
  end.

Fixpoint has_newline (s : string) : bool :=
  match s with
  | EmptyString => false
  | String c r => Ascii.eqb c newline || has_newline r
  end.

(** [$] also matches just before a line break that ends the string. *)
Fixpoint chomp (s : string) : string :=
  match s with
  | EmptyString => EmptyString
  | String c r =>
      match r with
      | EmptyString => if Ascii.eqb c newline then EmptyString else s
      | String _ _ => String c (chomp r)
      end
  end.

(** The groups [role] and [name] of
    [^aria://(?P<role>[a-zA-Z0-9_-]+)::(?P<name>.+)$] on [aria_selector or ""],
    [None] when the selector does not match. *)
Definition parse_aria (aria_selector : option string) : option (string * string) :=
  match drop_prefix "aria://" (str_or aria_selector "") with
  | None => None
  | Some rest =>
      let (role_, after_role) := span_role rest in
      if negb (nonempty role_) then None
      else
        match drop_prefix "::" after_role with
        | None => None
        | Some body =>
            let name_ := chomp body in
            if nonempty name_ && negb (has_newline name_)
            then Some (role_, name_)
            else None
        end
  end.

(* ------------------------------------------------------------------ *)
(** * Scenarios

    Concrete snapshots, plans and collaborators on which the definitions
    above are run. *)

(** A button-like record with a name, a role and a selector. *)
Definition named (u role_ name_ : string) : Element :=
  mkElement u (Some role_) (Some role_) (Some name_)
            (Some ("#" ++ u)%string) None None [] None.

Definition match_continue_exact : MatchSpec :=
  mkMatch (Some "Continue") None (Some true) None false.

Definition el_continue : Element := named "u1" "button" "Continue".
Definition el_google : Element := named "u2" "button" "Continue with Google".
Definition el_continue_box : Element := named "u3" "textbox" "continue".

(** Records with a 100 by 40 box whose corner is at [(x, y)]. *)
Definition boxed (u role_ name_ : string) (x y : float) : Element :=
  mkElement u (Some role_) (Some role_) (Some name_)
            (Some ("#" ++ u)%string) None (Some (mkBBox x y 100 40)) [] None.

Definition match_next : MatchSpec := mkMatch (Some "Next") None None None false.

Definition el_last : Element := boxed "t0" "textbox" "Email" 0 0.
Definition el_far : Element := boxed "u5" "button" "Next" 500 0.
Definition el_near : Element := boxed "u6" "button" "Next" 300 0.
Definition el_far200 : Element := boxed "u7" "button" "Next" 200 0.
Definition el_near100 : Element := boxed "u8" "button" "Next" 100 0.

(** A page on which every selector is visible and every action succeeds. *)
Definition ready_visible (p : unit) (sel : string) (timeout_ms : nat)
  : bool * unit := (true, p).
Definition ready_click (p : unit) (sel : string) : bool * unit := (true, p).
Definition ready_type (p : unit) (sel text : string) : bool * unit := (true, p).
Definition ready_wait (p : unit) (want : string) : bool * unit := (true, p).

Definition ready_step (els : list Element) (step : Step)
           (last : option Element) (w : World unit) : Outcome * World unit :=
  exec_step hypot_sqrt unit ready_visible ready_click ready_type ready_wait
            None els [] step last w.

Definition ready_run (els : list Element) (plan : option Plan)
           (w : World unit) : bool * World unit :=
  run_plan_stepwise hypot_sqrt unit ready_visible ready_click ready_type
                    ready_wait None els plan [] w.

Definition world0 : World unit := mkWorld tt [].

Definition el_guest : Element := named "u4" "button" "Continue as guest".
Definition el_checkout : Element := named "u9" "button" "Continue to checkout".

(** A click on the legacy target [{role: "button", name: "Continue"}]. *)
Definition target_continue_button : Target :=
  mkTarget None None None (Some "button") (Some "Continue") None None None.

Definition step_click_continue : Step :=
  mkStep "click" None None (Some target_continue_button) None None.

(** A click on [{match: {text: "Continue"}, not_contains: ["guest"]}]. *)
Definition target_continue_no_guest : Target :=
  mkTarget None None (Some (mkMatch (Some "Continue") None None None false))
           None None None None (Some ["guest"]).

Definition step_click_no_guest : Step :=
  mkStep "click" None None (Some target_continue_no_guest) None None.

(** A step with an action the executor does not support, and no target. *)
Definition step_scroll : Step := mkStep "scroll" None None None None None.

(** A session that counts the calls made on it: a snapshot and a plan are
    the value of the counter when they are taken, and the executor fails
    until the counter has reached 3. *)
Definition count_snapshot (label : string) (s : nat) : nat * nat := (s, S s).
Definition count_input (prompt : string) (s : nat) : string * nat :=
  ("click Continue", S s).
Definition count_plan (user_prompt : string) (snap : nat) (email_value : string)
           (s : nat) : nat * nat := (s, S s).
Definition count_run (round_id snap plan : nat) (email_value : string)
           (s : nat) : bool * nat := (Nat.leb 3 s, S s).

(** A stand-in for [token_set_ratio]: 100 for equal strings, 0 otherwise. *)
Definition ratio_same (a b : string) : float :=
  if String.eqb a b then 100%float else 0%float.

(** A visible button "Submit", its accessibility node, and the static text
    inside it, which has the same name. *)
Definition dom_submit : DomNode :=
  mkDomNode "d1" (Some "button") None (Some "Submit") []
            (Some "block") (Some "visible") (Some (mkBBox 10 10 80 30))
            (Some "button#go") [] None.

Definition ax_submit_button : AxNode :=
  mkAxNode (Some "button") (Some "Submit") None [].

Definition ax_submit_text : AxNode :=
  mkAxNode (Some "text") (Some "Submit") None [].

(** A visible text input without text, label or title. *)
Definition dom_bare_input : DomNode :=
  mkDomNode "d2" (Some "input") None None [("type", "text")]
            (Some "block") (Some "visible") (Some (mkBBox 10 60 200 30))
            (Some "input#q") [] None.

(** Two hidden buttons with the same label, one below the other. *)
Definition dom_hidden_close (u : string) (y : float) : DomNode :=
  mkDomNode u (Some "button") None (Some "Close") [("aria-label", "Close")]
            (Some "block") (Some "hidden") (Some (mkBBox 10 y 24 24))
            (Some ("button#" ++ u)%string) [] None.

Definition dom_two_hidden : list DomNode :=
  [dom_hidden_close "d3" 100; dom_hidden_close "d4" 200].

(** The root of the accessibility tree of the page. *)
Definition ax_root : AxNode := mkAxNode (Some "WebArea") (Some "Shop") None [].

Definition el_home_link : Element := named "h1" "link" "Home".

Definition match_continue : MatchSpec :=
  mkMatch (Some "Continue") None None (Some ["guest"]) false.

Definition el_next_box : Element := named "n1" "textbox" "Next".
Definition el_next_button : Element := named "n2" "button" "next".

(** A step that only waits for the address to contain a text. *)
Definition step_wait_editor : Step :=
  mkStep "wait_url_contains" (Some "/editor") None None None None.

Definition el_menu : Element := named "m1" "button" "Menu".

Definition step_click_home : Step :=
  mkStep "click" None None
         (Some (mkTarget (Some "#home") None None None None None None None))
         None None.

(** A link of the accessibility tree that no DOM node matches. *)
Definition ax_help_link : AxNode := mkAxNode (Some "link") (Some " Help ") None [].

Definition step_end : Step := mkStep " End " None None None None None.

(* ------------------------------------------------------------------ *)
(** * Properties *)

(** ** Comparisons on scores *)

Lemma SFcompare_none (x y : spec_float) :
  SFcompare x y = None <-> x = S754_nan \/ y = S754_nan.
Proof.
  split.
  - destruct x, y; simpl; try discriminate; auto.
  - intros [-> | ->]; [reflexivity|destruct x; reflexivity].
Qed.

Lemma SFcompare_some (x y : spec_float) (c : comparison) :
  SFcompare x y = Some c -> x <> S754_nan /\ y <> S754_nan.
Proof.
  intro H. split; intros ->; [|destruct x]; discriminate H.
Qed.

Lemma SFcompare_refl (x : spec_float) :
  x <> S754_nan -> SFcompare x x = Some Eq.
Proof.
  destruct x as [s|s| |s m e]; simpl; intro H; try congruence.
  - destruct s; reflexivity.
  - rewrite Z.compare_refl.
    change (Pos.compare_cont Eq m m) with (Pos.compare m m).
    rewrite Pos.compare_refl. destruct s; reflexivity.
Qed.

Lemma SFcompare_rank (x y : spec_float) :
  x <> S754_nan -> y <> S754_nan ->
  SFcompare x y = Some (lex3 (SFrank x) (SFrank y)).
Proof.
  destruct x as [sx|sx| |sx mx ex], y as [sy|sy| |sy my ey]; intros Hx Hy;
    try congruence;
    try (destruct sx; reflexivity);
    try (destruct sy; reflexivity);
    try (destruct sx, sy; reflexivity).
  destruct sx, sy; try reflexivity; simpl; f_equal;
    change (Pos.compare_cont Eq mx my) with (Pos.compare mx my);
    destruct (Z.compare_spec ex ey), (Z.compare_spec (- ex) (- ey));
    try lia; reflexivity.
Qed.

Lemma lex3_antisym (a b : Z * Z * Z) : lex3 b a = CompOpp (lex3 a b).
Proof.
  destruct a as [[a1 a2] a3], b as [[b1 b2] b3]. unfold lex3.
  rewrite (Z.compare_antisym a1 b1), (Z.compare_antisym a2 b2),
    (Z.compare_antisym a3 b3).
  destruct (a1 ?= b1)%Z, (a2 ?= b2)%Z, (a3 ?= b3)%Z; reflexivity.
Qed.

Lemma lex3_trans (a b c : Z * Z * Z) :
  lex3 a b <> Gt -> lex3 b c <> Gt ->
  lex3 a c <> Gt /\ (lex3 a b = Lt \/ lex3 b c = Lt -> lex3 a c = Lt).
Proof.
  destruct a as [[a1 a2] a3], b as [[b1 b2] b3], c as [[c1 c2] c3].
  unfold lex3.
  destruct (Z.compare_spec a1 b1), (Z.compare_spec b1 c1), (Z.compare_spec a1 c1);
    try lia; subst;
    destruct (Z.compare_spec a2 b2), (Z.compare_spec b2 c2), (Z.compare_spec a2 c2);
    try lia; subst;
    destruct (Z.compare_spec a3 b3), (Z.compare_spec b3 c3), (Z.compare_spec a3 c3);
    try lia; subst;
    intros ? ?; split; try congruence; intros [?|?]; congruence.
Qed.

Lemma SFcompare_antisym (x y : spec_float) (c : comparison) :
  SFcompare x y = Some c -> SFcompare y x = Some (CompOpp c).
Proof.
  intro H. destruct (SFcompare_some _ _ _ H) as [Hx Hy].
  rewrite (SFcompare_rank _ _ Hx Hy) in H.
  rewrite (SFcompare_rank _ _ Hy Hx), lex3_antisym. congruence.
Qed.

Lemma SFcompare_trans (x y z : spec_float) (c1 c2 : comparison) :
  SFcompare x y = Some c1 -> SFcompare y z = Some c2 ->
  c1 <> Gt -> c2 <> Gt ->
  exists c3, SFcompare x z = Some c3 /\ c3 <> Gt /\
             (c1 = Lt \/ c2 = Lt -> c3 = Lt).
Proof.
  intros H1 H2 N1 N2.
  destruct (SFcompare_some _ _ _ H1) as [Hx Hy].
  destruct (SFcompare_some _ _ _ H2) as [_ Hz].
  rewrite (SFcompare_rank x y Hx Hy) in H1.
  rewrite (SFcompare_rank y z Hy Hz) in H2.
  inversion H1; inversion H2; subst.
  exists (lex3 (SFrank x) (SFrank z)).
  split; [apply SFcompare_rank; assumption|].
  apply lex3_trans; assumption.
Qed.

Lemma SFrank_opp (x : spec_float) :
  SFrank (SFopp x)
  = let '(a, b, c) := SFrank x in (- a, - b, - c)%Z.
Proof.
  destruct x as [s|s| |s m e]; try reflexivity; destruct s; simpl;
    rewrite ?Z.opp_involutive; reflexivity.
Qed.

Lemma SFcompare_opp (x y : spec_float) :
  SFcompare (SFopp x) (SFopp y) = SFcompare y x.
Proof.
  destruct (SFcompare y x) as [c|] eqn:E.
  - destruct (SFcompare_some _ _ _ E) as [Hy Hx].
    rewrite SFcompare_rank in E by assumption.
    rewrite SFcompare_rank, !SFrank_opp by (destruct x, y; simpl; congruence).
    rewrite <- E. f_equal.
    destruct (SFrank x) as [[a1 a2] a3], (SFrank y) as [[b1 b2] b3].
    unfold lex3. rewrite !Z.compare_opp. reflexivity.
  - apply SFcompare_none in E. apply SFcompare_none.
    destruct E as [-> | ->]; auto.
Qed.

(** Two floats that compare equal, one of them finite and not zero, are the
    same float. *)
Lemma SFcompare_eq_finite (x : spec_float) (s : bool) (m : positive) (e : Z) :
  SFcompare x (S754_finite s m e) = Some Eq -> x = S754_finite s m e.
Proof.
  destruct x as [sx|sx| |sx mx ex]; simpl; try discriminate;
    try (destruct s; discriminate); try (destruct sx; discriminate).
  change (Pos.compare_cont Eq mx m) with (Pos.compare mx m).
  destruct sx, s; try discriminate;
    destruct (Z.compare_spec ex e); try discriminate;
    destruct (Pos.compare_spec mx m); try discriminate;
    intros _; subst; reflexivity.
Qed.

(** Rounding a mantissa that is not negative never gives a NaN. *)
Lemma shr_1_nonneg (mrs : shr_record) :
  (0 <= shr_m mrs)%Z -> (0 <= shr_m (shr_1 mrs))%Z.
Proof.
  destruct mrs as [m r s]. simpl.
  destruct m as [|p|p]; simpl; try lia.
  destruct p; simpl; lia.
Qed.

Lemma iter_pos_shr_1_nonneg (n : positive) (mrs : shr_record) :
  (0 <= shr_m mrs)%Z -> (0 <= shr_m (iter_pos shr_1 n mrs))%Z.
Proof.
  revert mrs. induction n as [n IH|n IH|]; intros mrs H; simpl.
  - apply IH, IH, shr_1_nonneg, H.
  - apply IH, IH, H.
  - apply shr_1_nonneg, H.
Qed.

Lemma shr_fexp_nonneg (m e : Z) (l : location) :
  (0 <= m)%Z -> (0 <= shr_m (fst (shr_fexp prec emax m e l)))%Z.
Proof.
  intro H. unfold shr_fexp, shr.
  assert (H0 : (0 <= shr_m (shr_record_of_loc m l))%Z).
  { destruct l as [|[| |]]; exact H. }
  destruct (fexp prec emax (Zdigits2 m + e) - e)%Z; simpl; try exact H0.
  apply iter_pos_shr_1_nonneg, H0.
Qed.

Lemma round_nearest_even_nonneg (m : Z) (l : location) :
  (0 <= m)%Z -> (0 <= round_nearest_even m l)%Z.
Proof.
  intro H. destruct l as [|[| |]]; simpl; try lia.
  destruct (Z.even m); lia.
Qed.

Lemma binary_round_aux_not_nan (s : bool) (m e : Z) (l : location) :
  (0 <= m)%Z -> binary_round_aux prec emax s m e l <> S754_nan.
Proof.
  intro H. unfold binary_round_aux.
  pose proof (shr_fexp_nonneg m e l H) as H1.
  destruct (shr_fexp prec emax m e l) as [mrs' e']. simpl in H1.
  pose proof (shr_fexp_nonneg _ e' loc_Exact
                (round_nearest_even_nonneg _ (loc_of_shr_record mrs') H1)) as H2.
  destruct (shr_fexp prec emax _ e' loc_Exact) as [mrs'' e'']. simpl in H2.
  destruct (shr_m mrs'') as [|p|p]; try discriminate; try lia.
  destruct (e'' <=? emax - prec)%Z; discriminate.
Qed.

Lemma binary_normalize_not_nan (m e : Z) (szero : bool) :
  binary_normalize prec emax m e szero <> S754_nan.
Proof.
  unfold binary_normalize, binary_round.
  destruct m as [|p|p]; try discriminate;
    destruct (shl_align _ _ _) as [mz ez];
    apply binary_round_aux_not_nan; lia.
Qed.

Lemma SFadd_not_nan (x y : spec_float) :
  x <> S754_nan -> y <> S754_nan -> SFinfinite x = false ->
  SF64add x y <> S754_nan.
Proof.
  destruct x as [sx|sx| |sx mx ex], y as [sy|sy| |sy my ey]; simpl;
    intros Hx Hy Hi; try congruence; try discriminate.
  - destruct sx, sy; discriminate.
  - apply binary_normalize_not_nan.
Qed.

(** The same facts on the floats themselves. *)
Lemma not_nan_spec (x : float) : not_nan x = true <-> Prim2SF x <> S754_nan.
Proof.
  unfold not_nan. rewrite FloatAxioms.eqb_spec. unfold SFeqb. split.
  - intros H E. rewrite E in H. discriminate H.
  - intro H. rewrite (SFcompare_refl _ H). reflexivity.
Qed.

Lemma float_ltb_not_nan (x y : float) :
  (x <? y)%float = true -> not_nan x = true /\ not_nan y = true.
Proof.
  rewrite FloatAxioms.ltb_spec. unfold SFltb. intro H.
  split; apply not_nan_spec; intro E; rewrite E in H;
    [|destruct (Prim2SF x)]; discriminate H.
Qed.

Lemma float_leb_not_nan (x y : float) :
  (x <=? y)%float = true -> not_nan x = true /\ not_nan y = true.
Proof.
  rewrite FloatAxioms.leb_spec. unfold SFleb. intro H.
  split; apply not_nan_spec; intro E; rewrite E in H;
    [|destruct (Prim2SF x)]; discriminate H.
Qed.

Lemma float_ltb_false_leb (x y : float) :
  not_nan x = true -> not_nan y = true ->
  (x <? y)%float = false -> (y <=? x)%float = true.
Proof.
  rewrite !not_nan_spec, FloatAxioms.ltb_spec, FloatAxioms.leb_spec.
  unfold SFltb, SFleb. intros Hx Hy.
  destruct (SFcompare (Prim2SF x) (Prim2SF y)) as [c|] eqn:E.
  - rewrite (SFcompare_antisym _ _ _ E). destruct c; simpl; congruence.
  - apply SFcompare_none in E. tauto.
Qed.

Lemma float_leb_ltb_false (x y : float) :
  (y <=? x)%float = true -> (x <? y)%float = false.
Proof.
  rewrite FloatAxioms.ltb_spec, FloatAxioms.leb_spec. unfold SFltb, SFleb.
  destruct (SFcompare (Prim2SF y) (Prim2SF x)) as [c|] eqn:E; [|discriminate].
  rewrite (SFcompare_antisym _ _ _ E). destruct c; simpl; congruence.
Qed.

Lemma float_ltb_leb_false (x y : float) :
  (x <? y)%float = true -> (y <=? x)%float = false.
Proof.
  rewrite FloatAxioms.ltb_spec, FloatAxioms.leb_spec. unfold SFltb, SFleb.
  destruct (SFcompare (Prim2SF x) (Prim2SF y)) as [c|] eqn:E; [|discriminate].
  rewrite (SFcompare_antisym _ _ _ E). destruct c; simpl; congruence.
Qed.

Lemma float_leb_false_ltb (x y : float) :
  not_nan x = true -> not_nan y = true ->
  (x <=? y)%float = false -> (y <? x)%float = true.
Proof.
  rewrite !not_nan_spec, FloatAxioms.ltb_spec, FloatAxioms.leb_spec.
  unfold SFltb, SFleb. intros Hx Hy.
  destruct (SFcompare (Prim2SF x) (Prim2SF y)) as [c|] eqn:E.
  - rewrite (SFcompare_antisym _ _ _ E). destruct c; simpl; congruence.
  - apply SFcompare_none in E. tauto.
Qed.

Lemma float_ltb_leb (x y : float) :
  (x <? y)%float = true -> (x <=? y)%float = true.
Proof.
  rewrite FloatAxioms.ltb_spec, FloatAxioms.leb_spec. unfold SFltb, SFleb.
  destruct (SFcompare (Prim2SF x) (Prim2SF y)) as [[| |]|]; congruence.
Qed.

Lemma float_ltb_asym (x y : float) :
  (x <? y)%float = true -> (y <? x)%float = false.
Proof. intro H. apply float_leb_ltb_false, float_ltb_leb, H. Qed.

Lemma float_ltb_irrefl (x : float) : (x <? x)%float = false.
Proof.
  destruct (x <? x)%float eqn:E; [|reflexivity].
  rewrite (float_ltb_asym _ _ E) in E. discriminate E.
Qed.

Lemma float_leb_refl (x : float) : not_nan x = true -> (x <=? x)%float = true.
Proof.
  rewrite not_nan_spec, FloatAxioms.leb_spec. unfold SFleb. intro H.
  rewrite (SFcompare_refl _ H). reflexivity.
Qed.

Lemma float_leb_trans (x y z : float) :
  (x <=? y)%float = true -> (y <=? z)%float = true -> (x <=? z)%float = true.
Proof.
  rewrite !FloatAxioms.leb_spec. unfold SFleb.
  destruct (SFcompare (Prim2SF x) (Prim2SF y)) as [c1|] eqn:E1; [|discriminate].
  destruct (SFcompare (Prim2SF y) (Prim2SF z)) as [c2|] eqn:E2; [|discriminate].
  intros H1 H2.
  destruct (SFcompare_trans _ _ _ _ _ E1 E2) as (c3 & -> & N & _).
  - intros ->. discriminate H1.
  - intros ->. discriminate H2.
  - destruct c3; congruence.
Qed.

Lemma float_ltb_leb_trans (x y z : float) :
  (x <? y)%float = true -> (y <=? z)%float = true -> (x <? z)%float = true.
Proof.
  rewrite !FloatAxioms.ltb_spec, FloatAxioms.leb_spec. unfold SFltb, SFleb.
  destruct (SFcompare (Prim2SF x) (Prim2SF y)) as [c1|] eqn:E1; [|discriminate].
  destruct (SFcompare (Prim2SF y) (Prim2SF z)) as [c2|] eqn:E2; [|discriminate].
  intros H1 H2.
  destruct (SFcompare_trans _ _ _ _ _ E1 E2) as (c3 & -> & N & L).
  - intros ->. discriminate H1.
  - intros ->. discriminate H2.
  - rewrite L; [reflexivity|]. left. destruct c1; congruence.
Qed.

Lemma float_leb_ltb_trans (x y z : float) :
  (x <=? y)%float = true -> (y <? z)%float = true -> (x <? z)%float = true.
Proof.
  rewrite !FloatAxioms.ltb_spec, FloatAxioms.leb_spec. unfold SFltb, SFleb.
  destruct (SFcompare (Prim2SF x) (Prim2SF y)) as [c1|] eqn:E1; [|discriminate].
  destruct (SFcompare (Prim2SF y) (Prim2SF z)) as [c2|] eqn:E2; [|discriminate].
  intros H1 H2.
  destruct (SFcompare_trans _ _ _ _ _ E1 E2) as (c3 & -> & N & L).
  - intros ->. discriminate H1.
  - intros ->. discriminate H2.
  - rewrite L; [reflexivity|]. right. destruct c2; congruence.
Qed.

Lemma float_eqb_leb (x y : float) :
  (x =? y)%float = true <-> (x <=? y)%float = true /\ (y <=? x)%float = true.
Proof.
  rewrite FloatAxioms.eqb_spec, !FloatAxioms.leb_spec. unfold SFeqb, SFleb.
  destruct (SFcompare (Prim2SF x) (Prim2SF y)) as [c|] eqn:E.
  - rewrite (SFcompare_antisym _ _ _ E). destruct c; simpl; intuition congruence.
  - intuition congruence.
Qed.

Lemma float_eqb_sym (x y : float) : (x =? y)%float = (y =? x)%float.
Proof.
  rewrite !FloatAxioms.eqb_spec. unfold SFeqb.
  destruct (SFcompare (Prim2SF x) (Prim2SF y)) as [c|] eqn:E.
  - rewrite (SFcompare_antisym _ _ _ E). destruct c; reflexivity.
  - destruct (SFcompare (Prim2SF y) (Prim2SF x)) as [c|] eqn:E'; [|reflexivity].
    apply SFcompare_antisym in E'. congruence.
Qed.

Lemma float_ltb_opp (x y : float) : (- x <? - y)%float = (y <? x)%float.
Proof.
  rewrite !FloatAxioms.ltb_spec, !opp_spec. unfold SFltb.
  rewrite SFcompare_opp. reflexivity.
Qed.

Lemma float_leb_opp (x y : float) : (- x <=? - y)%float = (y <=? x)%float.
Proof.
  rewrite !FloatAxioms.leb_spec, !opp_spec. unfold SFleb.
  rewrite SFcompare_opp. reflexivity.
Qed.

Lemma float_eqb_opp (x y : float) : (- x =? - y)%float = (x =? y)%float.
Proof.
  rewrite (float_eqb_sym x y).
  rewrite !FloatAxioms.eqb_spec, !opp_spec. unfold SFeqb.
  rewrite SFcompare_opp. reflexivity.
Qed.

Lemma not_nan_opp (x : float) : not_nan (- x) = not_nan x.
Proof. unfold not_nan. apply float_eqb_opp. Qed.

Lemma is_infinity_spec (x : float) :
  is_infinity x = SFinfinite (Prim2SF x).
Proof.
  unfold is_infinity. rewrite FloatAxioms.eqb_spec, abs_spec.
  destruct (Prim2SF x) as [s|s| |s m e]; reflexivity.
Qed.

Lemma float_add_not_nan (x y : float) :
  not_nan x = true -> not_nan y = true -> is_infinity x = false ->
  not_nan (x + y) = true.
Proof.
  rewrite !not_nan_spec, is_infinity_spec, add_spec.
  apply SFadd_not_nan.
Qed.

(** A float that compares equal to 0.25 is 0.25. *)
Lemma float_eqb_quarter (x : float) : (x =? 0.25)%float = true -> x = 0.25%float.
Proof.
  rewrite FloatAxioms.eqb_spec. unfold SFeqb. intro H.
  apply Prim2SF_inj.
  destruct (SFcompare (Prim2SF x) (Prim2SF 0.25)) as [[| |]|] eqn:E;
    try discriminate H.
  change (Prim2SF 0.25) with (S754_finite false 4503599627370496 (-54)) in *.
  apply SFcompare_eq_finite. exact E.
Qed.

(** Python's [min] and [max] return one of their arguments. *)
Lemma py_max_zero_cases (z : float) :
  (py_max 0 z = z /\ (0 <? z)%float = true) \/
  (py_max 0 z = 0%float /\ (0 <? z)%float = false).
Proof.
  unfold py_max. destruct (0 <? z)%float; [left|right]; split; reflexivity.
Qed.

Lemma py_max_zero_nonneg (z : float) :
  (0 <=? py_max 0 z)%float = true /\ (py_max 0 z <? 0)%float = false /\
  not_nan (py_max 0 z) = true.
Proof.
  destruct (py_max_zero_cases z) as [[-> H]|[-> _]].
  - split; [apply float_ltb_leb, H|]. split; [apply float_ltb_asym, H|].
    apply (float_ltb_not_nan _ _ H).
  - repeat split; reflexivity.
Qed.

(** ** The stable sort *)

Section StableSortFacts.
Context {A : Type}.
Implicit Types (x : float * A) (l : list (float * A)).

Lemma insert_by_key_perm x l : Permutation (insert_by_key x l) (x :: l).
Proof.
  induction l as [|y r IH]; simpl.
  - apply Permutation_refl.
  - destruct (fst y <? fst x)%float.
    + eapply Permutation_trans.
      * apply perm_skip. exact IH.
      * apply perm_swap.
    + apply Permutation_refl.
Qed.

Lemma sort_by_key_perm l : Permutation (sort_by_key l) l.
Proof.
  induction l as [|x r IH]; simpl.
  - constructor.
  - eapply Permutation_trans.
    + apply insert_by_key_perm.
    + apply perm_skip. exact IH.
Qed.

(** The keys of the resolver are never NaN, so [<] orders them. *)
Lemma insert_by_key_sorted x l :
  not_nan (fst x) = true -> Forall (fun p => not_nan (fst p) = true) l ->
  StronglySorted key_le l -> StronglySorted key_le (insert_by_key x l).
Proof.
  intros Hx Hn.
  induction l as [|y r IH]; simpl; intro Hs.
  - repeat constructor.
  - inversion Hs as [|? ? Hr Hall]; subst.
    inversion Hn as [|? ? Hy Hnr]; subst.
    destruct (fst y <? fst x)%float eqn:E.
    + constructor; [apply IH; assumption|].
      apply Forall_forall. intros z Hz.
      apply (Permutation_in _ (insert_by_key_perm x r)) in Hz.
      destruct Hz as [<-|Hz].
      * unfold key_le. apply float_ltb_leb. exact E.
      * rewrite Forall_forall in Hall. apply Hall. exact Hz.
    + apply (float_ltb_false_leb _ _ Hy Hx) in E.
      constructor; [exact Hs|].
      constructor; [exact E|].
      rewrite Forall_forall in Hall |- *. intros z Hz.
      unfold key_le in *. eapply float_leb_trans; [exact E|apply Hall; exact Hz].
Qed.

Lemma sort_by_key_not_nan l :
  Forall (fun p => not_nan (fst p) = true) l ->
  Forall (fun p => not_nan (fst p) = true) (sort_by_key l).
Proof.
  intro H. rewrite Forall_forall in H |- *. intros p Hp.
  apply H. exact (Permutation_in _ (sort_by_key_perm l) Hp).
Qed.

Lemma sort_by_key_sorted l :
  Forall (fun p => not_nan (fst p) = true) l ->
  StronglySorted key_le (sort_by_key l).
Proof.
  induction l as [|x r IH]; simpl; intro H.
  - constructor.
  - inversion H; subst.
    apply insert_by_key_sorted; [assumption| |apply IH; assumption].
    apply sort_by_key_not_nan. assumption.
Qed.

Lemma insert_by_key_stable k x l :
  filter (has_key k) (insert_by_key x l) = filter (has_key k) (x :: l).
Proof.
  induction l as [|y r IH]; [reflexivity|].
  simpl insert_by_key.
  destruct (fst y <? fst x)%float eqn:E; [|reflexivity].
  change (filter (has_key k) (y :: insert_by_key x r))
    with (if has_key k y then y :: filter (has_key k) (insert_by_key x r)
          else filter (has_key k) (insert_by_key x r)).
  rewrite IH. simpl.
  destruct (has_key k y) eqn:Hy, (has_key k x) eqn:Hx; try reflexivity.
  unfold has_key in *. apply float_eqb_leb in Hy, Hx.
  exfalso.
  assert (Hle : (fst x <=? fst y)%float = true)
    by (eapply float_leb_trans; [apply Hx|apply Hy]).
  rewrite (float_leb_ltb_false _ _ Hle) in E. discriminate E.
Qed.

Lemma sort_by_key_stable k l :
  filter (has_key k) (sort_by_key l) = filter (has_key k) l.
Proof.
  induction l as [|x r IH]; [reflexivity|].
  simpl sort_by_key. rewrite insert_by_key_stable.
  simpl. rewrite IH. reflexivity.
Qed.
End StableSortFacts.

(** ** Candidate resolver *)

Lemma norm_str_or (n : option string) : _norm (Some (str_or n "")) = _norm n.
Proof.
  unfold _norm. f_equal. f_equal. f_equal.
  destruct n as [s|]; simpl; [|reflexivity].
  destruct (String.eqb s "") eqn:E; simpl; [reflexivity|].
  rewrite E. reflexivity.
Qed.

Lemma nonempty_neq (s : string) : nonempty s = true <-> s <> "".
Proof.
  unfold nonempty. rewrite negb_true_iff. apply String.eqb_neq.
Qed.

(** The values of the text score of [_score_text]. *)
Lemma score_text_cases (q t : string) :
  let qn := _norm (Some q) in
  let tn := _norm (Some t) in
  (qn = "" \/ tn = "" -> _score_text q t = 0%float) /\
  (qn <> "" -> tn <> "" ->
   (qn = tn -> _score_text q t = 1%float) /\
   (qn <> tn -> String.prefix qn tn = true -> _score_text q t = 0.85%float) /\
   (qn <> tn -> String.prefix qn tn = false -> contains qn tn = true ->
    _score_text q t = 0.6%float) /\
   (qn <> tn -> String.prefix qn tn = false -> contains qn tn = false ->
    _score_text q t = 0%float)).
Proof.
  intros qn tn. unfold _score_text, nonempty. fold qn tn. split.
  - intros [-> | ->]; simpl; [reflexivity|].
    rewrite orb_true_r. reflexivity.
  - intros Hq Ht.
    apply String.eqb_neq in Hq, Ht. rewrite Hq, Ht. simpl.
    repeat split.
    + intros ->. rewrite String.eqb_refl. reflexivity.
    + intros Hne Hp. apply String.eqb_neq in Hne. rewrite Hne, Hp. reflexivity.
    + intros Hne Hp Hc. apply String.eqb_neq in Hne. rewrite Hne, Hp, Hc.
      reflexivity.
    + intros Hne Hp Hc. apply String.eqb_neq in Hne. rewrite Hne, Hp, Hc.
      reflexivity.
Qed.

Lemma score_text_values (q t : string) :
  _score_text q t = 0%float \/ _score_text q t = 0.6%float \/
  _score_text q t = 0.85%float \/ _score_text q t = 1%float.
Proof.
  unfold _score_text.
  destruct (negb _ || negb _); [auto|].
  destruct (String.eqb _ _); [auto|].
  destruct (String.prefix _ _); [auto|].
  destruct (contains _ _); auto.
Qed.

Lemma s_text_of_values (m : MatchSpec) (el : Element) :
  s_text_of m el = 0%float \/ s_text_of m el = 0.3%float \/
  s_text_of m el = 0.6%float \/ s_text_of m el = 0.85%float \/
  s_text_of m el = 1%float.
Proof.
  unfold s_text_of.
  destruct (_ && negb _); [auto|].
  destruct (nonempty _); [|auto].
  destruct (score_text_values (str_or (m_text m) "") (str_or (name el) ""))
    as [H|[H|[H|H]]]; rewrite H; auto.
Qed.

(** The text score of an element, by cases. *)
Lemma s_text_of_cases (m : MatchSpec) (el : Element) :
  let want_text := str_or (m_text m) "" in
  (m_exact m = Some true -> _norm (Some want_text) <> _norm (name el) ->
   s_text_of m el = 0%float) /\
  (m_exact m <> Some true \/ _norm (Some want_text) = _norm (name el) ->
   (want_text = "" -> s_text_of m el = 0.3%float) /\
   (want_text <> "" ->
    s_text_of m el = _score_text want_text (str_or (name el) ""))).
Proof.
  intro want_text. unfold s_text_of. fold want_text. split.
  - intros -> Hne. apply String.eqb_neq in Hne. rewrite Hne. reflexivity.
  - intro H.
    assert (E : (match m_exact m with Some b => b | None => false end) &&
                negb (String.eqb (_norm (Some want_text)) (_norm (name el)))
                = false).
    { destruct H as [H|H].
      - destruct (m_exact m) as [[|]|]; try reflexivity. congruence.
      - rewrite H, String.eqb_refl. apply andb_false_r. }
    rewrite E. split.
    + intros ->. reflexivity.
    + intro Hne. apply nonempty_neq in Hne. rewrite Hne. reflexivity.
Qed.

(** The role bonus, by cases: [0.3 - 0.1 * index] for the three preferred
    roles. *)
Lemma s_role_of_values (el : Element) :
  (_norm (role el) = "textbox" /\ s_role_of el = (0.3 - 0.1 * 0)%float) \/
  (_norm (role el) = "button" /\ s_role_of el = (0.3 - 0.1 * 1)%float) \/
  (_norm (role el) = "link" /\ s_role_of el = (0.3 - 0.1 * 2)%float) \/
  (_norm (role el) <> "textbox" /\ _norm (role el) <> "button" /\
   _norm (role el) <> "link" /\ s_role_of el = 0%float).
Proof.
  unfold s_role_of, _PREFER_ROLES. simpl.
  destruct (String.eqb (_norm (role el)) "textbox") eqn:E1.
  { left. apply String.eqb_eq in E1. split; [exact E1|reflexivity]. }
  destruct (String.eqb (_norm (role el)) "button") eqn:E2.
  { right; left. apply String.eqb_eq in E2. split; [exact E2|reflexivity]. }
  destruct (String.eqb (_norm (role el)) "link") eqn:E3.
  { right; right; left. apply String.eqb_eq in E3. split; [exact E3|reflexivity]. }
  right; right; right. apply String.eqb_neq in E1, E2, E3.
  repeat split; try assumption.
Qed.

Lemma s_text_of_pos (m : MatchSpec) (el : Element) :
  (s_text_of m el <=? 0)%float = negb (0 <? s_text_of m el)%float.
Proof.
  destruct (s_text_of_values m el) as [H|[H|[H|[H|H]]]]; rewrite H; reflexivity.
Qed.

(** Text score plus role bonus is one of twenty finite sums. *)
Lemma text_role_sum_finite (m : MatchSpec) (el : Element) :
  not_nan (s_text_of m el + s_role_of el) = true /\
  is_infinity (s_text_of m el + s_role_of el) = false.
Proof.
  destruct (s_text_of_values m el) as [H|[H|[H|[H|H]]]]; rewrite H;
    destruct (s_role_of_values el) as [[_ R]|[[_ R]|[[_ R]|[_ [_ [_ R]]]]]];
    rewrite R; split; reflexivity.
Qed.

Section ResolverFacts.
Variable hypot : float -> float -> float.

Lemma s_near_of_not_nan lt el :
  not_nan (s_near_of hypot lt el) = true /\
  (0 <=? s_near_of hypot lt el)%float = true /\
  (s_near_of hypot lt el <? 0)%float = false.
Proof.
  unfold s_near_of.
  destruct lt as [l|]; [|repeat split].
  destruct (bbox el) as [b|]; [|repeat split].
  destruct (bbox l) as [b2|]; [|repeat split].
  destruct (py_max_zero_nonneg
              (0.25 - py_min (distance hypot b b2 / 1000) 0.25)) as [H1 [H2 H3]].
  auto.
Qed.

Lemma total_score_not_nan m lt el :
  not_nan (total_score hypot m lt el) = true.
Proof.
  unfold total_score.
  destruct (text_role_sum_finite m el) as [H1 H2].
  apply float_add_not_nan; [exact H1| |exact H2].
  apply s_near_of_not_nan.
Qed.

Lemma candidate_spec m lt el :
  candidate hypot m lt el =
  if eligible m el then Some ((- total_score hypot m lt el)%float, el) else None.
Proof.
  unfold candidate, eligible, total_score.
  destruct (truthy (m_role m) &&
            negb (String.eqb (_norm (m_role m)) (_norm (role el)))); simpl;
    [reflexivity|].
  destruct (nonempty (str_or (name el) "")); simpl; [|reflexivity].
  destruct (_is_blocked _ _); simpl; [reflexivity|].
  destruct (s_text_of m el <=? 0)%float; reflexivity.
Qed.

Lemma candidates_spec els m lt :
  candidates hypot els m lt =
  map (fun el => ((- total_score hypot m lt el)%float, el))
      (filter (eligible m) els).
Proof.
  induction els as [|el rest IH]; simpl; [reflexivity|].
  rewrite candidate_spec. destruct (eligible m el); simpl; rewrite IH; reflexivity.
Qed.

Lemma candidates_not_nan els m lt :
  Forall (fun p => not_nan (fst p) = true) (candidates hypot els m lt).
Proof.
  rewrite candidates_spec. apply Forall_forall. intros p Hp.
  apply in_map_iff in Hp. destruct Hp as [el [<- _]]. simpl.
  rewrite not_nan_opp. apply total_score_not_nan.
Qed.

Lemma sorted_keys m lt els p :
  In p (sort_by_key (candidates hypot els m lt)) ->
  fst p = (- total_score hypot m lt (snd p))%float /\
  In (snd p) els /\ eligible m (snd p) = true.
Proof.
  intro H. apply (Permutation_in _ (sort_by_key_perm _)) in H.
  rewrite candidates_spec in H. apply in_map_iff in H.
  destruct H as [el [<- Hel]]. apply filter_In in Hel. simpl. tauto.
Qed.

Lemma rank_perm els m lt :
  Permutation (_rank_candidates hypot els m lt) (filter (eligible m) els).
Proof.
  unfold _rank_candidates.
  eapply Permutation_trans.
  - apply Permutation_map. apply sort_by_key_perm.
  - rewrite candidates_spec, map_map. simpl. rewrite map_id.
    apply Permutation_refl.
Qed.

Lemma rank_In els m lt el :
  In el (_rank_candidates hypot els m lt) <-> In el els /\ eligible m el = true.
Proof.
  rewrite <- filter_In. split; intro H.
  - exact (Permutation_in _ (rank_perm els m lt) H).
  - exact (Permutation_in _ (Permutation_sym (rank_perm els m lt)) H).
Qed.

Lemma rank_sorted els m lt :
  StronglySorted (score_ge hypot m lt) (_rank_candidates hypot els m lt).
Proof.
  unfold _rank_candidates.
  pose proof (sort_by_key_sorted (candidates hypot els m lt)
                (candidates_not_nan els m lt)) as Hs.
  pose proof (sorted_keys m lt els) as Hk.
  induction Hs as [|p l Hl IH Hall]; simpl.
  - constructor.
  - constructor.
    + apply IH. intros q Hq. apply Hk. right. exact Hq.
    + apply Forall_forall. intros b Hb. apply in_map_iff in Hb.
      destruct Hb as [q [<- Hq]].
      rewrite Forall_forall in Hall. specialize (Hall q Hq).
      unfold key_le in Hall. unfold score_ge.
      destruct (Hk p (or_introl eq_refl)) as [Hp _].
      destruct (Hk q (or_intror Hq)) as [Hq' _].
      rewrite Hp, Hq', float_leb_opp in Hall. exact Hall.
Qed.

Lemma rank_stable els m lt q :
  filter (has_score hypot m lt q) (_rank_candidates hypot els m lt) =
  filter (has_score hypot m lt q) (filter (eligible m) els).
Proof.
  unfold _rank_candidates.
  assert (Hmap : forall l : list (float * Element),
             (forall p, In p l -> fst p = (- total_score hypot m lt (snd p))%float) ->
             filter (has_score hypot m lt q) (map snd l) =
             map snd (filter (has_key (- q)%float) l)).
  { induction l as [|p l IH]; intro Hl; [reflexivity|].
    cbn [map filter]. rewrite IH by (intros; apply Hl; right; assumption).
    assert (has_score hypot m lt q (snd p) = has_key (- q)%float p) as ->.
    { unfold has_score, has_key.
      rewrite (Hl p (or_introl eq_refl)), float_eqb_opp. reflexivity. }
    destruct (has_key (- q)%float p); reflexivity. }
  rewrite Hmap by (intros p Hp; apply (sorted_keys m lt els p Hp)).
  rewrite sort_by_key_stable.
  rewrite <- Hmap.
  - rewrite candidates_spec, map_map. simpl. rewrite map_id. reflexivity.
  - intros p Hp. rewrite candidates_spec in Hp. apply in_map_iff in Hp.
    destruct Hp as [el [<- _]]. reflexivity.
Qed.

(** The four tests that keep an element out of the ranking. *)
Lemma eligible_spec m el :
  eligible m el = true <->
  (truthy (m_role m) = true -> _norm (m_role m) = _norm (role el)) /\
  str_or (name el) "" <> "" /\
  _is_blocked (Some (str_or (name el) ""))
              ((match m_not_contains m with Some l => l | None => [] end)
                 ++ _NEG_DEFAULT) = false /\
  (s_text_of m el <=? 0)%float = false.
Proof.
  unfold eligible.
  rewrite !andb_true_iff, !negb_true_iff, nonempty_neq, andb_false_iff,
    negb_false_iff, String.eqb_eq.
  split.
  - intros [[[H1 H2] H3] H4]. repeat split; try assumption.
    intro Ht. destruct H1 as [H1|H1]; [congruence|exact H1].
  - intros [H1 [H2 [H3 H4]]]. repeat split; try assumption.
    destruct (truthy (m_role m)); [right; apply H1; reflexivity|left; reflexivity].
Qed.

(** The proximity bonus, by cases. *)
Lemma s_near_of_cases lt el :
  (lt = None -> s_near_of hypot lt el = 0%float) /\
  (bbox el = None -> s_near_of hypot lt el = 0%float) /\
  (forall l, lt = Some l -> bbox l = None -> s_near_of hypot lt el = 0%float) /\
  (forall l b b2, lt = Some l -> bbox el = Some b -> bbox l = Some b2 ->
     s_near_of hypot lt el
     = py_max 0 (0.25 - py_min (hypot (center_x b - center_x b2)
                                      (center_y b - center_y b2) / 1000) 0.25)).
Proof.
  unfold s_near_of, distance. repeat split.
  - intros ->. reflexivity.
  - intros ->. destruct lt; reflexivity.
  - intros l -> ->. destruct (bbox el); reflexivity.
  - intros l b b2 -> -> ->. reflexivity.
Qed.

(** C7. For every element list, match specification and optional last
    target, the resolver returns exactly the eligible elements: a permutation
    of the elements of the snapshot that pass the four tests (role wanted,
    name present, name not blocked by the match's list united with the
    default blocklist, text score above 0).  They are sorted by descending
    total score, the total being the text score plus the role bonus plus the
    proximity bonus, added in this order as doubles and never a NaN: the text
    score is 0 when an exact match is wanted and the normalised names differ,
    else 0.3 without a wanted text, else 1, 0.85, 0.6 or 0 for an equal name,
    a prefix, a substring or neither; the role bonus is [0.3 - 0.1 * i] for
    the [i]-th of text box, button and link, else 0; the proximity bonus is
    [max(0, 0.25 - min(d / 1000, 0.25))] for the distance [d] of the centres
    of the two boxes, and 0 without a last target or a box.  For every score
    value, the elements having that score appear in the same order as in the
    snapshot, so ties keep the original order. *)
Theorem rank_sorted_stable (els : list Element) (m : MatchSpec)
        (lt : option Element) :
  let r := _rank_candidates hypot els m lt in
  let total := total_score hypot m lt in
  let want_text := str_or (m_text m) "" in
  Permutation r (filter (eligible m) els) /\
  (forall el,
     eligible m el = true <->
     (truthy (m_role m) = true -> _norm (m_role m) = _norm (role el)) /\
     str_or (name el) "" <> "" /\
     _is_blocked (Some (str_or (name el) ""))
                 ((match m_not_contains m with Some l => l | None => [] end)
                    ++ _NEG_DEFAULT) = false /\
     (s_text_of m el <=? 0)%float = false) /\
  (forall el,
     total el = (s_text_of m el + s_role_of el + s_near_of hypot lt el)%float /\
     not_nan (total el) = true) /\
  (forall el,
     (m_exact m = Some true -> _norm (Some want_text) <> _norm (name el) ->
      s_text_of m el = 0%float) /\
     (m_exact m <> Some true \/ _norm (Some want_text) = _norm (name el) ->
      (want_text = "" -> s_text_of m el = 0.3%float) /\
      (want_text <> "" ->
       s_text_of m el = _score_text want_text (str_or (name el) "")))) /\
  (forall q t,
     let qn := _norm (Some q) in
     let tn := _norm (Some t) in
     (qn = "" \/ tn = "" -> _score_text q t = 0%float) /\
     (qn <> "" -> tn <> "" ->
      (qn = tn -> _score_text q t = 1%float) /\
      (qn <> tn -> String.prefix qn tn = true -> _score_text q t = 0.85%float) /\
      (qn <> tn -> String.prefix qn tn = false -> contains qn tn = true ->
       _score_text q t = 0.6%float) /\
      (qn <> tn -> String.prefix qn tn = false -> contains qn tn = false ->
       _score_text q t = 0%float))) /\
  (forall el,
     (_norm (role el) = "textbox" -> s_role_of el = (0.3 - 0.1 * 0)%float) /\
     (_norm (role el) = "button" -> s_role_of el = (0.3 - 0.1 * 1)%float) /\
     (_norm (role el) = "link" -> s_role_of el = (0.3 - 0.1 * 2)%float) /\
     (_norm (role el) <> "textbox" -> _norm (role el) <> "button" ->
      _norm (role el) <> "link" -> s_role_of el = 0%float)) /\
  (forall el,
     (lt = None -> s_near_of hypot lt el = 0%float) /\
     (bbox el = None -> s_near_of hypot lt el = 0%float) /\
     (forall l, lt = Some l -> bbox l = None ->
                s_near_of hypot lt el = 0%float) /\
     (forall l b b2, lt = Some l -> bbox el = Some b -> bbox l = Some b2 ->
        s_near_of hypot lt el
        = py_max 0 (0.25 - py_min (hypot (center_x b - center_x b2)
                                         (center_y b - center_y b2) / 1000)
                                  0.25))) /\
  StronglySorted (fun a b => (total b <=? total a)%float = true) r /\
  (forall q : float,
      filter (fun el => (total el =? q)%float) r =
      filter (fun el => (total el =? q)%float) (filter (eligible m) els)).
Proof.
  intros r total want_text.
  split; [apply rank_perm|].
  split; [intro el; apply eligible_spec|].
  split; [intro el; split; [reflexivity|apply total_score_not_nan]|].
  split; [intro el; apply s_text_of_cases|].
  split; [intros q t; apply score_text_cases|].
  split.
  { intro el.
    destruct (s_role_of_values el) as [[R S]|[[R S]|[[R S]|[R1 [R2 [R3 S]]]]]];
      repeat split; intros; try exact S; try congruence;
      rewrite R in *; discriminate. }
  split; [intro el; apply s_near_of_cases|].
  split; [apply rank_sorted|].
  intro q. apply rank_stable.
Qed.
End ResolverFacts.

(** ** Exact match and the default blocklist *)

Lemma eligible_continue_exact (el : Element) :
  eligible match_continue_exact el = true -> _norm (name el) = "continue".
Proof.
  unfold eligible. rewrite !andb_true_iff. intros [_ Hs].
  unfold s_text_of in Hs.
  change (str_or (m_text match_continue_exact) "") with "Continue" in Hs.
  change (m_exact match_continue_exact) with (Some true) in Hs.
  change (_norm (Some "Continue")) with "continue" in Hs.
  destruct (String.eqb "continue" (_norm (name el))) eqn:E.
  - apply String.eqb_eq in E. symmetry. exact E.
  - simpl in Hs. discriminate Hs.
Qed.

Lemma continue_is_eligible (el : Element) :
  name el = Some "Continue" -> eligible match_continue_exact el = true.
Proof.
  intro Hn. unfold eligible, s_text_of. rewrite Hn. reflexivity.
Qed.

Lemma google_not_eligible (el : Element) :
  name el = Some "Continue with Google" ->
  eligible match_continue_exact el = false.
Proof.
  intro Hn. unfold eligible. rewrite Hn.
  change (_is_blocked (Some (str_or (Some "Continue with Google") ""))
            ((match m_not_contains match_continue_exact with
              | Some l => l | None => [] end) ++ _NEG_DEFAULT)) with true.
  rewrite andb_false_r. reflexivity.
Qed.

(** C1 (as stated, refuted). The snapshot holds a button named "Continue", a
    button named "Continue with Google" and a text box named "continue";
    the text box also matches exactly after normalisation and has the larger
    role bonus, so it is ranked first and the "Continue" button second. *)
Lemma continue_not_ranked_first :
  let els := [el_continue; el_google; el_continue_box] in
  In el_continue els /\ name el_continue = Some "Continue" /\
  In el_google els /\ name el_google = Some "Continue with Google" /\
  _rank_candidates hypot_sqrt els match_continue_exact None
    = [el_continue_box; el_continue] /\
  el_continue_box <> el_continue.
Proof.
  simpl. repeat split; try (left; reflexivity); try (right; left; reflexivity).
  discriminate.
Qed.

(** C1 (amended). For every snapshot holding an element named exactly
    "Continue" and one named "Continue with Google", resolving
    [{text: "Continue", exact: true}] without [not_contains] returns a ranked
    list that contains the "Continue" element, holds only elements whose
    normalised name is "continue" (so its first element is an exact match),
    and excludes "Continue with Google", which the default blocklist rejects;
    when no other element of the snapshot normalises to "continue", the
    "Continue" element is the first of the list. *)
Theorem exact_continue_resolution (hypot : float -> float -> float) (els : list Element)
        (lt : option Element) (e1 e2 : Element) :
  In e1 els -> name e1 = Some "Continue" ->
  In e2 els -> name e2 = Some "Continue with Google" ->
  let r := _rank_candidates hypot els match_continue_exact lt in
  In e1 r /\ ~ In e2 r /\
  _is_blocked (name e2) _NEG_DEFAULT = true /\
  (forall e, In e r -> _norm (name e) = "continue") /\
  (exists hd tl, r = hd :: tl /\ _norm (name hd) = "continue") /\
  ((forall e, In e els -> _norm (name e) = "continue" -> e = e1) ->
   exists tl, r = e1 :: tl).
Proof.
  intros H1 N1 H2 N2 r.
  assert (In1 : In e1 r).
  { apply rank_In. split; [exact H1|apply continue_is_eligible; exact N1]. }
  assert (Hall : forall e, In e r -> _norm (name e) = "continue").
  { intros e He. apply rank_In in He. apply eligible_continue_exact, He. }
  split; [exact In1|]. split.
  { intro He. apply rank_In in He. destruct He as [_ He].
    rewrite (google_not_eligible e2 N2) in He. discriminate He. }
  split; [rewrite N2; reflexivity|].
  split; [exact Hall|].
  destruct r as [|hd tl] eqn:Er; [destruct In1|].
  split.
  - exists hd, tl. split; [reflexivity|]. apply Hall. left. reflexivity.
  - intro Huniq. exists tl. f_equal. apply Huniq.
    + assert (In hd (_rank_candidates hypot els match_continue_exact lt)) as Hin
        by (fold r; rewrite Er; left; reflexivity).
      apply rank_In in Hin. apply Hin.
    + apply Hall. left. reflexivity.
Qed.

Lemma exact_continue_resolution_witness :
  let r := _rank_candidates hypot_sqrt [el_continue; el_google]
                            match_continue_exact None in
  In el_continue r /\ ~ In el_google r /\
  _is_blocked (name el_google) _NEG_DEFAULT = true /\
  (forall e, In e r -> _norm (name e) = "continue") /\
  (exists hd tl, r = hd :: tl /\ _norm (name hd) = "continue") /\
  ((forall e, In e [el_continue; el_google] ->
              _norm (name e) = "continue" -> e = el_continue) ->
   exists tl, r = el_continue :: tl).
Proof.
  apply (exact_continue_resolution hypot_sqrt [el_continue; el_google] None
           el_continue el_google).
  - left; reflexivity.
  - reflexivity.
  - right; left; reflexivity.
  - reflexivity.
Defined.

(** ** Proximity bonus *)

Lemma s_text_of_norm (m : MatchSpec) (a b : Element) :
  _norm (name a) = _norm (name b) -> s_text_of m a = s_text_of m b.
Proof.
  intro H. unfold s_text_of, _score_text.
  rewrite !norm_str_or, H. reflexivity.
Qed.

Lemma s_role_of_norm (a b : Element) :
  _norm (role a) = _norm (role b) -> s_role_of a = s_role_of b.
Proof.
  intro H. unfold s_role_of. rewrite H. reflexivity.
Qed.

Lemma sorted_after {A : Type} (R : A -> A -> Prop) (l1 l2 : list A) (b : A) :
  StronglySorted R (l1 ++ b :: l2) -> Forall (R b) l2.
Proof.
  induction l1 as [|x l1 IH]; simpl; intro H; inversion H; subst; auto.
Qed.

(** An element with a strictly higher total score comes before. *)
Lemma higher_score_ranks_first (hypot : float -> float -> float)
      (els : list Element) (m : MatchSpec) (lt : option Element) (a b : Element) :
  In a els -> In b els -> eligible m a = true -> eligible m b = true ->
  (total_score hypot m lt b <? total_score hypot m lt a)%float = true ->
  let r := _rank_candidates hypot els m lt in
  In a r /\ In b r /\
  forall l1 l2, r = l1 ++ b :: l2 -> In a l1 /\ ~ In a l2.
Proof.
  intros Ha Hb Ea Eb Hlt r.
  assert (Ia : In a r) by (apply rank_In; split; assumption).
  assert (Ib : In b r) by (apply rank_In; split; assumption).
  split; [exact Ia|]. split; [exact Ib|].
  intros l1 l2 Hsplit.
  pose proof (rank_sorted hypot els m lt) as Hs.
  fold r in Hs. rewrite Hsplit in Hs.
  pose proof (sorted_after _ _ _ _ Hs) as Hafter.
  assert (Hnot : ~ In a l2).
  { intro Hin. rewrite Forall_forall in Hafter.
    specialize (Hafter a Hin). unfold score_ge in Hafter.
    rewrite (float_leb_ltb_false _ _ Hafter) in Hlt. discriminate Hlt. }
  split; [|exact Hnot].
  rewrite Hsplit in Ia. apply in_app_or in Ia.
  destruct Ia as [Ia|[Ia|Ia]]; [exact Ia| |contradiction].
  subst a. rewrite float_ltb_irrefl in Hlt. discriminate Hlt.
Qed.

(** Subtracting a NaN gives a NaN, which is above nothing. *)
Lemma sub_nan_not_above (x y : float) :
  not_nan y = false -> (0 <? x - y)%float = false.
Proof.
  intro Hy. rewrite FloatAxioms.ltb_spec, sub_spec.
  assert (E : Prim2SF y = S754_nan).
  { destruct (Prim2SF y) eqn:E; try reflexivity;
      assert (N : not_nan y = true) by (apply not_nan_spec; rewrite E; discriminate);
      congruence. }
  rewrite E. destruct (Prim2SF x); reflexivity.
Qed.

(** The bonus vanishes as soon as the scaled distance is not below 0.25. *)
Lemma near_bonus_zero (y : float) :
  (y <? 0.25)%float = false -> py_max 0 (0.25 - py_min y 0.25) = 0%float.
Proof.
  intro H. unfold py_min.
  destruct (0.25 <? y)%float eqn:E; [reflexivity|].
  destruct (not_nan y) eqn:N.
  - assert (Q : y = 0.25%float).
    { apply float_eqb_quarter, float_eqb_leb. split.
      - apply float_ltb_false_leb; [reflexivity|exact N|exact E].
      - apply float_ltb_false_leb; [exact N|reflexivity|exact H]. }
    rewrite Q. reflexivity.
  - unfold py_max. rewrite (sub_nan_not_above _ _ N). reflexivity.
Qed.

(** C8 (as stated, refuted). Two buttons named "Next" lie 500 and 300 pixels
    from the last target; both bonuses are 0, since the bonus vanishes from
    250 pixels on, the scores tie and the farther button, which comes first
    in the snapshot, stays first. *)
Lemma farther_candidate_ranked_first :
  let els := [el_far; el_near] in
  eligible match_next el_far = true /\ eligible match_next el_near = true /\
  _norm (name el_far) = _norm (name el_near) /\
  _norm (role el_far) = _norm (role el_near) /\
  (exists ba bb bl,
      bbox el_near = Some ba /\ bbox el_far = Some bb /\
      bbox el_last = Some bl /\
      distance hypot_sqrt ba bl = 300%float /\
      distance hypot_sqrt bb bl = 500%float) /\
  _rank_candidates hypot_sqrt els match_next (Some el_last) = [el_far; el_near].
Proof.
  cbv zeta. repeat split.
  eexists _, _, _. repeat split; reflexivity.
Qed.

(** C8 (amended). Two eligible candidates with equal normalised name and
    equal role, both with a bounding box, and a last target with a bounding
    box: both are ranked, and their totals are the same text score and role
    bonus plus the proximity bonus of each.  The one whose total, computed in
    doubles, is strictly higher is ranked first (every occurrence of the other
    one comes after it); when the two totals are equal, as they are when the
    two bonuses are, the elements of that total keep their snapshot order.
    For every boxed element the proximity bonus is
    [max(0, 0.25 - min(d / 1000, 0.25))] for the distance [d] of the centres:
    it is never negative, and it is 0 as soon as the computed [d / 1000] is
    not below 0.25. *)
Theorem higher_total_ranked_first (hypot : float -> float -> float)
        (els : list Element) (m : MatchSpec) (lt a b : Element)
        (ba bb bl : BBox) :
  In a els -> In b els ->
  eligible m a = true -> eligible m b = true ->
  _norm (name a) = _norm (name b) -> _norm (role a) = _norm (role b) ->
  bbox a = Some ba -> bbox b = Some bb -> bbox lt = Some bl ->
  let r := _rank_candidates hypot els m (Some lt) in
  let total := total_score hypot m (Some lt) in
  let bonus be := py_max 0 (0.25 - py_min (distance hypot be bl / 1000) 0.25) in
  (In a r /\ In b r) /\
  (total a = (s_text_of m a + s_role_of a + bonus ba)%float /\
   total b = (s_text_of m a + s_role_of a + bonus bb)%float) /\
  ((total b <? total a)%float = true ->
   forall l1 l2, r = l1 ++ b :: l2 -> In a l1 /\ ~ In a l2) /\
  ((total a =? total b)%float = true ->
   filter (fun el => (total el =? total a)%float) r =
   filter (fun el => (total el =? total a)%float) (filter (eligible m) els)) /\
  (bonus ba = bonus bb -> (total a =? total b)%float = true) /\
  (forall el be, bbox el = Some be ->
     s_near_of hypot (Some lt) el = bonus be /\
     (0 <=? bonus be)%float = true /\ (bonus be <? 0)%float = false /\
     ((distance hypot be bl / 1000 <? 0.25)%float = false ->
      bonus be = 0%float)).
Proof.
  intros Ha Hb Ea Eb Hn Hr Ba Bb Bl r total bonus.
  assert (Hnear : forall el be, bbox el = Some be ->
            s_near_of hypot (Some lt) el = bonus be).
  { intros el be Hbe. unfold s_near_of. rewrite Hbe, Bl. reflexivity. }
  assert (Ta : total a = (s_text_of m a + s_role_of a + bonus ba)%float).
  { unfold total, total_score. rewrite (Hnear a ba Ba). reflexivity. }
  assert (Tb : total b = (s_text_of m a + s_role_of a + bonus bb)%float).
  { unfold total, total_score.
    rewrite (Hnear b bb Bb), (s_text_of_norm m a b Hn), (s_role_of_norm a b Hr).
    reflexivity. }
  split; [split; apply rank_In; split; assumption|].
  split; [split; assumption|].
  split.
  { intro Hlt.
    apply (higher_score_ranks_first hypot els m (Some lt) a b); assumption. }
  split; [intros _; apply (rank_stable hypot els m (Some lt) (total a))|].
  split.
  { intro Hbon. rewrite Ta, Tb, Hbon. rewrite <- Hbon, <- Ta.
    apply (total_score_not_nan hypot m (Some lt) a). }
  intros el be Hbe.
  split; [apply Hnear; exact Hbe|].
  destruct (py_max_zero_nonneg
              (0.25 - py_min (distance hypot be bl / 1000) 0.25)) as [H1 [H2 _]].
  split; [exact H1|]. split; [exact H2|].
  apply near_bonus_zero.
Qed.

Lemma higher_total_ranked_first_witness :
  let els := [el_far200; el_near100] in
  let r := _rank_candidates hypot_sqrt els match_next (Some el_last) in
  let total := total_score hypot_sqrt match_next (Some el_last) in
  let bonus be :=
    py_max 0 (0.25 - py_min (distance hypot_sqrt be (mkBBox 0 0 100 40) / 1000)
                            0.25) in
  (In el_near100 r /\ In el_far200 r) /\
  (total el_near100
   = (s_text_of match_next el_near100 + s_role_of el_near100
      + bonus (mkBBox 100 0 100 40))%float /\
   total el_far200
   = (s_text_of match_next el_near100 + s_role_of el_near100
      + bonus (mkBBox 200 0 100 40))%float) /\
  ((total el_far200 <? total el_near100)%float = true ->
   forall l1 l2, r = l1 ++ el_far200 :: l2 ->
                 In el_near100 l1 /\ ~ In el_near100 l2) /\
  ((total el_near100 =? total el_far200)%float = true ->
   filter (fun el => (total el =? total el_near100)%float) r =
   filter (fun el => (total el =? total el_near100)%float)
          (filter (eligible match_next) els)) /\
  (bonus (mkBBox 100 0 100 40) = bonus (mkBBox 200 0 100 40) ->
   (total el_near100 =? total el_far200)%float = true) /\
  (forall el be, bbox el = Some be ->
     s_near_of hypot_sqrt (Some el_last) el = bonus be /\
     (0 <=? bonus be)%float = true /\ (bonus be <? 0)%float = false /\
     ((distance hypot_sqrt be (mkBBox 0 0 100 40) / 1000 <? 0.25)%float = false ->
      bonus be = 0%float)).
Proof.
  apply (higher_total_ranked_first hypot_sqrt [el_far200; el_near100]
           match_next el_last el_near100 el_far200
           (mkBBox 100 0 100 40) (mkBBox 200 0 100 40) (mkBBox 0 0 100 40)).
  - right; left; reflexivity.
  - left; reflexivity.
  - reflexivity.
  - reflexivity.
  - reflexivity.
  - reflexivity.
  - reflexivity.
  - reflexivity.
  - reflexivity.
Defined.

(** ** Step executor *)

Section ExecutorFacts.
Variable hypot : float -> float -> float.
Variable Page : Type.
Variable page_is_visible : Page -> string -> nat -> bool * Page.
Variable page_click : Page -> string -> bool * Page.
Variable page_type_text : Page -> string -> string -> bool * Page.
Variable page_wait_for_url : Page -> string -> bool * Page.
Variable on_after_action : option (string -> AfterArg -> Page -> Page).

Local Abbreviation exec := (exec_step hypot Page page_is_visible page_click page_type_text
                            page_wait_for_url on_after_action).
Local Abbreviation run := (run_plan_stepwise hypot Page page_is_visible page_click
                                   page_type_text page_wait_for_url
                                   on_after_action).

(** An unsupported action is skipped once its target has been resolved. *)
Lemma unsupported_skipped_when_resolved els vars step last w chosen sel :
  let action := lower (strip (s_action step)) in
  nonempty action = true -> supported action = false ->
  resolve_target hypot els step last = Selected chosen sel ->
  truthy sel = true ->
  exec els vars step last w = (Next last, w).
Proof.
  intros action Hne Hsup Hres Hsel. unfold exec_step. fold action.
  rewrite Hne, Hres, Hsel. simpl.
  unfold supported in Hsup. simpl in Hsup.
  rewrite !orb_false_iff in Hsup.
  destruct Hsup as [Ht [Hc [Hw [He _]]]].
  rewrite He, Ht, Hc, Hw. reflexivity.
Qed.

(** The target is resolved before the action is looked at: a step whose
    target cannot be resolved fails the plan whatever its action is, the
    action [end] and the empty action apart. *)
Lemma unresolved_target_fails els vars step rest last w msg :
  let action := lower (strip (s_action step)) in
  nonempty action = true -> String.eqb action "end" = false ->
  resolve_target hypot els step last = Raised msg ->
  run_steps hypot Page page_is_visible page_click page_type_text
            page_wait_for_url on_after_action els vars (step :: rest) last w
  = (false, w).
Proof.
  intros action Hne Hend Hres. simpl. unfold exec_step. fold action.
  rewrite Hne, Hend, Hres. reflexivity.
Qed.

(** C2 (the code at the failing input). A plan made of the single step
    [{"action": "scroll"}], an unsupported action without target, is reported
    as failed on every snapshot and every page, and nothing is done on the
    page: the resolution of the missing target raises before the action is
    dispatched. *)
Theorem unsupported_action_fails_plan (els : list Element)
        (vars : list (string * string)) (w : World Page) :
  supported (lower (strip (s_action step_scroll))) = false /\
  run els (Some (mkPlan (Some [step_scroll]))) vars w = (false, w).
Proof.
  split; reflexivity.
Qed.

(** C10. The empty plan that the planner returns when the answer of the
    model cannot be decoded, like every plan whose list of steps is empty or
    missing, runs successfully on every snapshot and variable map and leaves
    the page and the trace of actions untouched. *)
Theorem empty_plan_succeeds (json_loads : string -> option RawPlan)
        (content : string) (els : list Element)
        (vars : list (string * string)) (w : World Page) :
  json_loads content = None ->
  plan_of_content json_loads content = mkPlan (Some []) /\
  run els (Some (plan_of_content json_loads content)) vars w = (true, w) /\
  run els (Some (mkPlan (Some []))) vars w = (true, w) /\
  run els (Some (mkPlan None)) vars w = (true, w) /\
  run els None vars w = (true, w).
Proof.
  intro H. unfold plan_of_content. rewrite H. repeat split.
Qed.
End ExecutorFacts.

Lemma empty_plan_succeeds_witness :
  plan_of_content (fun _ => None) "not a plan" = mkPlan (Some []) /\
  ready_run [el_continue] (Some (plan_of_content (fun _ => None) "not a plan"))
            world0 = (true, world0) /\
  ready_run [el_continue] (Some (mkPlan (Some []))) world0 = (true, world0) /\
  ready_run [el_continue] (Some (mkPlan None)) world0 = (true, world0) /\
  ready_run [el_continue] None world0 = (true, world0).
Proof.
  apply (empty_plan_succeeds hypot_sqrt unit ready_visible ready_click
           ready_type ready_wait None (fun _ => None) "not a plan"
           [el_continue] [] world0).
  reflexivity.
Defined.

(** ** The guard before a click *)

(** C6 (as stated, refuted). The legacy target [{role: "button", name:
    "Continue"}] resolves, by substring, to the button "Continue with Google",
    whose name is on the default blocklist; ranking the candidates again would
    give two other buttons, yet the executor clicks the Google button: the
    guard looks at the target's own [not_contains] only, which is empty. *)
Lemma default_blocklist_not_checked_before_click :
  let els := [el_google; el_guest; el_checkout] in
  resolve_target hypot_sqrt els step_click_continue None
    = Selected (Some el_google) (Some "#u2") /\
  _is_blocked (name el_google)
              (target_not_contains target_continue_button ++ _NEG_DEFAULT) = true /\
  _rank_candidates hypot_sqrt els (legacy_match target_continue_button) None
    = [el_guest; el_checkout] /\
  ready_step els step_click_continue None world0
    = (Next (Some el_google),
       mkWorld tt [EvVisible "#u2" 2000; EvClick "#u2"]).
Proof.
  simpl. repeat split.
Qed.

Section ClickGuardFacts.
Variable hypot : float -> float -> float.
Variable Page : Type.
Variable page_is_visible : Page -> string -> nat -> bool * Page.
Variable page_click : Page -> string -> bool * Page.
Variable page_type_text : Page -> string -> string -> bool * Page.
Variable page_wait_for_url : Page -> string -> bool * Page.
Variable on_after_action : option (string -> AfterArg -> Page -> Page).

(** C6 (amended). For every click step whose chosen element has a name
    blocked by the target's own [not_contains] list, and whose target either
    has a [match] key holding a non-empty match object or has no [match] key
    but a role or a name (from which a match object is built): the candidates
    are ranked again and, when the ranking has a second entry, that entry
    replaces the choice before the visibility test and the click, which are
    made on its selector.  The default blocklist is not consulted by this
    guard: an element not blocked by the target's own list is kept; so is the
    choice of a target whose [match] key holds an empty object, or that has
    neither [match] nor role nor name.  Exactly one alternate is considered:
    after the guard the choice is the original one or the second entry of the
    ranking. *)
Theorem blocked_click_takes_second
        (els : list Element) (vars : list (string * string)) (step : Step)
        (target : Target) (last : option Element) (el : Element)
        (sel : option string) (m : MatchSpec) (a0 a1 : Element)
        (rest : list Element) (s1 : string) (p1 p2 : Page) (w : World Page) :
  lower (strip (s_action step)) = "click" ->
  s_target step = Some target ->
  resolve_target hypot els step last = Selected (Some el) sel ->
  truthy sel = true ->
  _is_blocked (name el) (target_not_contains target) = true ->
  (t_match target = Some m /\ match_truthy m = true) \/
  (t_match target = None /\
   (t_role target <> None \/ t_name target <> None) /\
   m = legacy_match target) ->
  _rank_candidates hypot els m last = a0 :: a1 :: rest ->
  _resolve_target_selector a1 = Some s1 ->
  page_is_visible (w_page w) s1 2000 = (true, p1) ->
  page_click p1 s1 = (true, p2) ->
  exec_step hypot Page page_is_visible page_click page_type_text
            page_wait_for_url on_after_action els vars step last w
  = (Next (Some a1),
     _after Page on_after_action "click" (AfterTarget target)
            (mkWorld p2 ((w_trace w ++ [EvVisible s1 2000]) ++ [EvClick s1])))
  /\
  (forall tgt c s,
      _is_blocked (name c) (target_not_contains tgt) = false ->
      click_substitute hypot els tgt last (Some c) s = (Some c, s)) /\
  (forall tgt m',
      click_match tgt = Some m' <->
      (t_match tgt = Some m' /\ match_truthy m' = true) \/
      (t_match tgt = None /\
       (t_role tgt <> None \/ t_name tgt <> None) /\
       m' = legacy_match tgt)) /\
  (forall tgt c s,
      click_match tgt = None ->
      click_substitute hypot els tgt last c s = (c, s)) /\
  (forall tgt c s,
      click_substitute hypot els tgt last c s = (c, s) \/
      exists m' b0 b1 tl,
        click_match tgt = Some m' /\
        _rank_candidates hypot els m' last = b0 :: b1 :: tl /\
        click_substitute hypot els tgt last c s
        = (Some b1, _resolve_target_selector b1)).
Proof.
  intros Hact Htgt Hres Hsel Hblk Hm Hrank Hs1 Hvis Hclick.
  assert (Hspec : forall tgt m',
             click_match tgt = Some m' <->
             (t_match tgt = Some m' /\ match_truthy m' = true) \/
             (t_match tgt = None /\
              (t_role tgt <> None \/ t_name tgt <> None) /\
              m' = legacy_match tgt)).
  { intros tgt m'. unfold click_match.
    destruct (t_match tgt) as [m0|].
    - destruct (match_truthy m0) eqn:Et; split.
      + intro H. inversion H; subst. left. split; [reflexivity|exact Et].
      + intros [[H _]|[H _]]; [exact H|discriminate H].
      + discriminate.
      + intros [[H Ht]|[H _]]; [|discriminate H].
        inversion H; subst. congruence.
    - destruct (t_role tgt) as [r|]; simpl.
      + split.
        * intro H. inversion H. right. split; [reflexivity|].
          split; [left; discriminate|reflexivity].
        * intros [[H _]|[_ [_ ->]]]; [discriminate H|reflexivity].
      + destruct (t_name tgt) as [n|]; simpl; split.
        * intro H. inversion H. right. split; [reflexivity|].
          split; [right; discriminate|reflexivity].
        * intros [[H _]|[_ [_ ->]]]; [discriminate H|reflexivity].
        * discriminate.
        * intros [[H _]|[_ [[H|H] _]]]; [discriminate H|contradiction|contradiction]. }
  apply Hspec in Hm.
  split; [|split; [|split; [exact Hspec|split]]].
  - unfold exec_step. rewrite Hact, Hres, Hsel, Htgt. simpl.
    unfold click_substitute. rewrite Hblk, Hm, Hrank, Hs1.
    unfold _is_visible. rewrite Hvis. simpl.
    unfold _click. simpl. rewrite Hclick. reflexivity.
  - intros tgt c s Hnb. unfold click_substitute. rewrite Hnb. reflexivity.
  - intros tgt c s Hnone. unfold click_substitute. rewrite Hnone.
    destruct c as [c|]; [|reflexivity].
    destruct (_is_blocked (name c) (target_not_contains tgt)); reflexivity.
  - intros tgt c s. unfold click_substitute.
    destruct c as [c|]; [|left; reflexivity].
    destruct (_is_blocked (name c) (target_not_contains tgt));
      [|left; reflexivity].
    destruct (click_match tgt) as [m'|] eqn:Em; [|left; reflexivity].
    destruct (_rank_candidates hypot els m' last) as [|b0 [|b1 tl]] eqn:Er;
      try (left; reflexivity).
    right. exists m', b0, b1, tl. repeat split. exact Er.
Qed.
End ClickGuardFacts.

Lemma blocked_click_takes_second_witness :
  ready_step [el_google; el_guest; el_checkout] step_click_no_guest None world0
  = (Next (Some el_checkout),
     mkWorld tt ([EvVisible "#u9" 2000] ++ [EvClick "#u9"])) /\
  (forall tgt c s,
      _is_blocked (name c) (target_not_contains tgt) = false ->
      click_substitute hypot_sqrt [el_google; el_guest; el_checkout] tgt None
                       (Some c) s = (Some c, s)) /\
  (forall tgt m',
      click_match tgt = Some m' <->
      (t_match tgt = Some m' /\ match_truthy m' = true) \/
      (t_match tgt = None /\
       (t_role tgt <> None \/ t_name tgt <> None) /\
       m' = legacy_match tgt)) /\
  (forall tgt c s,
      click_match tgt = None ->
      click_substitute hypot_sqrt [el_google; el_guest; el_checkout] tgt None c s
      = (c, s)) /\
  (forall tgt c s,
      click_substitute hypot_sqrt [el_google; el_guest; el_checkout] tgt None c s
      = (c, s) \/
      exists m' b0 b1 tl,
        click_match tgt = Some m' /\
        _rank_candidates hypot_sqrt [el_google; el_guest; el_checkout] m' None
        = b0 :: b1 :: tl /\
        click_substitute hypot_sqrt [el_google; el_guest; el_checkout] tgt None c s
        = (Some b1, _resolve_target_selector b1)).
Proof.
  apply (blocked_click_takes_second hypot_sqrt unit ready_visible ready_click
           ready_type ready_wait None
           [el_google; el_guest; el_checkout] [] step_click_no_guest
           target_continue_no_guest None el_guest (Some "#u4")
           (mkMatch (Some "Continue") None None None false)
           el_guest el_checkout [] "#u9" tt tt world0).
  - reflexivity.
  - reflexivity.
  - reflexivity.
  - reflexivity.
  - reflexivity.
  - left. split; reflexivity.
  - reflexivity.
  - reflexivity.
  - reflexivity.
  - reflexivity.
Defined.

(** ** Recovery loop *)

Section RecoveryFacts.
Variable Session Snap PlanT : Type.
Variable snapshot_page : string -> Session -> Snap * Session.
Variable input : string -> Session -> string * Session.
Variable plan_actions : string -> Snap -> string -> Session -> PlanT * Session.
Variable run_plan : nat -> Snap -> PlanT -> string -> Session -> bool * Session.

Local Abbreviation execute :=
  (round_execute Session Snap PlanT snapshot_page plan_actions run_plan).
Local Abbreviation count := (count_events Snap PlanT).

(** When the first run succeeds nothing else happens in the round. *)
Lemma no_recovery_after_success rid up ev snap plan s s5 :
  run_plan rid snap plan ev s = (true, s5) ->
  execute rid up ev snap plan s = (true, s5, [LExec snap plan]).
Proof.
  intro H. unfold round_execute. rewrite H. reflexivity.
Qed.

(** A round either breaks before any plan is run, or it ends with the result
    of [round_execute], before which the executor has not run. *)
Lemma round_runs_execute rid up ev s :
  (exists s' t, round Session Snap PlanT snapshot_page input plan_actions
                      run_plan rid up ev s = (RoundBreak, s', t) /\
                count (is_exec Snap PlanT) t = 0%nat) \/
  (exists up1 ev1 snap plan s4 t4 ok s5 t5,
      execute rid up1 ev1 snap plan s4 = (ok, s5, t5) /\
      round Session Snap PlanT snapshot_page input plan_actions
            run_plan rid up ev s = (RoundDone ok ev1, s5, t4 ++ t5) /\
      count (is_exec Snap PlanT) t4 = 0%nat).
Proof.
  unfold round.
  destruct (snapshot_page (round_label rid "_pre") s) as [snap s1].
  destruct (negb (nonempty up));
    [destruct (input instruction_prompt s1) as [u s2]|];
    match goal with
    | |- context [mem_str (lower ?x) _] =>
        destruct (mem_str (lower x) ["exit"; "quit"]) eqn:Ex
    end;
    try (left; eexists _, _; split; [reflexivity|reflexivity]);
    right;
    match goal with
    | |- context [contains "email" ?x && ?y] =>
        destruct (contains "email" x && y);
        [destruct (input email_prompt _) as [e s3]|]
    end;
    match goal with
    | |- context [plan_actions ?a ?b ?c ?d] =>
        destruct (plan_actions a b c d) as [plan s4] eqn:Ep
    end;
    match goal with
    | |- context [round_execute _ _ _ _ _ _ ?a ?b ?c ?d ?e ?f] =>
        destruct (round_execute Session Snap PlanT snapshot_page plan_actions
                                run_plan a b c d e f) as [[ok s5] t5] eqn:Ee
    end;
    eexists _, _, _, _, _, _, _, _, _;
    (split; [exact Ee|split; [reflexivity|reflexivity]]).
Qed.

(** C9. In every round, when the first run of the plan reports failure:
    exactly one fresh snapshot is taken (labelled as the recovery snapshot of
    the round), exactly one new plan is asked for the same instruction, the
    executor runs exactly once more, the result of the round is the result of
    that second run, and there is no third run: the events of the round from
    the first run on are four, two of them runs of the executor. *)
Theorem recovery_runs_exactly_once
        (rid : nat) (up ev : string) (snap : Snap) (plan : PlanT)
        (s s5 : Session) (snap' : Snap) (s6 : Session) (plan' : PlanT)
        (s7 : Session) (ok' : bool) (s8 : Session) :
  run_plan rid snap plan ev s = (false, s5) ->
  snapshot_page (round_label rid "_recover") s5 = (snap', s6) ->
  plan_actions up snap' ev s6 = (plan', s7) ->
  run_plan rid snap' plan' ev s7 = (ok', s8) ->
  let t := [LExec snap plan; LSnapshot (round_label rid "_recover");
            LPlan up snap' ev; LExec snap' plan'] in
  execute rid up ev snap plan s = (ok', s8, t) /\
  count (is_snapshot Snap PlanT) t = 1%nat /\
  count (is_plan Snap PlanT) t = 1%nat /\
  count (is_exec Snap PlanT) t = 2%nat.
Proof.
  intros H1 H2 H3 H4 t. unfold round_execute.
  rewrite H1. simpl. rewrite H2, H3, H4. repeat split.
Qed.
End RecoveryFacts.

Lemma recovery_runs_exactly_once_witness :
  let t := [LExec 0%nat 1%nat; LSnapshot (round_label 1 "_recover");
            LPlan "click Continue" 3%nat "a@b.com"; LExec 3%nat 4%nat] in
  round_execute nat nat nat count_snapshot count_plan count_run
                1 "click Continue" "a@b.com" 0%nat 1%nat 2%nat
  = (true, 6%nat, t) /\
  count_events nat nat (is_snapshot nat nat) t = 1%nat /\
  count_events nat nat (is_plan nat nat) t = 1%nat /\
  count_events nat nat (is_exec nat nat) t = 2%nat.
Proof.
  apply (recovery_runs_exactly_once nat nat nat count_snapshot count_plan
           count_run 1 "click Continue" "a@b.com" 0%nat 1%nat 2%nat 3%nat
           3%nat 4%nat 4%nat 5%nat true 6%nat).
  - reflexivity.
  - reflexivity.
  - reflexivity.
  - reflexivity.
Defined.

(** ** Snapshot fuser: the alignment *)

Lemma strs_eqb_eq (a b : list string) : strs_eqb a b = true <-> a = b.
Proof.
  revert b. induction a as [|x a IH]; intros [|y b]; simpl;
    try (split; [discriminate|discriminate]); [tauto|].
  rewrite andb_true_iff, String.eqb_eq, IH.
  split; [intros [-> ->]; reflexivity|intro H; inversion H; auto].
Qed.

Lemma enumerate_from_In {A : Type} (l : list A) (k i : nat) (x : A) :
  In (i, x) (enumerate_from k l) <->
  (k <= i)%nat /\ nth_error l (i - k) = Some x.
Proof.
  revert k. induction l as [|y l IH]; intro k; simpl.
  - split; [tauto|]. intros [_ H]. destruct (i - k)%nat; discriminate H.
  - rewrite IH. split.
    + intros [H|[Hle Hn]].
      * inversion H; subst. rewrite Nat.sub_diag. auto.
      * split; [lia|]. replace (i - k)%nat with (S (i - S k)) by lia. exact Hn.
    + intros [Hle Hn]. destruct (i - k)%nat as [|d] eqn:Ed.
      * left. simpl in Hn. inversion Hn. f_equal. lia.
      * right. split; [lia|]. simpl in Hn.
        replace (i - S k)%nat with d by lia. exact Hn.
Qed.

Lemma enumerate_from_sorted {A : Type} (l : list A) (k : nat) :
  StronglySorted index_lt (enumerate_from k l).
Proof.
  revert k. induction l as [|y l IH]; intro k; simpl; constructor.
  - apply IH.
  - apply Forall_forall. intros [i x] Hin.
    apply enumerate_from_In in Hin. unfold index_lt. simpl. lia.
Qed.

Lemma filter_sorted {A : Type} (R : A -> A -> Prop) (f : A -> bool) (l : list A) :
  StronglySorted R l -> StronglySorted R (filter f l).
Proof.
  induction 1 as [|x l Hl IH Hall]; simpl; [constructor|].
  destruct (f x); [|exact IH].
  constructor; [exact IH|].
  rewrite Forall_forall in Hall |- *. intros y Hy.
  apply filter_In in Hy. apply Hall, Hy.
Qed.

Lemma sorted_before {A : Type} (l1 l2 : list (nat * A)) (c c' : nat * A) :
  StronglySorted index_lt (l1 ++ c :: l2) ->
  In c' (l1 ++ c :: l2) -> (fst c' < fst c)%nat -> In c' l1.
Proof.
  intros Hs Hin Hlt. apply in_app_or in Hin.
  destruct Hin as [Hin|[->|Hin]]; [exact Hin|lia|].
  pose proof (sorted_after _ _ _ _ Hs) as Hafter.
  rewrite Forall_forall in Hafter. specialize (Hafter c' Hin).
  unfold index_lt in Hafter. lia.
Qed.

Section AlignmentFacts.
Variable token_set_ratio : string -> string -> float.

Local Abbreviation score := (align_score token_set_ratio).

(** The inner loop returns the best score seen, which no candidate exceeds;
    the index it returns is the first one that reaches it. *)
Lemma best_match_spec ax n l :
  forall best s b r,
    not_nan s = true ->
    best_match token_set_ratio ax n l best s = (b, r) ->
    not_nan r = true /\ (s <=? r)%float = true /\
    Forall (fun c => (r <? score ax n (snd c))%float = false) l /\
    ((b = best /\ r = s) \/
     ((s <? r)%float = true /\
      exists l1 i dn l2,
        l = l1 ++ (i, dn) :: l2 /\ b = Some i /\ r = score ax n dn /\
        Forall (fun c => (r <=? score ax n (snd c))%float = false) l1)).
Proof.
  induction l as [|[i dn] rest IH]; intros best s b r Hs H; simpl in H.
  - inversion H; subst. split; [exact Hs|].
    split; [apply float_leb_refl; exact Hs|]. split; [constructor|].
    left. split; reflexivity.
  - destruct (s <? score ax n dn)%float eqn:E.
    + destruct (float_ltb_not_nan _ _ E) as [_ Hsc].
      destruct (IH _ _ _ _ Hsc H) as [Hr [Hle [Hall Hcase]]].
      pose proof (float_ltb_leb_trans _ _ _ E Hle) as Hlt.
      split; [exact Hr|]. split; [apply float_ltb_leb; exact Hlt|].
      split; [constructor; [apply float_leb_ltb_false; exact Hle|exact Hall]|].
      right. split; [exact Hlt|].
      destruct Hcase as [[-> ->]|[Hlt' [l1 [j [dn' [l2 [-> [-> [-> Hl1]]]]]]]]].
      * exists [], i, dn, rest. repeat split. constructor.
      * exists ((i, dn) :: l1), j, dn', l2. repeat split.
        constructor; [apply float_ltb_leb_false; exact Hlt'|exact Hl1].
    + destruct (IH _ _ _ _ Hs H) as [Hr [Hle [Hall Hcase]]].
      split; [exact Hr|]. split; [exact Hle|].
      split.
      { constructor; [|exact Hall]. simpl.
        destruct (r <? score ax n dn)%float eqn:E'; [|reflexivity].
        rewrite (float_leb_ltb_trans _ _ _ Hle E') in E. discriminate E. }
      destruct Hcase as [[-> ->]|[Hlt [l1 [j [dn' [l2 [-> [-> [-> Hl1]]]]]]]]].
      * left. split; reflexivity.
      * right. split; [exact Hlt|].
        exists ((i, dn) :: l1), j, dn', l2. repeat split.
        constructor; [|exact Hl1]. simpl.
        destruct (score ax n dn' <=? score ax n dn)%float eqn:E'; [|reflexivity].
        rewrite (float_ltb_leb_trans _ _ _ Hlt E') in E. discriminate E.
Qed.

Lemma same_frame_In dom_nodes ax j dn :
  In (j, dn)
     (filter (fun c => strs_eqb (dn_frame_path (snd c)) (ax_frame_path ax))
             (filter (fun c => _is_visible_like (snd c)) (enumerate dom_nodes)))
  <-> candidate_for dom_nodes ax j dn.
Proof.
  unfold candidate_for, enumerate.
  rewrite !filter_In, enumerate_from_In, Nat.sub_0_r. simpl.
  rewrite strs_eqb_eq. split.
  - intros [[[_ H1] H2] H3]. auto.
  - intros [H1 [H2 H3]]. repeat split; auto. lia.
Qed.

(** What an entry of the alignment says about its DOM node. *)
Lemma align_one_spec dom_nodes ax di :
  align_one token_set_ratio
            (filter (fun c => _is_visible_like (snd c)) (enumerate dom_nodes)) ax
  = Some di ->
  exists dn,
    candidate_for dom_nodes ax di dn /\
    (0.5 <=? score ax (ax_label ax) dn)%float = true /\
    forall j dn', candidate_for dom_nodes ax j dn' ->
      (score ax (ax_label ax) dn <? score ax (ax_label ax) dn')%float = false /\
      ((j < di)%nat ->
       (score ax (ax_label ax) dn <=? score ax (ax_label ax) dn')%float = false).
Proof.
  unfold align_one.
  set (sf := filter _ (filter _ (enumerate dom_nodes))).
  destruct (best_match token_set_ratio ax (ax_label ax) sf None (-1)%float)
    as [b r] eqn:Eb.
  destruct (best_match_spec _ _ _ None (-1)%float _ _ eq_refl Eb) as [_ [_ [Hall Hcase]]].
  destruct b as [i|]; [|discriminate].
  destruct (0.5 <=? r)%float eqn:Er; [|discriminate].
  intro H. inversion H; subst i. clear H.
  destruct Hcase as [[Hb _]|[_ [l1 [i [dn [l2 [Esf [Hi [Hr Hl1]]]]]]]]];
    [discriminate|].
  inversion Hi; subst i. clear Hi.
  exists dn. split.
  - apply same_frame_In. fold sf. rewrite Esf.
    apply in_or_app. right. left. reflexivity.
  - split; [rewrite <- Hr; exact Er|].
    intros j dn' Hc. apply same_frame_In in Hc. fold sf in Hc.
    rewrite Forall_forall in Hall. split.
    + rewrite <- Hr. exact (Hall _ Hc).
    + intro Hlt. rewrite <- Hr.
      assert (Hs : StronglySorted index_lt sf).
      { unfold sf. apply filter_sorted, filter_sorted, enumerate_from_sorted. }
      rewrite Esf in Hs, Hc.
      pose proof (sorted_before _ _ _ _ Hs Hc Hlt) as Hin.
      rewrite Forall_forall in Hl1. exact (Hl1 _ Hin).
Qed.

(** An accessibility node one of whose candidates reaches 0.5 is aligned. *)
Lemma align_one_complete dom_nodes ax j dn' :
  candidate_for dom_nodes ax j dn' ->
  (0.5 <=? score ax (ax_label ax) dn')%float = true ->
  exists di,
    align_one token_set_ratio
              (filter (fun c => _is_visible_like (snd c)) (enumerate dom_nodes)) ax
    = Some di.
Proof.
  intros Hc Hs. unfold align_one.
  apply same_frame_In in Hc.
  set (sf := filter _ (filter _ (enumerate dom_nodes))) in *.
  destruct (best_match token_set_ratio ax (ax_label ax) sf None (-1)%float)
    as [b r] eqn:Eb.
  destruct (best_match_spec _ _ _ None (-1)%float _ _ eq_refl Eb) as [Hr [_ [Hall Hcase]]].
  rewrite Forall_forall in Hall. specialize (Hall _ Hc). simpl in Hall.
  destruct (float_leb_not_nan _ _ Hs) as [_ Hn].
  pose proof (float_ltb_false_leb _ _ Hr Hn Hall) as Hle.
  pose proof (float_leb_trans _ _ _ Hs Hle) as Hhalf.
  destruct Hcase as [[-> ->]|[_ [l1 [i [dn [l2 [_ [-> _]]]]]]]].
  - discriminate Hhalf.
  - rewrite Hhalf. exists i. reflexivity.
Qed.

Lemma align_from_In cand k axs ai di :
  In (ai, di) (align_from token_set_ratio cand k axs) ->
  (k <= ai)%nat /\
  exists ax, nth_error axs (ai - k) = Some ax /\
             align_one token_set_ratio cand ax = Some di.
Proof.
  revert k. induction axs as [|ax rest IH]; intro k; simpl; [tauto|].
  intro H.
  assert (Hrest : In (ai, di) (align_from token_set_ratio cand (S k) rest) ->
                  (k <= ai)%nat /\
                  exists ax0, nth_error (ax :: rest) (ai - k) = Some ax0 /\
                              align_one token_set_ratio cand ax0 = Some di).
  { intro Hin. destruct (IH _ Hin) as [Hle [ax0 [Hn Ha]]].
    split; [lia|]. exists ax0. split; [|exact Ha].
    replace (ai - k)%nat with (S (ai - S k)) by lia. exact Hn. }
  destruct (align_one token_set_ratio cand ax) as [best|] eqn:Ea;
    [|exact (Hrest H)].
  destruct H as [H|H]; [|exact (Hrest H)].
  inversion H; subst. split; [lia|].
  exists ax. rewrite Nat.sub_diag. split; [reflexivity|exact Ea].
Qed.

Lemma align_from_complete cand k axs ai ax di :
  (k <= ai)%nat -> nth_error axs (ai - k) = Some ax ->
  align_one token_set_ratio cand ax = Some di ->
  In (ai, di) (align_from token_set_ratio cand k axs).
Proof.
  revert k. induction axs as [|ax0 rest IH]; intros k Hle Hn Ha.
  - destruct (ai - k)%nat; discriminate Hn.
  - simpl. destruct (ai - k)%nat as [|d] eqn:Ed.
    + simpl in Hn. inversion Hn; subst ax0. rewrite Ha.
      left. f_equal. lia.
    + simpl in Hn.
      assert (Hin : In (ai, di) (align_from token_set_ratio cand (S k) rest)).
      { apply IH; [lia| |exact Ha].
        replace (ai - S k)%nat with d by lia. exact Hn. }
      destruct (align_one token_set_ratio cand ax0); [right|]; exact Hin.
Qed.

Lemma align_from_keys cand k axs :
  NoDup (map fst (align_from token_set_ratio cand k axs)).
Proof.
  revert k. induction axs as [|ax rest IH]; intro k; simpl; [constructor|].
  destruct (align_one token_set_ratio cand ax) as [best|]; [|apply IH].
  simpl. constructor; [|apply IH].
  intro Hin. apply in_map_iff in Hin. destruct Hin as [[ai di] [Hk Hin]].
  simpl in Hk. subst ai. apply align_from_In in Hin. lia.
Qed.
End AlignmentFacts.

(** C3 (as stated, refuted). A visible button "Submit" and two accessibility
    nodes named "Submit", the button and the static text inside it: both
    nodes score 0.85 against the button and both are aligned to it, so the
    DOM node receives two alignments. *)
Lemma two_ax_nodes_align_to_one_dom_node :
  let ax2dom :=
    ax2dom_of ratio_same [dom_submit] [ax_submit_button; ax_submit_text] in
  align_score ratio_same ax_submit_button (ax_label ax_submit_button) dom_submit
    = 0.85%float /\
  align_score ratio_same ax_submit_text (ax_label ax_submit_text) dom_submit
    = 0.85%float /\
  ax2dom = [(0%nat, 0%nat); (1%nat, 0%nat)] /\
  In (0%nat, 0%nat) ax2dom /\ In (1%nat, 0%nat) ax2dom.
Proof.
  vm_compute. repeat split; auto.
Qed.

(** C3 (amended). For every pair of traversals, each accessibility node is
    aligned to at most one DOM node (the indices of the accessibility nodes
    in the alignment are pairwise distinct).  The DOM node of an entry is a
    visible-like node of the same frame whose combined score, computed in
    doubles as [0.85 * text + 0.15 * role], is at least 0.5, is exceeded by
    no candidate of the accessibility node and is reached by no earlier
    candidate: the best scorer wins, the first one among equals.  An
    accessibility node is aligned as soon as one of its candidates reaches
    0.5.  Nothing limits the number of accessibility nodes aligned to one DOM
    node. *)
Theorem alignment_is_functional_best_match
        (token_set_ratio : string -> string -> float)
        (dom_nodes : list DomNode) (ax_flat : list AxNode) :
  let ax2dom := ax2dom_of token_set_ratio dom_nodes ax_flat in
  let score ax dn := align_score token_set_ratio ax (ax_label ax) dn in
  NoDup (map fst ax2dom) /\
  (forall ai di di', In (ai, di) ax2dom -> In (ai, di') ax2dom -> di = di') /\
  (forall ai di, In (ai, di) ax2dom ->
     exists ax dn,
       nth_error ax_flat ai = Some ax /\
       candidate_for dom_nodes ax di dn /\
       (0.5 <=? score ax dn)%float = true /\
       forall j dn', candidate_for dom_nodes ax j dn' ->
         (score ax dn <? score ax dn')%float = false /\
         ((j < di)%nat -> (score ax dn <=? score ax dn')%float = false)) /\
  (forall ai ax j dn,
     nth_error ax_flat ai = Some ax ->
     candidate_for dom_nodes ax j dn ->
     (0.5 <=? score ax dn)%float = true ->
     exists di, In (ai, di) ax2dom) /\
  (forall ax n dn,
     align_score token_set_ratio ax n dn
     = (0.85 * (if nonempty n || nonempty (str_or (dn_name dn) "")
                then token_set_ratio n (str_or (dn_name dn) "") / 100
                else 0)
        + 0.15 * (if truthy (ax_role ax) &&
                     (ostr_eqb (ax_role ax) (dn_role_attr dn) ||
                      ostr_eqb (ax_role ax) (attr_get "role" (dn_attrs dn)))
                  then 0.1 else 0))%float).
Proof.
  intros ax2dom score. unfold ax2dom, ax2dom_of.
  split; [apply align_from_keys|]. split; [|split; [|split]].
  - intros ai di di' H1 H2.
    apply align_from_In in H1, H2.
    destruct H1 as [_ [ax [Hn Ha]]]. destruct H2 as [_ [ax' [Hn' Ha']]].
    rewrite Hn in Hn'. inversion Hn'; subst ax'.
    rewrite Ha in Ha'. inversion Ha'. reflexivity.
  - intros ai di Hin. apply align_from_In in Hin.
    destruct Hin as [_ [ax [Hn Ha]]]. rewrite Nat.sub_0_r in Hn.
    destruct (align_one_spec _ _ _ _ Ha) as [dn Hdn].
    exists ax, dn. split; [exact Hn|exact Hdn].
  - intros ai ax j dn Hn Hc Hs.
    destruct (align_one_complete token_set_ratio dom_nodes ax j dn Hc Hs)
      as [di Hdi].
    exists di. apply (align_from_complete _ _ _ _ _ ax); [lia| |exact Hdi].
    rewrite Nat.sub_0_r. exact Hn.
  - intros ax n dn. reflexivity.
Qed.

(** ** Snapshot fuser: names and keys of the records *)

Lemma substring_empty (s : string) : substring 0 140 s = "" -> s = "".
Proof.
  destruct s; [reflexivity|]. simpl. discriminate.
Qed.

Lemma str_or_empty (x : option string) : str_or x "" = "" -> truthy x = false.
Proof.
  destruct x as [s|]; simpl; [|reflexivity].
  destruct (String.eqb s "") eqn:E; [reflexivity|].
  intro H. subst s. discriminate E.
Qed.

Lemma truthy_or_false (x y : option string) :
  truthy (truthy_or x y) = false -> truthy x = false /\ truthy y = false.
Proof.
  unfold truthy_or. destruct (truthy x) eqn:Ex.
  - intro H. rewrite Ex in H. discriminate H.
  - destruct (truthy y) eqn:Ey; [intro H; rewrite Ey in H; discriminate H|auto].
Qed.

Lemma nonempty_true (s : string) : nonempty s = true -> s <> "".
Proof.
  unfold nonempty. intros H ->. discriminate H.
Qed.

Lemma minimal_dom_In full : forall m seen r,
  In r (fst (minimal_dom full m seen)) ->
  In r m \/ exists e, In e full /\ _is_interactive e = true /\ r = item_of_full e.
Proof.
  induction full as [|e rest IH]; intros m seen r H;
    cbn [minimal_dom] in H; [auto|].
  destruct (_is_interactive e) eqn:Ei; cbn [negb] in H.
  - destruct (seen_mem (key_of (item_of_full e)) seen).
    + destruct (IH _ _ _ H) as [Hm|[e' [He' Hr]]]; [auto|].
      right. exists e'. split; [right; exact He'|exact Hr].
    + destruct (IH _ _ _ H) as [Hm|[e' [He' Hr]]].
      * apply in_app_or in Hm. destruct Hm as [Hm|[<-|[]]]; [auto|].
        right. exists e. split; [left; reflexivity|]. split; [exact Ei|reflexivity].
      * right. exists e'. split; [right; exact He'|exact Hr].
  - destruct (IH _ _ _ H) as [Hm|[e' [He' Hr]]]; [auto|].
    right. exists e'. split; [right; exact He'|exact Hr].
Qed.

Lemma minimal_ax_In a2d axs : forall m seen r,
  In r (fst (minimal_ax a2d axs m seen)) ->
  In r m \/
  exists ai ax, In (ai, ax) axs /\ r = item_of_ax ai ax /\
                nonempty (strip (str_or (ax_name ax) "")) = true.
Proof.
  induction axs as [|[ai ax] rest IH]; intros m seen r H;
    cbn [minimal_ax] in H; [auto|].
  assert (Hrest : forall m' seen',
             In r (fst (minimal_ax a2d rest m' seen')) ->
             In r m' \/
             exists ai0 ax0, In (ai0, ax0) ((ai, ax) :: rest) /\
                             r = item_of_ax ai0 ax0 /\
                             nonempty (strip (str_or (ax_name ax0) "")) = true).
  { intros m' seen' H'. destruct (IH _ _ _ H') as [Hm|[ai0 [ax0 [Hin Hr]]]];
      [auto|]. right. exists ai0, ax0. split; [right; exact Hin|exact Hr]. }
  destruct (existsb _ a2d); [exact (Hrest _ _ H)|].
  destruct (negb (nonempty (lower (str_or (ax_role ax) ""))) ||
            negb (nonempty (strip (str_or (ax_name ax) "")))) eqn:E1;
    [exact (Hrest _ _ H)|].
  apply orb_false_iff in E1. destruct E1 as [_ En].
  apply negb_false_iff in En.
  destruct (negb (mem_str _ AX_FALLBACK_ROLES)); [exact (Hrest _ _ H)|].
  destruct (seen_mem _ seen); [exact (Hrest _ _ H)|].
  destruct (Hrest _ _ H) as [Hm|Hex]; [|auto].
  apply in_app_or in Hm. destruct Hm as [Hm|[<-|[]]]; [auto|].
  right. exists ai, ax. split; [left; reflexivity|]. split; [reflexivity|exact En].
Qed.

Lemma degraded_cands_In full c :
  In c (degraded_cands full) ->
  In (snd c) full /\
  truthy (truthy_or (fe_name (snd c)) (ax_field ax_name (snd c))) = true.
Proof.
  induction full as [|e rest IH]; cbn [degraded_cands]; [intros []|].
  destruct (negb (mem_str _ _)); [intro H; split; [right|]; apply IH, H|].
  destruct (truthy (truthy_or (fe_name e) (ax_field ax_name e))) eqn:Et;
    cbn [negb].
  - intros [<-|H]; [split; [left; reflexivity|exact Et]|].
    split; [right|]; apply IH, H.
  - intro H. split; [right|]; apply IH, H.
Qed.

Lemma insert_cand_In x l : forall s c,
  insert_cand x l = Some s -> In c s -> c = x \/ In c l.
Proof.
  induction l as [|y r IH]; intros s c H Hin; simpl in H.
  - inversion H; subst. destruct Hin as [<-|[]]. auto.
  - destruct (cand_lt y x) as [[|]|]; [|inversion H; subst|discriminate].
    + destruct (insert_cand x r) as [s'|] eqn:Es; [|discriminate].
      simpl in H. inversion H; subst.
      destruct Hin as [<-|Hin]; [right; left; reflexivity|].
      destruct (IH _ _ eq_refl Hin); [auto|right; right; assumption].
    + destruct Hin as [<-|Hin]; auto.
Qed.

Lemma sorted_cands_In l : forall s c,
  sorted_cands l = Some s -> In c s -> In c l.
Proof.
  induction l as [|x r IH]; intros s c H Hin; simpl in H.
  - inversion H; subst. exact Hin.
  - destruct (sorted_cands r) as [r'|]; [|discriminate].
    destruct (insert_cand_In _ _ _ _ H Hin) as [->|Hc]; [left; reflexivity|].
    right. exact (IH _ _ eq_refl Hc).
Qed.

Lemma firstn_In {A : Type} (n : nat) (l : list A) (x : A) :
  In x (firstn n l) -> In x l.
Proof.
  revert l. induction n as [|n IH]; intros [|y l]; simpl; try tauto.
  intros [H|H]; [auto|right; apply IH, H].
Qed.

(** C4 (as stated, refuted). A visible text input without text, label or
    title, and no accessibility node: the canonical list is the single record
    of that input, and its name is empty. *)
Lemma unnamed_input_is_kept :
  exists r,
    elements_min_of ratio_same [dom_bare_input] [] = Some [r] /\
    uid r = "d2" /\ name r = Some "".
Proof.
  eexists. repeat split.
Qed.

(** C4 (amended). Every record of the canonical list has a name, and a
    record whose name is empty is one that the main loop built from an
    interactive DOM record having neither a name of its own nor the name of
    an aligned accessibility node: the records appended by the
    accessibility-only fallback and by the last-resort branch always have a
    non-empty name, the records of unnamed interactive DOM nodes are kept. *)
Theorem empty_names_come_from_dom_records
        (token_set_ratio : string -> string -> float)
        (dom_nodes : list DomNode) (ax_flat : list AxNode)
        (l : list Element) (r : Element) :
  elements_min_of token_set_ratio dom_nodes ax_flat = Some l ->
  In r l ->
  exists s, name r = Some s /\
    (s = "" ->
     exists e, In e (full_elems_of token_set_ratio dom_nodes ax_flat) /\
               _is_interactive e = true /\ r = item_of_full e /\
               truthy (fe_name e) = false /\
               truthy (ax_field ax_name e) = false).
Proof.
  intros Hl Hr.
  assert (Hfused : In r (minimal_fused token_set_ratio dom_nodes ax_flat) ->
            exists s, name r = Some s /\
              (s = "" ->
               exists e, In e (full_elems_of token_set_ratio dom_nodes ax_flat) /\
                         _is_interactive e = true /\ r = item_of_full e /\
                         truthy (fe_name e) = false /\
                         truthy (ax_field ax_name e) = false)).
  { unfold minimal_fused.
    destruct (minimal_dom (full_elems_of token_set_ratio dom_nodes ax_flat) [] [])
      as [m seen] eqn:Em.
    intro Hin. apply minimal_ax_In in Hin.
    destruct Hin as [Hin|[ai [ax [_ [-> Hne]]]]].
    - replace m with (fst (minimal_dom
                (full_elems_of token_set_ratio dom_nodes ax_flat) [] []))
        in Hin by (rewrite Em; reflexivity).
      apply minimal_dom_In in Hin. destruct Hin as [[]|[e [He [Hi ->]]]].
      eexists. split; [reflexivity|]. intro Hs.
      apply substring_empty, str_or_empty, truthy_or_false in Hs.
      exists e. tauto.
    - eexists. split; [reflexivity|]. intro Hs.
      apply substring_empty in Hs. apply nonempty_true in Hne. contradiction. }
  unfold elements_min_of in Hl.
  destruct (is_nil (minimal_fused token_set_ratio dom_nodes ax_flat) &&
            negb (is_nil (full_elems_of token_set_ratio dom_nodes ax_flat)));
    [|inversion Hl; subst; exact (Hfused Hr)].
  destruct (sorted_cands _) as [sc|] eqn:Es; [|discriminate].
  injection Hl as Hl. rewrite <- Hl in Hr. clear Hl.
  apply in_app_or in Hr. destruct Hr as [Hr|Hr]; [exact (Hfused Hr)|].
  apply in_map_iff in Hr. destruct Hr as [c [<- Hc]].
  pose proof (firstn_In 10 sc c Hc) as Hc'.
  apply (sorted_cands_In _ _ _ Es) in Hc'. clear Hc. rename Hc' into Hc.
  apply degraded_cands_In in Hc. destruct Hc as [_ Ht].
  eexists. split; [reflexivity|]. intro Hs.
  apply substring_empty, str_or_empty in Hs. rewrite Hs in Ht. discriminate Ht.
Qed.

Lemma empty_names_come_from_dom_records_witness :
  exists s,
    name (item_of_full (full_of_dom dom_bare_input)) = Some s /\
    (s = "" ->
     exists e, In e (full_elems_of ratio_same [dom_bare_input] []) /\
               _is_interactive e = true /\
               item_of_full (full_of_dom dom_bare_input) = item_of_full e /\
               truthy (fe_name e) = false /\
               truthy (ax_field ax_name e) = false).
Proof.
  apply (empty_names_come_from_dom_records ratio_same [dom_bare_input] []
           [item_of_full (full_of_dom dom_bare_input)]
           (item_of_full (full_of_dom dom_bare_input))).
  - reflexivity.
  - left. reflexivity.
Defined.

Lemma ostr_eqb_eq (a b : option string) : ostr_eqb a b = true <-> a = b.
Proof.
  destruct a as [x|], b as [y|]; simpl;
    try (split; [discriminate|discriminate]); [|tauto].
  rewrite String.eqb_eq. split; [intros ->; reflexivity|intro H; inversion H; auto].
Qed.

Lemma key_eqb_eq (a b : Key) : key_eqb a b = true <-> a = b.
Proof.
  destruct a as [[r1 n1] s1], b as [[r2 n2] s2]. simpl.
  rewrite !andb_true_iff, !ostr_eqb_eq, String.eqb_eq.
  split; [intros [[-> ->] ->]; reflexivity|intro H; inversion H; auto].
Qed.

Lemma seen_mem_false (k : Key) (seen : list Key) :
  seen_mem k seen = false -> ~ In k seen.
Proof.
  unfold seen_mem. intros H Hin.
  assert (existsb (key_eqb k) seen = true) as Ht.
  { apply existsb_exists. exists k. split; [exact Hin|apply key_eqb_eq; reflexivity]. }
  rewrite Ht in H. discriminate H.
Qed.

Lemma keys_recorded_append minimal seen item :
  keys_recorded minimal seen -> seen_mem (key_of item) seen = false ->
  keys_recorded (minimal ++ [item]) (key_of item :: seen).
Proof.
  intros [Hnd Hsub] Hmem. apply seen_mem_false in Hmem. split.
  - rewrite map_app. simpl.
    apply NoDup_rev in Hnd. rewrite <- (rev_involutive (_ ++ _)).
    apply NoDup_rev. rewrite rev_app_distr. simpl.
    constructor; [|exact Hnd].
    intro Hin. apply in_rev in Hin. apply Hmem, Hsub, Hin.
  - intros k Hk. rewrite map_app in Hk. apply in_app_or in Hk.
    destruct Hk as [Hk|[<-|[]]]; [right; apply Hsub, Hk|left; reflexivity].
Qed.

Lemma minimal_dom_keys full : forall m seen,
  keys_recorded m seen ->
  keys_recorded (fst (minimal_dom full m seen)) (snd (minimal_dom full m seen)).
Proof.
  induction full as [|e rest IH]; intros m seen H; cbn [minimal_dom]; [exact H|].
  destruct (negb (_is_interactive e)); [apply IH, H|].
  destruct (seen_mem (key_of (item_of_full e)) seen) eqn:Es; [apply IH, H|].
  apply IH, keys_recorded_append; assumption.
Qed.

Lemma minimal_ax_keys a2d axs : forall m seen,
  keys_recorded m seen ->
  keys_recorded (fst (minimal_ax a2d axs m seen)) (snd (minimal_ax a2d axs m seen)).
Proof.
  induction axs as [|[ai ax] rest IH]; intros m seen H; cbn [minimal_ax];
    [exact H|].
  destruct (existsb _ a2d); [apply IH, H|].
  destruct (negb _ || negb _); [apply IH, H|].
  destruct (negb (mem_str _ AX_FALLBACK_ROLES)); [apply IH, H|].
  destruct (seen_mem (key_of (item_of_ax ai ax)) seen) eqn:Es; [apply IH, H|].
  apply IH, keys_recorded_append; assumption.
Qed.

(** The main loop and the accessibility-only fallback never repeat a key:
    whenever the last-resort branch is not taken, the canonical list has
    pairwise distinct [(role, name, selector_pref)] keys. *)
Lemma fused_records_have_distinct_keys
      (token_set_ratio : string -> string -> float)
      (dom_nodes : list DomNode) (ax_flat : list AxNode) :
  NoDup (map key_of (minimal_fused token_set_ratio dom_nodes ax_flat)).
Proof.
  unfold minimal_fused.
  pose proof (minimal_dom_keys
                (full_elems_of token_set_ratio dom_nodes ax_flat) [] []) as Hd.
  destruct (minimal_dom _ [] []) as [m seen]. simpl in Hd.
  apply (minimal_ax_keys (ax2dom_of token_set_ratio dom_nodes ax_flat)
                         (enumerate ax_flat) m seen).
  apply Hd. split; [constructor|intros k []].
Qed.

(** C5 (the code at the failing input). Two hidden buttons labelled "Close",
    one below the other, and the root of the accessibility tree: no record is
    interactive, the last-resort branch is taken and appends both buttons
    without looking at [seen]; the two records of the canonical list have the
    same key. *)
Theorem degraded_branch_repeats_key :
  exists r1 r2,
    elements_min_of ratio_same dom_two_hidden [ax_root] = Some [r1; r2] /\
    minimal_fused ratio_same dom_two_hidden [ax_root] = [] /\
    uid r1 = "d3" /\ uid r2 = "d4" /\
    key_of r1 = key_of r2 /\
    ~ NoDup (map key_of [r1; r2]).
Proof.
  eexists _, _. split; [reflexivity|].
  repeat split.
  intro H. inversion H as [|? ? Hnin _]. apply Hnin. left. reflexivity.
Qed.

(* ------------------------------------------------------------------ *)
(** * Further properties *)

(** ** Text normaliser *)

Lemma lower_char_space (c : ascii) : is_space (lower_char c) = is_space c.
Proof.
  destruct c as [[] [] [] [] [] [] [] []]; reflexivity.
Qed.

Lemma lower_char_idem (c : ascii) : lower_char (lower_char c) = lower_char c.
Proof.
  destruct c as [[] [] [] [] [] [] [] []]; reflexivity.
Qed.

Lemma lower_char_blank (c : ascii) :
  lower_char c = " "%char <-> c = " "%char.
Proof.
  destruct c as [[] [] [] [] [] [] [] []]; split; intro H;
    try reflexivity; try discriminate H.
Qed.

Lemma lower_idem (s : string) : lower (lower s) = lower s.
Proof.
  induction s as [|c r IH]; simpl; [reflexivity|].
  rewrite lower_char_idem, IH. reflexivity.
Qed.

Lemma collapse_single_spaced (s : string) :
  forall b, single_spaced b (collapse_ws b s) = true.
Proof.
  induction s as [|c r IH]; intro b; simpl; [reflexivity|].
  destruct (is_space c) eqn:E.
  - destruct b; [apply IH|]. simpl. apply IH.
  - simpl. rewrite E. apply IH.
Qed.

Lemma collapse_fixed (s : string) :
  forall b, single_spaced b s = true -> collapse_ws b s = s.
Proof.
  induction s as [|c r IH]; intros b H; simpl in *; [reflexivity|].
  destruct (is_space c).
  - rewrite !andb_true_iff in H. destruct H as [[Hb Hc] Hr].
    apply Ascii.eqb_eq in Hc. subst c.
    destruct b; [discriminate Hb|]. rewrite (IH _ Hr). reflexivity.
  - rewrite (IH _ H). reflexivity.
Qed.

Lemma lstrip_single_spaced (s : string) :
  forall b, single_spaced b s = true -> single_spaced false (lstrip s) = true.
Proof.
  induction s as [|c r IH]; intros b H; simpl in *; [reflexivity|].
  destruct (is_space c) eqn:E.
  - rewrite !andb_true_iff in H. apply (IH true), H.
  - simpl. rewrite E. exact H.
Qed.

Lemma rstrip_single_spaced (s : string) :
  forall b, single_spaced b s = true -> single_spaced b (rstrip s) = true.
Proof.
  induction s as [|c r IH]; intros b H; simpl in *; [reflexivity|].
  destruct (is_space c) eqn:E.
  - rewrite !andb_true_iff in H. destruct H as [[Hb Hc] Hr].
    specialize (IH _ Hr).
    destruct (rstrip r) as [|c' r']; [reflexivity|].
    cbn [single_spaced]. rewrite E, Hb, Hc. exact IH.
  - specialize (IH _ H).
    destruct (rstrip r) as [|c' r']; cbn [single_spaced]; rewrite E;
      [reflexivity|exact IH].
Qed.

Lemma lstrip_no_leading (s : string) : no_leading_space (lstrip s) = true.
Proof.
  induction s as [|c r IH]; simpl; [reflexivity|].
  destruct (is_space c) eqn:E; [exact IH|]. simpl. rewrite E. reflexivity.
Qed.

Lemma rstrip_no_leading (s : string) :
  no_leading_space s = true -> no_leading_space (rstrip s) = true.
Proof.
  destruct s as [|c r]; simpl; [reflexivity|]. intro H.
  apply negb_true_iff in H. rewrite H.
  destruct (rstrip r); simpl; rewrite H; reflexivity.
Qed.

Lemma lstrip_fixed (s : string) : no_leading_space s = true -> lstrip s = s.
Proof.
  destruct s as [|c r]; simpl; [reflexivity|]. intro H.
  apply negb_true_iff in H. rewrite H. reflexivity.
Qed.

Lemma rstrip_cons (c : ascii) (r : string) :
  rstrip (String c r) =
  match rstrip r with
  | EmptyString => if is_space c then EmptyString else String c EmptyString
  | r' => String c r'
  end.
Proof. reflexivity. Qed.

Lemma rstrip_idem (s : string) : rstrip (rstrip s) = rstrip s.
Proof.
  induction s as [|c r IH]; simpl; [reflexivity|].
  destruct (rstrip r) as [|c' r'] eqn:Er.
  - destruct (is_space c) eqn:E; [reflexivity|]. simpl. rewrite E. reflexivity.
  - rewrite rstrip_cons, IH. reflexivity.
Qed.

Lemma lower_collapse (s : string) :
  forall b, collapse_ws b (lower s) = lower (collapse_ws b s).
Proof.
  induction s as [|c r IH]; intro b; simpl; [reflexivity|].
  rewrite lower_char_space. destruct (is_space c).
  - destruct b; simpl; rewrite IH; reflexivity.
  - simpl. rewrite IH. reflexivity.
Qed.

Lemma lower_lstrip (s : string) : lstrip (lower s) = lower (lstrip s).
Proof.
  induction s as [|c r IH]; simpl; [reflexivity|].
  rewrite lower_char_space. destruct (is_space c); [exact IH|reflexivity].
Qed.

Lemma lower_rstrip (s : string) : rstrip (lower s) = lower (rstrip s).
Proof.
  induction s as [|c r IH]; simpl; [reflexivity|].
  rewrite lower_char_space, IH.
  destruct (rstrip r) as [|c' r']; simpl; [|reflexivity].
  destruct (is_space c); reflexivity.
Qed.

(** X1. Normalising a normalised name changes nothing:
    [_norm(_norm(s)) = _norm(s)] for every name, missing ones included. *)
Theorem norm_idempotent (s : option string) :
  _norm (Some (_norm s)) = _norm s.
Proof.
  unfold _norm.
  set (u := strip (collapse_ws false (str_or s ""))).
  assert (Hss : single_spaced false u = true).
  { unfold u, strip. apply rstrip_single_spaced.
    apply (lstrip_single_spaced _ false), collapse_single_spaced. }
  assert (Hnl : no_leading_space u = true).
  { unfold u, strip. apply rstrip_no_leading, lstrip_no_leading. }
  assert (Hstr : str_or (Some (lower u)) "" = lower u).
  { simpl. destruct (String.eqb (lower u) "") eqn:E; [|reflexivity].
    apply String.eqb_eq in E. symmetry. exact E. }
  rewrite Hstr, lower_collapse, (collapse_fixed _ _ Hss).
  unfold strip at 1. rewrite lower_lstrip, lower_rstrip, (lstrip_fixed _ Hnl).
  unfold u at 1, strip. rewrite rstrip_idem. fold (strip (collapse_ws false (str_or s ""))).
  fold u. apply lower_idem.
Qed.

(** ** Text score and blocklist *)

Lemma prefix_refl (s : string) : String.prefix s s = true.
Proof.
  induction s as [|c r IH]; simpl; [reflexivity|].
  destruct (ascii_dec c c) as [_|N]; [exact IH|contradiction].
Qed.

Lemma prefix_contains (a b : string) :
  String.prefix a b = true -> contains a b = true.
Proof.
  intro H. destruct b; simpl in *; rewrite H; reflexivity.
Qed.

Lemma contains_empty_hay (a : string) : contains a "" = true -> a = "".
Proof.
  destruct a; simpl; [reflexivity|discriminate].
Qed.

(** X2. The text score is 0, 0.6, 0.85 or 1; it is positive exactly when the
    normalised query is a non-empty substring of the normalised text, and it
    is 1 exactly when the two normalised strings are equal and non-empty. *)
Theorem score_text_positive_iff_substring (q t : string) :
  (_score_text q t = 0%float \/ _score_text q t = 0.6%float \/
   _score_text q t = 0.85%float \/ _score_text q t = 1%float) /\
  ((0 <? _score_text q t)%float = true <->
   _norm (Some q) <> "" /\ contains (_norm (Some q)) (_norm (Some t)) = true) /\
  (_score_text q t = 1%float <->
   _norm (Some q) <> "" /\ _norm (Some q) = _norm (Some t)).
Proof.
  assert (N0 : 0%float <> 1%float).
  { intro H. apply (f_equal (fun x => (x =? 1)%float)) in H. discriminate H. }
  assert (N6 : 0.6%float <> 1%float).
  { intro H. apply (f_equal (fun x => (x =? 1)%float)) in H. discriminate H. }
  assert (N8 : 0.85%float <> 1%float).
  { intro H. apply (f_equal (fun x => (x =? 1)%float)) in H. discriminate H. }
  unfold _score_text, nonempty.
  set (qn := _norm (Some q)). set (tn := _norm (Some t)).
  destruct (String.eqb qn "") eqn:Eq; simpl.
  { apply String.eqb_eq in Eq. split; [auto|]. split; split;
      try (intro H; discriminate H); try (intros [H _]; contradiction);
      try (intro H; contradiction). }
  apply String.eqb_neq in Eq.
  destruct (String.eqb tn "") eqn:Et; simpl.
  { apply String.eqb_eq in Et. split; [auto|]. split; split;
      try (intro H; discriminate H); try (intro H; contradiction).
    - intros [_ H]. rewrite Et in H. apply contains_empty_hay in H. contradiction.
    - intros [_ H]. rewrite Et in H. contradiction. }
  destruct (String.eqb qn tn) eqn:E.
  { apply String.eqb_eq in E. split; [auto|]. split; split; auto; intros _.
    split; [exact Eq|]. rewrite <- E. apply prefix_contains, prefix_refl. }
  apply String.eqb_neq in E.
  destruct (String.prefix qn tn) eqn:Ep.
  { split; [auto|]. split; split; try (intro H; contradiction).
    - intros _. split; [exact Eq|apply prefix_contains, Ep].
    - intros _. reflexivity.
    - intros [_ H]. contradiction. }
  destruct (contains qn tn) eqn:Ec.
  { split; [auto|]. split; split; try (intro H; contradiction).
    - intros _. split; [exact Eq|reflexivity].
    - intros _. reflexivity.
    - intros [_ H]. contradiction. }
  split; [auto|]. split; split; try (intro H; discriminate H);
    try (intro H; contradiction).
  - intros [_ H]. discriminate H.
  - intros [_ H]. contradiction.
Qed.

Lemma is_blocked_app (t : option string) (l1 l2 : list string) :
  _is_blocked t (l1 ++ l2) = _is_blocked t l1 || _is_blocked t l2.
Proof.
  induction l1 as [|bad rest IH]; simpl; [reflexivity|].
  destruct (nonempty (_norm (Some bad)) && contains (_norm (Some bad)) (_norm t));
    [reflexivity|exact IH].
Qed.

Lemma is_blocked_str_or (n : option string) (l : list string) :
  _is_blocked (Some (str_or n "")) l = _is_blocked n l.
Proof.
  induction l as [|bad rest IH]; simpl; [reflexivity|].
  rewrite norm_str_or, IH. reflexivity.
Qed.

(** X3. A text is blocked exactly when the normal form of some entry of the
    list is non-empty and occurs in the normal form of the text: entries that
    are empty or blank never block, and adding entries never unblocks. *)
Theorem is_blocked_iff_some_entry_occurs (t : option string) (l : list string) :
  (_is_blocked t l = true <->
   exists bad, In bad l /\ _norm (Some bad) <> "" /\
               contains (_norm (Some bad)) (_norm t) = true) /\
  (forall l', _is_blocked t l = true -> _is_blocked t (l ++ l') = true) /\
  (forall l', _is_blocked t l = true -> _is_blocked t (l' ++ l) = true).
Proof.
  split; [|split; intros l' H; rewrite is_blocked_app, H;
                  [reflexivity|apply orb_true_r]].
  induction l as [|bad rest IH]; simpl.
  - split; [discriminate|]. intros [bad [[] _]].
  - destruct (nonempty (_norm (Some bad))) eqn:En; simpl.
    + destruct (contains (_norm (Some bad)) (_norm t)) eqn:Ec.
      * split; [|reflexivity]. intros _. exists bad.
        split; [left; reflexivity|]. split; [apply nonempty_true, En|exact Ec].
      * rewrite IH. split.
        -- intros [b [Hin Hb]]. exists b. split; [right; exact Hin|exact Hb].
        -- intros [b [[<-|Hin] [Hn Hc]]]; [rewrite Ec in Hc; discriminate Hc|].
           exists b. auto.
    + rewrite IH. split.
      * intros [b [Hin Hb]]. exists b. split; [right; exact Hin|exact Hb].
      * intros [b [[<-|Hin] [Hn Hc]]].
        -- unfold nonempty in En. apply negb_false_iff, String.eqb_eq in En.
           contradiction.
        -- exists b. auto.
Qed.


(** ** What the resolver returns *)

(** X4. When the match names a role, the filter is strict: every returned
    element has that role, after normalisation of both; an element of another
    role is never returned, whatever its name. *)
Theorem ranked_elements_have_wanted_role (hypot : float -> float -> float)
        (els : list Element) (m : MatchSpec) (lt : option Element)
        (e : Element) :
  truthy (m_role m) = true ->
  In e (_rank_candidates hypot els m lt) ->
  _norm (role e) = _norm (m_role m).
Proof.
  intros Hr Hin. apply rank_In in Hin. destruct Hin as [_ He].
  unfold eligible in He. rewrite !andb_true_iff in He.
  destruct He as [[[He _] _] _]. rewrite Hr in He. simpl in He.
  apply negb_true_iff, negb_false_iff, String.eqb_eq in He.
  symmetry. exact He.
Qed.

Lemma ranked_elements_have_wanted_role_witness :
  _norm (role el_continue) = _norm (m_role (mkMatch None (Some " Button") None None false)).
Proof.
  apply (ranked_elements_have_wanted_role hypot_sqrt [el_home_link; el_continue]
           (mkMatch None (Some " Button") None None false) None el_continue).
  - reflexivity.
  - left. reflexivity.
Defined.

(** X5. The resolver never returns an element without a name, an element
    whose name contains an entry of the default blocklist or of the match's
    own [not_contains], or an element whose text score is not positive; and
    every element it returns belongs to the snapshot. *)
Theorem ranked_elements_are_named_and_unblocked (hypot : float -> float -> float)
        (els : list Element) (m : MatchSpec) (lt : option Element)
        (e : Element) :
  In e (_rank_candidates hypot els m lt) ->
  In e els /\
  (exists n, name e = Some n /\ n <> "") /\
  _is_blocked (name e) _NEG_DEFAULT = false /\
  (forall l, m_not_contains m = Some l -> _is_blocked (name e) l = false) /\
  (0 <? s_text_of m e)%float = true.
Proof.
  intro Hin. apply rank_In in Hin. destruct Hin as [Hel He].
  unfold eligible in He. rewrite !andb_true_iff in He.
  destruct He as [[[_ Hn] Hb] Hs].
  split; [exact Hel|]. split; [|split; [|split]].
  - destruct (name e) as [n|]; [|discriminate Hn].
    exists n. split; [reflexivity|]. simpl in Hn.
    destruct (String.eqb n "") eqn:E; [discriminate Hn|].
    apply String.eqb_neq. exact E.
  - apply negb_true_iff in Hb. rewrite is_blocked_str_or, is_blocked_app in Hb.
    apply orb_false_iff in Hb. apply Hb.
  - intros l Hl. apply negb_true_iff in Hb.
    rewrite is_blocked_str_or, is_blocked_app, Hl in Hb.
    apply orb_false_iff in Hb. apply Hb.
  - rewrite s_text_of_pos, negb_involutive in Hs. exact Hs.
Qed.

Lemma ranked_elements_are_named_and_unblocked_witness :
  In el_checkout [el_google; el_guest; el_checkout] /\
  (exists n, name el_checkout = Some n /\ n <> "") /\
  _is_blocked (name el_checkout) _NEG_DEFAULT = false /\
  (forall l, m_not_contains match_continue = Some l ->
             _is_blocked (name el_checkout) l = false) /\
  (0 <? s_text_of match_continue el_checkout)%float = true.
Proof.
  apply (ranked_elements_are_named_and_unblocked hypot_sqrt
           [el_google; el_guest; el_checkout] match_continue None el_checkout).
  left. reflexivity.
Defined.

(** X6. Role preference: among eligible elements with the same normalised
    name, and without a last target, a text box is ranked before every element
    of another role, a button before everything but text boxes, and a link
    before every element whose role is none of the three. *)
Theorem preferred_role_ranks_first (hypot : float -> float -> float) (els : list Element)
        (m : MatchSpec) (a b : Element) :
  In a els -> In b els -> eligible m a = true -> eligible m b = true ->
  _norm (name a) = _norm (name b) ->
  (_norm (role a) = "textbox" /\ _norm (role b) <> "textbox") \/
  (_norm (role a) = "button" /\ _norm (role b) <> "textbox" /\
   _norm (role b) <> "button") \/
  (_norm (role a) = "link" /\ _norm (role b) <> "textbox" /\
   _norm (role b) <> "button" /\ _norm (role b) <> "link") ->
  let r := _rank_candidates hypot els m None in
  In a r /\ In b r /\
  forall l1 l2, r = l1 ++ b :: l2 -> In a l1 /\ ~ In a l2.
Proof.
  intros Ha Hb Ea Eb Hn Hroles.
  apply higher_score_ranks_first; try assumption.
  assert (Hpos : (s_text_of m b <=? 0)%float = false).
  { apply eligible_spec in Eb. apply Eb. }
  unfold total_score. rewrite (s_text_of_norm m a b Hn). simpl.
  destruct (s_role_of_values a) as [[Ra Sa]|[[Ra Sa]|[[Ra Sa]|[Ra1 [Ra2 [Ra3 Sa]]]]]];
    destruct (s_role_of_values b) as [[Rb Sb]|[[Rb Sb]|[[Rb Sb]|[Rb1 [Rb2 [Rb3 Sb]]]]]];
    rewrite Sa, Sb;
    destruct Hroles as [[H1 H2]|[[H1 [H2 H3]]|[H1 [H2 [H3 H4]]]]];
    try congruence;
    destruct (s_text_of_values m b) as [T|[T|[T|[T|T]]]];
    rewrite T in Hpos |- *; try discriminate Hpos; reflexivity.
Qed.

Lemma preferred_role_ranks_first_witness :
  let r := _rank_candidates hypot_sqrt [el_next_button; el_next_box]
                            match_next None in
  In el_next_box r /\ In el_next_button r /\
  forall l1 l2, r = l1 ++ el_next_button :: l2 ->
                In el_next_box l1 /\ ~ In el_next_box l2.
Proof.
  apply (preferred_role_ranks_first hypot_sqrt [el_next_button; el_next_box]
           match_next el_next_box el_next_button).
  - right; left; reflexivity.
  - left; reflexivity.
  - reflexivity.
  - reflexivity.
  - reflexivity.
  - left. split; [reflexivity|discriminate].
Defined.

(** ** Selectors and look-ups of the executor *)

Lemma truthy_spec (x : option string) :
  truthy x = true <-> exists s, x = Some s /\ s <> "".
Proof.
  destruct x as [s|]; simpl.
  - rewrite negb_true_iff. split.
    + intro H. exists s. split; [reflexivity|]. apply String.eqb_neq, H.
    + intros [s' [E H]]. inversion E; subst. apply String.eqb_neq, H.
  - split; [discriminate|]. intros [s [E _]]. discriminate E.
Qed.

(** X7. The selector derived from an element is the precomputed
    [selector_pref] whenever that one is non-empty, whatever the other fields
    are; it is never the empty string; and there is none exactly when
    [selector_pref] is empty or missing, the role or the name is empty or
    missing, and [selector] is empty or missing. *)
Theorem resolved_selector_never_empty (el : Element) :
  (truthy (selector_pref el) = true ->
   _resolve_target_selector el = selector_pref el) /\
  (forall s, _resolve_target_selector el = Some s -> s <> "") /\
  (_resolve_target_selector el = None <->
   truthy (selector_pref el) = false /\
   (truthy (role el) = false \/ truthy (name el) = false) /\
   truthy (selector el) = false).
Proof.
  unfold _resolve_target_selector.
  destruct (truthy (selector_pref el)) eqn:Ep.
  { apply truthy_spec in Ep. destruct Ep as [s [Es Hs]]. rewrite Es.
    split; [reflexivity|]. split.
    - intros s' H. inversion H; subst. exact Hs.
    - split; [discriminate|]. intros [H _]. discriminate H. }
  split; [discriminate|].
  destruct (truthy (role el) && truthy (name el)) eqn:Ern.
  { split; [intros s H; inversion H; discriminate|].
    split; [discriminate|]. intros [_ [[H|H] _]];
      apply andb_true_iff in Ern; destruct Ern as [E1 E2]; congruence. }
  apply andb_false_iff in Ern.
  destruct (truthy (selector el)) eqn:Es.
  { apply truthy_spec in Es. destruct Es as [s [Es Hs]]. rewrite Es.
    split; [intros s' H; inversion H; subst; exact Hs|].
    split; [discriminate|]. intros [_ [_ H]]. discriminate H. }
  split; [discriminate|]. split; auto.
Qed.

(** X8. The look-up by uid returns the first record of the snapshot that
    carries the uid, so a repeated uid always resolves to its first holder;
    it finds nothing exactly when no record carries the uid. *)
Theorem find_by_uid_returns_first (els : list Element) (u : string) :
  match _find_element_by_uid els u with
  | Some el =>
      exists l1 l2, els = l1 ++ el :: l2 /\ uid el = u /\
                    forall x, In x l1 -> uid x <> u
  | None => forall x, In x els -> uid x <> u
  end.
Proof.
  induction els as [|e rest IH]; simpl; [intros x []|].
  destruct (String.eqb (uid e) u) eqn:E.
  - apply String.eqb_eq in E. exists [], rest. repeat split; [exact E|intros x []].
  - apply String.eqb_neq in E.
    destruct (_find_element_by_uid rest u) as [el|].
    + destruct IH as [l1 [l2 [-> [Hu Hl1]]]].
      exists (e :: l1), l2. repeat split; [exact Hu|].
      intros x [<-|Hx]; [exact E|apply Hl1, Hx].
    + intros x [<-|Hx]; [exact E|apply IH, Hx].
Qed.

Lemma guard_true (s t : string) :
  negb (nonempty s && negb (String.eqb t s)) = true <-> s = "" \/ t = s.
Proof.
  unfold nonempty. destruct (String.eqb s "") eqn:E; simpl.
  - apply String.eqb_eq in E. tauto.
  - apply String.eqb_neq in E. rewrite negb_involutive, String.eqb_eq. tauto.
Qed.

Lemma guard_contains_true (s t : string) :
  negb (nonempty s && negb (contains s t)) = true <->
  s = "" \/ contains s t = true.
Proof.
  unfold nonempty. destruct (String.eqb s "") eqn:E; simpl.
  - apply String.eqb_eq in E. tauto.
  - apply String.eqb_neq in E. rewrite negb_involutive. tauto.
Qed.

(** X9. The legacy look-up by role and name returns an element of the
    snapshot whose role matches and whose normalised name contains the wanted
    one; if some element matches the name exactly, the first such element is
    returned, even when an element that merely contains the name comes
    earlier; it returns nothing exactly when no element passes the substring
    test.  With an empty role and an empty name it returns the first element
    of the snapshot. *)
Theorem find_by_match_exact_first (els : list Element)
        (role_ name_ : option string) :
  let role_n := _norm role_ in
  let name_n := _norm name_ in
  (forall el, _find_by_match els role_ name_ = Some el ->
     In el els /\ role_matches role_n el /\ name_contains name_n el) /\
  (forall x, In x els -> role_matches role_n x -> name_equals name_n x ->
     exists el l1 l2,
       _find_by_match els role_ name_ = Some el /\
       els = l1 ++ el :: l2 /\
       role_matches role_n el /\ name_equals name_n el /\
       forall y, In y l1 -> ~ (role_matches role_n y /\ name_equals name_n y)) /\
  (_find_by_match els role_ name_ = None <->
   forall x, In x els -> ~ (role_matches role_n x /\ name_contains name_n x)) /\
  (role_n = "" -> name_n = "" -> _find_by_match els role_ name_ = hd_error els).
Proof.
  intros role_n name_n. unfold _find_by_match. fold role_n name_n.
  set (exact := fun el => negb (nonempty role_n &&
                                negb (String.eqb (_norm (role el)) role_n)) &&
                          negb (nonempty name_n &&
                                negb (String.eqb (_norm (name el)) name_n))).
  set (sub := fun el => negb (nonempty role_n &&
                              negb (String.eqb (_norm (role el)) role_n)) &&
                        negb (nonempty name_n &&
                              negb (contains name_n (_norm (name el))))).
  assert (Hexact : forall el, exact el = true <->
                     role_matches role_n el /\ name_equals name_n el).
  { intro el. unfold exact, role_matches, name_equals.
    rewrite andb_true_iff, !guard_true. tauto. }
  assert (Hsub : forall el, sub el = true <->
                   role_matches role_n el /\ name_contains name_n el).
  { intro el. unfold sub, role_matches, name_contains.
    rewrite andb_true_iff, guard_true, guard_contains_true. tauto. }
  assert (Himp : forall el, exact el = true -> sub el = true).
  { intros el H. apply Hexact in H. apply Hsub. destruct H as [Hr [Hn|Hn]].
    - split; [exact Hr|left; exact Hn].
    - split; [exact Hr|]. right. rewrite Hn.
      apply prefix_contains, prefix_refl. }
  assert (Hfirst : forall (f : Element -> bool) l x, In x l -> f x = true ->
            exists el l1 l2, find f l = Some el /\ l = l1 ++ el :: l2 /\
                             f el = true /\ forall y, In y l1 -> f y = false).
  { intros f l. induction l as [|e r IH]; intros x Hin Hx; [destruct Hin|].
    simpl. destruct (f e) eqn:Ee.
    - exists e, [], r. repeat split; [exact Ee|intros y []].
    - destruct Hin as [->|Hin]; [congruence|].
      destruct (IH x Hin Hx) as [el [l1 [l2 [Hf [-> [Hel Hl1]]]]]].
      exists el, (e :: l1), l2. repeat split; auto.
      intros y [<-|Hy]; [exact Ee|apply Hl1, Hy]. }
  split; [|split; [|split]].
  - intros el H. destruct (find exact els) as [e|] eqn:Ef.
    + inversion H; subst. apply find_some in Ef. destruct Ef as [Hin He].
      split; [exact Hin|]. apply Hsub, Himp, He.
    + apply find_some in H. destruct H as [Hin He].
      split; [exact Hin|]. apply Hsub, He.
  - intros x Hin Hr Hn.
    destruct (Hfirst exact els x Hin (proj2 (Hexact x) (conj Hr Hn)))
      as [el [l1 [l2 [Hf [Hels [Hel Hl1]]]]]].
    exists el, l1, l2. rewrite Hf. apply Hexact in Hel.
    repeat split; try tauto.
    intros y Hy Hc. apply Hexact in Hc. rewrite (Hl1 y Hy) in Hc. discriminate Hc.
  - destruct (find exact els) as [e|] eqn:Ef.
    + split; [discriminate|]. intro H. apply find_some in Ef.
      destruct Ef as [Hin He]. exfalso. apply (H e Hin). apply Hsub, Himp, He.
    + split.
      * intros H x Hin Hc. apply Hsub in Hc.
        rewrite (find_none _ _ H x Hin) in Hc. discriminate Hc.
      * intro H. destruct (find sub els) as [e|] eqn:Es; [|reflexivity].
        apply find_some in Es. destruct Es as [Hin He].
        exfalso. apply (H e Hin). apply Hsub, He.
  - intros Hr Hn. destruct els as [|e r]; [reflexivity|].
    simpl. assert (exact e = true) as ->; [|reflexivity].
    apply Hexact. split; left; assumption.
Qed.


(** ** Plans and steps *)

Section PlanFacts.
Variable hypot : float -> float -> float.
Variable Page : Type.
Variable page_is_visible : Page -> string -> nat -> bool * Page.
Variable page_click : Page -> string -> bool * Page.
Variable page_type_text : Page -> string -> string -> bool * Page.
Variable page_wait_for_url : Page -> string -> bool * Page.
Variable on_after_action : option (string -> AfterArg -> Page -> Page).

Local Abbreviation exec := (exec_step hypot Page page_is_visible page_click
                                      page_type_text page_wait_for_url
                                      on_after_action).
Local Abbreviation run_list := (run_steps hypot Page page_is_visible page_click
                                          page_type_text page_wait_for_url
                                          on_after_action).
Local Abbreviation run := (run_plan_stepwise hypot Page page_is_visible
                                             page_click page_type_text
                                             page_wait_for_url on_after_action).

Lemma exec_normalized_step els vars st last w :
  exec els vars (_normalize_step st) last w = exec els vars st last w.
Proof.
  unfold _normalize_step.
  destruct (String.eqb (lower (s_action st)) "type"); [|reflexivity].
  destruct (s_text st) as [t|] eqn:Et; [reflexivity|].
  destruct (s_value st) as [v|] eqn:Ev; [|reflexivity].
  unfold exec_step, resolve_target. simpl. rewrite Et, Ev. reflexivity.
Qed.

Lemma run_normalized_steps els vars l : forall last w,
  run_list els vars (map _normalize_step l) last w = run_list els vars l last w.
Proof.
  induction l as [|st rest IH]; intros last w; simpl; [reflexivity|].
  rewrite exec_normalized_step.
  destruct (exec els vars st last w) as [[last'| |msg] w']; auto.
Qed.

(** X10. The planner's normalisation, which moves [value] into [text] in
    the typing steps, changes nothing for the executor when the decoded
    answer holds a list of steps: the normalised plan and the decoded list
    give the same result, the same page and the same trace, on every snapshot
    and variable map; so do the empty plan returned for an answer without
    steps and that answer.  For a value under [steps] that is not a list the
    planner returns the empty plan. *)
Theorem normalized_plan_runs_alike (l : list Step) (els : list Element)
        (vars : list (string * string)) (w : World Page) :
  run els (Some (_normalize_plan (RawSteps l))) vars w
  = run els (Some (mkPlan (Some l))) vars w /\
  run els (Some (_normalize_plan RawNoSteps)) vars w
  = run els (Some (mkPlan None)) vars w /\
  _normalize_plan RawOther = mkPlan (Some []).
Proof.
  split; [|split; reflexivity].
  unfold run_plan_stepwise, _normalize_plan. simpl.
  apply run_normalized_steps.
Qed.

(** X11. Every step but [end] and the step without action needs a target:
    when the step has no [target] and not both a [role] and a [name] of its
    own, it fails with the page untouched, whatever its action is.  So a
    [wait_url_contains] step that only carries its text never waits. *)
Theorem step_without_target_fails (els : list Element)
        (vars : list (string * string)) (st : Step) (rest : list Step)
        (last : option Element) (w : World Page) :
  lower (strip (s_action st)) <> "" ->
  lower (strip (s_action st)) <> "end" ->
  s_target st = None \/ s_target st = Some empty_target ->
  truthy (s_name st) && truthy (s_role st) = false ->
  exec els vars st last w = (ReturnFalse "missing target in step", w) /\
  run_list els vars (st :: rest) last w = (false, w).
Proof.
  intros Hne Hend Ht Hnr.
  assert (Hres : resolve_target hypot els st last = Raised "missing target in step").
  { unfold resolve_target. destruct Ht as [-> | ->]; simpl; rewrite Hnr; reflexivity. }
  assert (Hexec : exec els vars st last w = (ReturnFalse "missing target in step", w)).
  { unfold exec_step. unfold nonempty.
    apply String.eqb_neq in Hne, Hend. rewrite Hne, Hend, Hres. reflexivity. }
  split; [exact Hexec|]. simpl. rewrite Hexec. reflexivity.
Qed.
End PlanFacts.

Lemma step_without_target_fails_witness :
  ready_step [el_continue] step_wait_editor None world0
  = (ReturnFalse "missing target in step", world0) /\
  run_steps hypot_sqrt unit ready_visible ready_click ready_type ready_wait
            None [el_continue] [] [step_wait_editor] None world0
  = (false, world0).
Proof.
  apply (step_without_target_fails hypot_sqrt unit ready_visible ready_click
           ready_type ready_wait None [el_continue] [] step_wait_editor []
           None world0).
  - discriminate.
  - discriminate.
  - left. reflexivity.
  - reflexivity.
Defined.



(** ** Every action follows a visibility test *)

Lemma guarded_snoc_idle (t : list Event) (e : Event) : forall prev,
  guarded prev t = true -> acts_on e = None -> guarded prev (t ++ [e]) = true.
Proof.
  induction t as [|x r IH]; intros prev H He; simpl in *.
  - rewrite He. reflexivity.
  - apply andb_true_iff in H. destruct H as [H1 H2].
    rewrite H1, (IH _ H2 He). reflexivity.
Qed.

Lemma guarded_snoc_act (t : list Event) (s : string) (tm : nat) (e : Event) :
  forall prev,
  guarded prev (t ++ [EvVisible s tm]) = true -> acts_on e = Some s ->
  guarded prev ((t ++ [EvVisible s tm]) ++ [e]) = true.
Proof.
  induction t as [|x r IH]; intros prev H He; simpl in *.
  - rewrite He. simpl. rewrite String.eqb_refl. reflexivity.
  - apply andb_true_iff in H. destruct H as [H1 H2].
    rewrite H1, (IH _ H2 He). reflexivity.
Qed.

Section GuardFacts.
Variable hypot : float -> float -> float.
Variable Page : Type.
Variable page_is_visible : Page -> string -> nat -> bool * Page.
Variable page_click : Page -> string -> bool * Page.
Variable page_type_text : Page -> string -> string -> bool * Page.
Variable page_wait_for_url : Page -> string -> bool * Page.
Variable on_after_action : option (string -> AfterArg -> Page -> Page).

Local Abbreviation visible := (_is_visible Page page_is_visible).
Local Abbreviation click := (_click Page page_click).
Local Abbreviation ok t := (guarded None t = true).

Lemma visible_trace sel tm w b w1 :
  visible sel tm w = (b, w1) ->
  match sel with
  | Some s => w_trace w1 = w_trace w ++ [EvVisible s tm]
  | None => b = false /\ w1 = w
  end.
Proof.
  unfold _is_visible. destruct sel as [s|].
  - destruct (page_is_visible (w_page w) s tm). intro H. inversion H. reflexivity.
  - intro H. inversion H. auto.
Qed.

Lemma visible_ok sel tm w b w1 :
  visible sel tm w = (b, w1) -> ok (w_trace w) -> ok (w_trace w1).
Proof.
  intros H Hok. apply visible_trace in H. destruct sel as [s|].
  - rewrite H. apply guarded_snoc_idle; [exact Hok|reflexivity].
  - destruct H as [_ ->]. exact Hok.
Qed.

(** A click made right after a successful visibility test of the same
    selector. *)
Lemma visible_click_trace sel tm w w1 c w2 :
  visible sel tm w = (true, w1) -> click sel w1 = (c, w2) ->
  exists s, sel = Some s /\
            w_trace w2 = (w_trace w ++ [EvVisible s tm]) ++ [EvClick s].
Proof.
  intros Hv Hc. pose proof (visible_trace _ _ _ _ _ Hv) as Ht.
  destruct sel as [s|]; [|destruct Ht as [Hf _]; discriminate Hf].
  unfold _click in Hc. destruct (page_click (w_page w1) s) as [c' p].
  inversion Hc; subst. simpl. rewrite Ht.
  exists s. split; reflexivity.
Qed.

Lemma visible_click_ok sel tm w w1 c w2 :
  visible sel tm w = (true, w1) -> click sel w1 = (c, w2) ->
  ok (w_trace w) -> ok (w_trace w2).
Proof.
  intros Hv Hc Hok.
  destruct (visible_click_trace _ _ _ _ _ _ Hv Hc) as [s [_ ->]].
  apply guarded_snoc_act; [|reflexivity].
  apply guarded_snoc_idle; [exact Hok|reflexivity].
Qed.

Lemma after_ok a tgt w :
  ok (w_trace w) ->
  ok (w_trace (_after Page on_after_action a tgt w)).
Proof.
  intro H. unfold _after. destruct on_after_action; [|exact H].
  simpl. apply guarded_snoc_idle; [exact H|reflexivity].
Qed.

Lemma fallback_post_step (w w1 : World Page) (r : bool * World Page) :
  (ok (w_trace w) -> ok (w_trace w1)) -> fallback_post w1 r -> fallback_post w r.
Proof.
  intros H [H1 H2]. split; [intro Hw; apply H1, H, Hw|exact H2].
Qed.

Lemma nav_opener_loop_post els home : forall w,
  fallback_post w (nav_opener_loop Page page_is_visible page_click els home w).
Proof.
  induction els as [|el rest IH]; intros w; cbn [nav_opener_loop].
  - split; [auto|discriminate].
  - destruct (negb (String.eqb (_norm (role el)) "button")); [apply IH|].
    destruct (name_in _ _NAV_OPENER_NAMES); [|apply IH].
    destruct (truthy (_resolve_target_selector el)); [|apply IH].
    destruct (visible (_resolve_target_selector el) 1500 w) as [v w1] eqn:Ev.
    destruct v;
      [|apply (fallback_post_step w w1);
        [exact (visible_ok _ _ _ _ _ Ev)|apply IH]].
    destruct (click (_resolve_target_selector el) w1) as [c w2] eqn:Ec.
    pose proof (visible_click_ok _ _ _ _ _ _ Ev Ec) as H2.
    destruct c; [|apply (fallback_post_step w w2); [exact H2|apply IH]].
    destruct (visible home 2000 w2) as [v2 w3] eqn:Ev2.
    destruct v2;
      [|apply (fallback_post_step w w3);
        [intro H; exact (visible_ok _ _ _ _ _ Ev2 (H2 H))|apply IH]].
    destruct (click home w3) as [c2 w4] eqn:Ec2.
    pose proof (visible_click_ok _ _ _ _ _ _ Ev2 Ec2) as H4.
    destruct c2; [|apply (fallback_post_step w w4); [auto|apply IH]].
    split; [simpl; auto|]. intros _. simpl.
    destruct (visible_click_trace _ _ _ _ _ _ Ev2 Ec2) as [s [_ Ht]].
    exists (w_trace w2), s. exact Ht.
Qed.

Lemma click_first_visible_post accept els : forall w,
  fallback_post w (click_first_visible Page page_is_visible page_click
                                       accept els w).
Proof.
  induction els as [|el rest IH]; intros w; cbn [click_first_visible].
  - split; [auto|discriminate].
  - destruct (accept el); [|apply IH].
    destruct (truthy (_resolve_target_selector el)); [|apply IH].
    destruct (visible (_resolve_target_selector el) 2000 w) as [v w1] eqn:Ev.
    destruct v;
      [|apply (fallback_post_step w w1);
        [exact (visible_ok _ _ _ _ _ Ev)|apply IH]].
    destruct (click (_resolve_target_selector el) w1) as [c w2] eqn:Ec.
    pose proof (visible_click_ok _ _ _ _ _ _ Ev Ec) as H2.
    destruct c; [|apply (fallback_post_step w w2); [exact H2|apply IH]].
    split; [simpl; exact H2|]. intros _. simpl.
    destruct (visible_click_trace _ _ _ _ _ _ Ev Ec) as [s [_ Ht]].
    exists (w_trace w), s. exact Ht.
Qed.

Lemma home_fallback_post els home w :
  fallback_post w (_try_open_nav_and_retry_home Page page_is_visible page_click
                                                els home w).
Proof.
  unfold _try_open_nav_and_retry_home.
  pose proof (nav_opener_loop_post els home w) as H1.
  destruct (nav_opener_loop Page page_is_visible page_click els home w)
    as [ok1 w1].
  destruct ok1; [exact H1|].
  pose proof (click_first_visible_post is_logo els w1) as H2.
  destruct (click_first_visible Page page_is_visible page_click is_logo els w1)
    as [ok2 w2].
  destruct ok2.
  - apply (fallback_post_step w w1); [exact (proj1 H1)|exact H2].
  - apply (fallback_post_step w w2);
      [intro H; exact (proj1 H2 (proj1 H1 H))|].
    apply click_first_visible_post.
Qed.

(** X12. The Home fallback reports success only when the last thing it did
    is a click made right after a visibility test, with the timeout of 2000
    ms, of the selector it clicks; on a snapshot without elements it fails
    and leaves the page untouched. *)
Theorem home_fallback_succeeds_by_click (els : list Element)
        (home : option string) (w w' : World Page) :
  _try_open_nav_and_retry_home Page page_is_visible page_click els home w
  = (true, w') ->
  (exists t s, w_trace w' = (t ++ [EvVisible s 2000]) ++ [EvClick s]) /\
  _try_open_nav_and_retry_home Page page_is_visible page_click [] home w
  = (false, w).
Proof.
  intro H. split; [|reflexivity].
  pose proof (proj2 (home_fallback_post els home w)) as Hp.
  rewrite H in Hp. exact (Hp eq_refl).
Qed.

Local Abbreviation exec := (exec_step hypot Page page_is_visible page_click
                                      page_type_text page_wait_for_url
                                      on_after_action).

Lemma exec_step_ok els vars st last w :
  ok (w_trace w) -> ok (w_trace (snd (exec els vars st last w))).
Proof.
  intro Hok. unfold exec_step.
  destruct (negb (nonempty (lower (strip (s_action st))))); [exact Hok|].
  destruct (String.eqb (lower (strip (s_action st))) "end"); [exact Hok|].
  destruct (resolve_target hypot els st last) as [chosen sel|msg]; [|exact Hok].
  destruct (negb (truthy sel)); [exact Hok|].
  destruct (String.eqb (lower (strip (s_action st))) "type").
  { destruct (visible sel 2000 w) as [v w1] eqn:Ev.
    pose proof (visible_trace _ _ _ _ _ Ev) as Ht.
    pose proof (visible_ok _ _ _ _ _ Ev Hok) as Hok1.
    destruct v; [|exact Hok1]. cbn [negb].
    destruct sel as [s|]; [|destruct Ht as [Hf _]; discriminate Hf].
    unfold _type_text. cbn [str_or].
    destruct (page_type_text (w_page w1) _ _) as [b p].
    assert (Hs : (if String.eqb s "" then "" else s) = s).
    { destruct (String.eqb s "") eqn:E; [|reflexivity].
      apply String.eqb_eq in E. symmetry. exact E. }
    assert (H2 : ok (w_trace w1 ++ [EvType (if String.eqb s "" then "" else s)
                                          (substitute_vars vars
                                             match s_text st with
                                             | Some t => t
                                             | None => match s_value st with
                                                       | Some v => v
                                                       | None => ""
                                                       end
                                             end)])).
    { rewrite Hs, Ht. apply guarded_snoc_act; [|reflexivity].
      apply guarded_snoc_idle; [exact Hok|reflexivity]. }
    destruct b; cbn [negb snd]; [apply after_ok|]; exact H2. }
  destruct (String.eqb (lower (strip (s_action st))) "click").
  { destruct (click_substitute hypot els _ last chosen sel) as [chosen' sel'].
    destruct (visible sel' 2000 w) as [v w1] eqn:Ev.
    pose proof (visible_ok _ _ _ _ _ Ev Hok) as Hok1.
    destruct v; cbn [negb].
    - destruct (click sel' w1) as [c w2] eqn:Ec.
      pose proof (visible_click_ok _ _ _ _ _ _ Ev Ec Hok) as Hok2.
      destruct c; cbn [negb snd]; [apply after_ok|]; exact Hok2.
    - destruct (contains "home" _); [|exact Hok1].
      pose proof (proj1 (home_fallback_post els sel' w1) Hok1) as Hf.
      destruct (_try_open_nav_and_retry_home Page page_is_visible page_click
                                             els sel' w1) as [okf w2].
      destruct okf; cbn [snd] in *; [apply after_ok|]; exact Hf. }
  destruct (String.eqb (lower (strip (s_action st))) "wait_url_contains");
    [|exact Hok].
  destruct (negb (nonempty _)); [exact Hok|].
  unfold wait_for_url. destruct (page_wait_for_url (w_page w) _) as [b p].
  assert (H2 : forall x, ok (w_trace w ++ [EvWaitUrl x]))
    by (intro x; apply guarded_snoc_idle; [exact Hok|reflexivity]).
  destruct b; cbn [negb snd]; [apply after_ok|]; apply H2.
Qed.

(** X13. The executor never clicks and never types on a selector whose
    visibility it has not tested just before: in the trace of a run, every
    click and every typing event immediately follows a visibility test of the
    same selector, in the steps as in the Home fallback. *)
Theorem run_only_acts_after_visibility_test (els : list Element)
        (plan : option Plan) (vars : list (string * string)) (w : World Page) :
  guarded None (w_trace w) = true ->
  guarded None
    (w_trace (snd (run_plan_stepwise hypot Page page_is_visible page_click
                                     page_type_text page_wait_for_url
                                     on_after_action els plan vars w))) = true.
Proof.
  unfold run_plan_stepwise.
  generalize (@None Element) as last.
  generalize (match plan with
              | Some p => match steps p with Some l => l | None => [] end
              | None => []
              end) as l.
  intro l. revert w.
  induction l as [|st rest IH]; intros w last Hok; simpl; [exact Hok|].
  pose proof (exec_step_ok els vars st last w Hok) as H1.
  destruct (exec els vars st last w) as [[last'| |msg] w1]; simpl in *; auto.
Qed.
End GuardFacts.

Lemma home_fallback_succeeds_by_click_witness :
  (exists t s,
      w_trace (mkWorld tt [EvVisible "#m1" 1500; EvClick "#m1";
                           EvVisible "#home" 2000; EvClick "#home"])
      = (t ++ [EvVisible s 2000]) ++ [EvClick s]) /\
  _try_open_nav_and_retry_home unit ready_visible ready_click []
                               (Some "#home") world0
  = (false, world0).
Proof.
  apply (home_fallback_succeeds_by_click unit ready_visible ready_click
           [el_menu] (Some "#home") world0
           (mkWorld tt [EvVisible "#m1" 1500; EvClick "#m1";
                        EvVisible "#home" 2000; EvClick "#home"])).
  reflexivity.
Defined.

Lemma run_only_acts_after_visibility_test_witness :
  guarded None
    (w_trace (snd (ready_run [el_menu] (Some (mkPlan (Some [step_click_home])))
                             world0))) = true.
Proof.
  apply (run_only_acts_after_visibility_test hypot_sqrt unit ready_visible
           ready_click ready_type ready_wait None [el_menu]
           (Some (mkPlan (Some [step_click_home]))) [] world0).
  reflexivity.
Defined.

(** ** Snapshot fuser: which records the canonical list holds *)

Lemma minimal_dom_prefix full : forall m seen,
  exists m', fst (minimal_dom full m seen) = m ++ m'.
Proof.
  induction full as [|e rest IH]; intros m seen; cbn [minimal_dom].
  - exists []. rewrite app_nil_r. reflexivity.
  - destruct (negb (_is_interactive e)); [apply IH|].
    destruct (seen_mem _ seen); [apply IH|].
    destruct (IH (m ++ [item_of_full e]) (key_of (item_of_full e) :: seen))
      as [m' Hm].
    exists (item_of_full e :: m'). rewrite Hm, <- app_assoc. reflexivity.
Qed.

Lemma minimal_ax_prefix a2d axs : forall m seen,
  exists m', fst (minimal_ax a2d axs m seen) = m ++ m'.
Proof.
  induction axs as [|[ai ax] rest IH]; intros m seen; cbn [minimal_ax].
  - exists []. rewrite app_nil_r. reflexivity.
  - destruct (existsb _ a2d); [apply IH|].
    destruct (negb _ || negb _); [apply IH|].
    destruct (negb (mem_str _ AX_FALLBACK_ROLES)); [apply IH|].
    destruct (seen_mem _ seen); [apply IH|].
    destruct (IH (m ++ [item_of_ax ai ax]) (key_of (item_of_ax ai ax) :: seen))
      as [m' Hm].
    exists (item_of_ax ai ax :: m'). rewrite Hm, <- app_assoc. reflexivity.
Qed.

Lemma minimal_dom_empty full :
  fst (minimal_dom full [] []) = [] ->
  forall e, In e full -> _is_interactive e = false.
Proof.
  induction full as [|e0 rest IH]; intros H e Hin; [destruct Hin|].
  cbn [minimal_dom] in H.
  destruct (_is_interactive e0) eqn:E0; cbn [negb] in H.
  - exfalso. cbn [seen_mem existsb app] in H.
    destruct (minimal_dom_prefix rest [item_of_full e0]
                [key_of (item_of_full e0)]) as [m' Hm].
    rewrite Hm in H. discriminate H.
  - destruct Hin as [<-|Hin]; [exact E0|exact (IH H e Hin)].
Qed.

Lemma fused_empty_no_interactive tsr dom axs :
  minimal_fused tsr dom axs = [] ->
  forall e, In e (full_elems_of tsr dom axs) -> _is_interactive e = false.
Proof.
  unfold minimal_fused. intro H.
  apply minimal_dom_empty.
  destruct (minimal_dom (full_elems_of tsr dom axs) [] []) as [m seen].
  destruct (minimal_ax_prefix (ax2dom_of tsr dom axs) (enumerate axs) m seen)
    as [m' Hm].
  rewrite Hm in H. apply app_eq_nil in H. simpl. apply H.
Qed.

Lemma degraded_cands_tag full c :
  In c (degraded_cands full) ->
  mem_str (lower (str_or (fe_tag (snd c)) "")) ["button"; "a"; "input"] = true.
Proof.
  induction full as [|e rest IH]; cbn [degraded_cands]; [intros []|].
  destruct (mem_str (lower (str_or (fe_tag e) "")) ["button"; "a"; "input"])
    eqn:Et; cbn [negb]; [|exact IH].
  destruct (negb (truthy _)); [exact IH|].
  intros [<-|H]; [exact Et|exact (IH H)].
Qed.

Lemma last_resort_tag_interactive (e : FullElem) :
  mem_str (lower (str_or (fe_tag e) "")) ["button"; "a"; "input"] = true ->
  visible_like (fe_display e) (fe_visibility e) (fe_bbox e) = true ->
  _is_interactive e = true.
Proof.
  intros Ht Hv. unfold _is_interactive. rewrite Hv. cbn [negb].
  assert (mem_str (lower (str_or (fe_tag e) "")) INTERACTIVE_TAGS = true) as ->.
  { unfold mem_str, INTERACTIVE_TAGS in *. simpl in *.
    destruct (String.eqb _ "button"); [apply orb_true_r|].
    destruct (String.eqb _ "a"); [rewrite !orb_true_r; reflexivity|].
    destruct (String.eqb _ "input"); [reflexivity|discriminate Ht]. }
  rewrite orb_true_r. reflexivity.
Qed.

(** X14. The last-resort branch, taken when the fused list is empty, yields
    at most ten records; each is the record of a button, an anchor or an
    input that has a name and is not visible-like: a visible-like element
    with one of these tags is interactive, so it would have entered the list
    through the main loop. *)
Theorem last_resort_yields_hidden_named_controls
        (token_set_ratio : string -> string -> float)
        (dom_nodes : list DomNode) (ax_flat : list AxNode) (l : list Element) :
  minimal_fused token_set_ratio dom_nodes ax_flat = [] ->
  elements_min_of token_set_ratio dom_nodes ax_flat = Some l ->
  (List.length l <= 10)%nat /\
  forall r, In r l ->
    exists e, In e (full_elems_of token_set_ratio dom_nodes ax_flat) /\
              r = item_of_degraded e /\
              visible_like (fe_display e) (fe_visibility e) (fe_bbox e) = false /\
              mem_str (lower (str_or (fe_tag e) "")) ["button"; "a"; "input"]
              = true /\
              exists n, name r = Some n /\ n <> "".
Proof.
  intros Hf Hl. unfold elements_min_of in Hl. rewrite Hf in Hl.
  pose proof (fused_empty_no_interactive _ _ _ Hf) as Hni.
  destruct (is_nil [] && negb (is_nil (full_elems_of token_set_ratio dom_nodes ax_flat)));
    [|injection Hl as <-; split; [simpl; lia|intros r []]].
  destruct (sorted_cands _) as [sc|] eqn:Es; [|discriminate].
  injection Hl as Hl. cbn [app] in Hl. subst l. split.
  - rewrite length_map. exact (firstn_le_length 10 sc).
  - intros r Hr. apply in_map_iff in Hr. destruct Hr as [c [<- Hc]].
    pose proof (firstn_In 10 sc c Hc) as Hc'.
    apply (sorted_cands_In _ _ _ Es) in Hc'.
    pose proof (degraded_cands_tag _ _ Hc') as Htag.
    apply degraded_cands_In in Hc'. destruct Hc' as [Hin Hname].
    exists (snd c). split; [exact Hin|]. split; [reflexivity|]. split.
    + destruct (visible_like _ _ _) eqn:Ev; [|reflexivity].
      specialize (Hni (snd c) Hin).
      rewrite (last_resort_tag_interactive _ Htag Ev) in Hni. discriminate Hni.
    + split; [exact Htag|]. eexists. split; [reflexivity|].
      intro Hs. apply substring_empty, str_or_empty in Hs.
      rewrite Hs in Hname. discriminate Hname.
Qed.

Lemma last_resort_yields_hidden_named_controls_witness :
  (List.length (map item_of_degraded
                    (full_elems_of ratio_same dom_two_hidden [ax_root]))
   <= 10)%nat /\
  forall r, In r (map item_of_degraded
                      (full_elems_of ratio_same dom_two_hidden [ax_root])) ->
    exists e, In e (full_elems_of ratio_same dom_two_hidden [ax_root]) /\
              r = item_of_degraded e /\
              visible_like (fe_display e) (fe_visibility e) (fe_bbox e) = false /\
              mem_str (lower (str_or (fe_tag e) "")) ["button"; "a"; "input"]
              = true /\
              exists n, name r = Some n /\ n <> "".
Proof.
  apply (last_resort_yields_hidden_named_controls ratio_same dom_two_hidden
           [ax_root]).
  - reflexivity.
  - reflexivity.
Defined.

(** X15. Whenever the fused list is not empty the last-resort branch is not
    taken: [snapshot_page] returns the fused list, and no two of its records
    share the key [(role, name, selector_pref)]. *)
Theorem fused_list_is_returned_without_duplicates
        (token_set_ratio : string -> string -> float)
        (dom_nodes : list DomNode) (ax_flat : list AxNode) :
  minimal_fused token_set_ratio dom_nodes ax_flat <> [] ->
  elements_min_of token_set_ratio dom_nodes ax_flat
  = Some (minimal_fused token_set_ratio dom_nodes ax_flat) /\
  NoDup (map key_of (minimal_fused token_set_ratio dom_nodes ax_flat)).
Proof.
  intro H. split; [|apply fused_records_have_distinct_keys].
  unfold elements_min_of.
  destruct (minimal_fused token_set_ratio dom_nodes ax_flat);
    [contradiction|reflexivity].
Qed.

Lemma fused_list_is_returned_without_duplicates_witness :
  elements_min_of ratio_same [dom_submit; dom_bare_input] [ax_submit_button]
  = Some (minimal_fused ratio_same [dom_submit; dom_bare_input]
                        [ax_submit_button]) /\
  NoDup (map key_of (minimal_fused ratio_same [dom_submit; dom_bare_input]
                                   [ax_submit_button])).
Proof.
  apply (fused_list_is_returned_without_duplicates ratio_same
           [dom_submit; dom_bare_input] [ax_submit_button]).
  discriminate.
Defined.


(** ** Snapshot fuser: the accessibility-only records *)

Lemma strip_idem (s : string) : strip (strip s) = strip s.
Proof.
  unfold strip.
  rewrite (lstrip_fixed (rstrip (lstrip s)))
    by (apply rstrip_no_leading, lstrip_no_leading).
  apply rstrip_idem.
Qed.

Lemma fallback_role_is_plain (r : string) :
  mem_str r AX_FALLBACK_ROLES = true -> lower (strip r) = r /\ r <> "".
Proof.
  unfold mem_str, AX_FALLBACK_ROLES. simpl. intro H.
  repeat match type of H with
         | (String.eqb r ?x || _) = true =>
             destruct (String.eqb r x) eqn:E;
             [apply String.eqb_eq in E; subst r; split; [reflexivity|discriminate]
             |clear E; simpl in H]
         end.
  discriminate H.
Qed.

Lemma minimal_ax_origin a2d axs : forall m seen r,
  In r (fst (minimal_ax a2d axs m seen)) ->
  In r m \/
  exists ai ax, In (ai, ax) axs /\ r = item_of_ax ai ax /\
                (forall di, ~ In (ai, di) a2d) /\
                mem_str (lower (str_or (ax_role ax) "")) AX_FALLBACK_ROLES = true /\
                nonempty (strip (str_or (ax_name ax) "")) = true.
Proof.
  induction axs as [|[ai ax] rest IH]; intros m seen r H;
    cbn [minimal_ax] in H; [auto|].
  assert (Hrest : forall m' seen',
             In r (fst (minimal_ax a2d rest m' seen')) ->
             In r m' \/
             exists ai0 ax0, In (ai0, ax0) ((ai, ax) :: rest) /\
                r = item_of_ax ai0 ax0 /\
                (forall di, ~ In (ai0, di) a2d) /\
                mem_str (lower (str_or (ax_role ax0) "")) AX_FALLBACK_ROLES = true /\
                nonempty (strip (str_or (ax_name ax0) "")) = true).
  { intros m' seen' H'. destruct (IH _ _ _ H') as [Hm|[ai0 [ax0 [Hin Hr]]]];
      [auto|]. right. exists ai0, ax0. split; [right; exact Hin|exact Hr]. }
  destruct (existsb (fun p => Nat.eqb (fst p) ai) a2d) eqn:Ea;
    [exact (Hrest _ _ H)|].
  destruct (negb (nonempty (lower (str_or (ax_role ax) ""))) ||
            negb (nonempty (strip (str_or (ax_name ax) "")))) eqn:E1;
    [exact (Hrest _ _ H)|].
  apply orb_false_iff in E1. destruct E1 as [_ En].
  apply negb_false_iff in En.
  destruct (mem_str _ AX_FALLBACK_ROLES) eqn:Er; cbn [negb] in H;
    [|exact (Hrest _ _ H)].
  destruct (seen_mem _ seen); [exact (Hrest _ _ H)|].
  destruct (Hrest _ _ H) as [Hm|Hex]; [|auto].
  apply in_app_or in Hm. destruct Hm as [Hm|[<-|[]]]; [auto|].
  right. exists ai, ax. split; [left; reflexivity|]. split; [reflexivity|].
  split; [|split; assumption].
  intros di Hin.
  assert (existsb (fun p => Nat.eqb (fst p) ai) a2d = true) as Ht.
  { apply existsb_exists. exists (ai, di). split; [exact Hin|apply Nat.eqb_refl]. }
  rewrite Ht in Ea. discriminate Ea.
Qed.

(** X16. Every record of the fused list is either the record of an
    interactive DOM element or the record of an accessibility node that is
    aligned to no DOM node, has a role of the fallback set and a non-blank
    name.  Such an accessibility-only record has the uid ["ax-<index>"], no
    tag and no bounding box, and always carries the selector
    ["aria://<role>::<name>"] built from the lower-cased role and the whole
    stripped name, while its [name] field keeps only the first 140
    characters. *)
Theorem fused_records_origin
        (token_set_ratio : string -> string -> float)
        (dom_nodes : list DomNode) (ax_flat : list AxNode) (r : Element) :
  In r (minimal_fused token_set_ratio dom_nodes ax_flat) ->
  (exists e, In e (full_elems_of token_set_ratio dom_nodes ax_flat) /\
             _is_interactive e = true /\ r = item_of_full e) \/
  (exists ai ax,
      nth_error ax_flat ai = Some ax /\
      (forall di, ~ In (ai, di) (ax2dom_of token_set_ratio dom_nodes ax_flat)) /\
      let role_ := lower (str_or (ax_role ax) "") in
      let name_ := strip (str_or (ax_name ax) "") in
      mem_str role_ AX_FALLBACK_ROLES = true /\ name_ <> "" /\
      uid r = ("ax-" ++ string_of_nat ai)%string /\
      role r = Some role_ /\ name r = Some (substring 0 140 name_) /\
      selector_pref r = Some ("aria://" ++ role_ ++ "::" ++ name_)%string /\
      tag r = None /\ bbox r = None).
Proof.
  unfold minimal_fused.
  destruct (minimal_dom (full_elems_of token_set_ratio dom_nodes ax_flat) [] [])
    as [m seen] eqn:Em.
  intro Hin. apply minimal_ax_origin in Hin.
  destruct Hin as [Hin|[ai [ax [Hax [-> [Hna [Hr Hn]]]]]]].
  - left.
    replace m with (fst (minimal_dom
              (full_elems_of token_set_ratio dom_nodes ax_flat) [] []))
      in Hin by (rewrite Em; reflexivity).
    apply minimal_dom_In in Hin. destruct Hin as [[]|Hex]. exact Hex.
  - right. exists ai, ax.
    apply enumerate_from_In in Hax. rewrite Nat.sub_0_r in Hax.
    split; [apply Hax|]. split; [exact Hna|]. cbv zeta.
    pose proof (fallback_role_is_plain _ Hr) as [Hplain Hne].
    pose proof (nonempty_true _ Hn) as Hn'.
    split; [exact Hr|]. split; [exact Hn'|].
    repeat split.
    unfold item_of_ax, _aria_selector. cbn [selector_pref truthy str_or].
    apply String.eqb_neq in Hne, Hn'. rewrite Hne, Hn'. cbn [negb orb].
    rewrite Hplain, strip_idem. reflexivity.
Qed.

Lemma fused_records_origin_witness :
  (exists e, In e (full_elems_of ratio_same [dom_submit] [ax_help_link]) /\
             _is_interactive e = true /\
             item_of_ax 0 ax_help_link = item_of_full e) \/
  (exists ai ax,
      nth_error [ax_help_link] ai = Some ax /\
      (forall di, ~ In (ai, di) (ax2dom_of ratio_same [dom_submit] [ax_help_link])) /\
      let role_ := lower (str_or (ax_role ax) "") in
      let name_ := strip (str_or (ax_name ax) "") in
      mem_str role_ AX_FALLBACK_ROLES = true /\ name_ <> "" /\
      uid (item_of_ax 0 ax_help_link) = ("ax-" ++ string_of_nat ai)%string /\
      role (item_of_ax 0 ax_help_link) = Some role_ /\
      name (item_of_ax 0 ax_help_link) = Some (substring 0 140 name_) /\
      selector_pref (item_of_ax 0 ax_help_link)
      = Some ("aria://" ++ role_ ++ "::" ++ name_)%string /\
      tag (item_of_ax 0 ax_help_link) = None /\
      bbox (item_of_ax 0 ax_help_link) = None).
Proof.
  apply (fused_records_origin ratio_same [dom_submit] [ax_help_link]
           (item_of_ax 0 ax_help_link)).
  right. left. reflexivity.
Defined.

(** ** Rounds of the loop *)

Section RoundFacts.
Variable Session Snap PlanT : Type.
Variable snapshot_page : string -> Session -> Snap * Session.
Variable input : string -> Session -> string * Session.
Variable plan_actions : string -> Snap -> string -> Session -> PlanT * Session.
Variable run_plan : nat -> Snap -> PlanT -> string -> Session -> bool * Session.

Local Abbreviation count := (count_events Snap PlanT).

(** X17. In every round the loop asks for as many plans as it runs the
    executor: one or two of each when the round runs to its end, and none
    when it ends on [exit] or [quit]. *)
Theorem round_event_counts (rid : nat) (up ev : string) (s : Session) :
  let '(res, _, t) :=
    round Session Snap PlanT snapshot_page input plan_actions run_plan
          rid up ev s in
  count (is_plan Snap PlanT) t = count (is_exec Snap PlanT) t /\
  (count (is_exec Snap PlanT) t <= 2)%nat /\
  (res = RoundBreak -> count (is_exec Snap PlanT) t = 0%nat) /\
  (forall ok ev', res = RoundDone ok ev' ->
                  (1 <= count (is_exec Snap PlanT) t)%nat).
Proof.
  unfold round, round_execute.
  destruct (snapshot_page (round_label rid "_pre") s) as [snap s1].
  destruct (negb (nonempty up));
    [destruct (input instruction_prompt s1) as [u s2]|];
    match goal with
    | |- context [mem_str (lower ?x) _] =>
        destruct (mem_str (lower x) ["exit"; "quit"])
    end;
    try solve [cbn; repeat split; intros; try lia; try discriminate];
    match goal with
    | |- context [contains "email" ?x && ?y] =>
        destruct (contains "email" x && y);
        [destruct (input email_prompt _) as [e s3]|]
    end;
    match goal with
    | |- context [plan_actions ?a ?b ?c ?d] =>
        destruct (plan_actions a b c d) as [plan s4]
    end;
    match goal with
    | |- context [run_plan ?a ?b ?c ?d ?e] =>
        destruct (run_plan a b c d e) as [ok s5]
    end;
    destruct ok; cbn [negb];
    try (match goal with
         | |- context [snapshot_page ?a ?b] =>
             destruct (snapshot_page a b) as [snap' s6]
         end;
         match goal with
         | |- context [plan_actions ?a ?b ?c ?d] =>
             destruct (plan_actions a b c d) as [plan' s7]
         end;
         match goal with
         | |- context [run_plan ?a ?b ?c ?d ?e] =>
             destruct (run_plan a b c d e) as [ok' s8]
         end);
    cbn; repeat split; intros; try lia; try discriminate.
Qed.
End RoundFacts.

(** ** Preferred selector *)

Lemma append_nonempty (a b : string) : a <> "" -> (a ++ b)%string <> "".
Proof.
  destruct a; [contradiction|]. intros _. discriminate.
Qed.

(** X18. The preferred selector of a DOM element is the [aria-label]
    selector whenever the element has a non-empty [aria-label], whatever its
    tag and its other attributes; it is never the empty string; and there is
    none exactly when the element has no [aria-label], is not an input with a
    [name], is not an anchor with an [href], and has no CSS path. *)
Theorem preferred_selector_precedence (tag_ : string)
        (attrs : list (string * string)) (css : option string) :
  (forall v, attr_get "aria-label" attrs = Some v -> v <> "" ->
     _preferred_selector tag_ attrs css
     = Some ("[aria-label=" ++ dquote ++ v ++ dquote ++ "]")%string) /\
  (forall s, _preferred_selector tag_ attrs css = Some s -> s <> "") /\
  (_preferred_selector tag_ attrs css = None <->
   truthy (attr_get "aria-label" attrs) = false /\
   (tag_ <> "input" \/ truthy (attr_get "name" attrs) = false) /\
   (tag_ <> "a" \/ truthy (attr_get "href" attrs) = false) /\
   truthy css = false).
Proof.
  unfold _preferred_selector. split; [|split].
  - intros v Hv Hne. rewrite Hv. simpl.
    apply String.eqb_neq in Hne. rewrite Hne. reflexivity.
  - intros s. destruct (truthy (attr_get "aria-label" attrs));
      [intro H; inversion H; discriminate|].
    destruct (String.eqb tag_ "input" && truthy (attr_get "name" attrs));
      [intro H; inversion H; discriminate|].
    destruct (String.eqb tag_ "a" && truthy (attr_get "href" attrs));
      [intro H; inversion H; discriminate|].
    destruct (truthy css) eqn:Ec; [|discriminate].
    intro H. apply truthy_spec in Ec. destruct Ec as [c [Ec Hc]].
    rewrite Ec in H. inversion H; subst. exact Hc.
  - destruct (truthy (attr_get "aria-label" attrs));
      [split; [discriminate|intros [H _]; discriminate H]|].
    destruct (String.eqb tag_ "input") eqn:Ei; simpl.
    + apply String.eqb_eq in Ei.
      destruct (truthy (attr_get "name" attrs)).
      { split; [discriminate|]. intros [_ [[H|H] _]]; [contradiction|discriminate H]. }
      assert (String.eqb tag_ "a" = false) as -> by (subst tag_; reflexivity).
      simpl. destruct (truthy css) eqn:Ec.
      * apply truthy_spec in Ec. destruct Ec as [c [-> _]].
        split; [discriminate|]. intros [_ [_ [_ H]]]. discriminate H.
      * split; [|reflexivity]. intros _. repeat split; auto.
        left. subst tag_. discriminate.
    + apply String.eqb_neq in Ei.
      destruct (String.eqb tag_ "a") eqn:Ea; simpl.
      * destruct (truthy (attr_get "href" attrs)).
        { apply String.eqb_eq in Ea. split; [discriminate|].
          intros [_ [_ [[H|H] _]]]; [contradiction|discriminate H]. }
        destruct (truthy css) eqn:Ec.
        -- apply truthy_spec in Ec. destruct Ec as [c [-> _]].
           split; [discriminate|]. intros [_ [_ [_ H]]]. discriminate H.
        -- split; [|reflexivity]. intros _. repeat split; auto.
      * apply String.eqb_neq in Ea. destruct (truthy css) eqn:Ec.
        -- apply truthy_spec in Ec. destruct Ec as [c [-> _]].
           split; [discriminate|]. intros [_ [_ [_ H]]]. discriminate H.
        -- split; [|reflexivity]. intros _. repeat split; auto.
Qed.

(** ** Snapshot fuser: the alignment written into the DOM records *)

Lemma update_nth_nth {A : Type} (f : A -> A) (l : list A) : forall i j,
  nth_error (update_nth i f l) j =
  if Nat.eqb j i then option_map f (nth_error l j) else nth_error l j.
Proof.
  induction l as [|x r IH]; intros i j; simpl.
  - destruct i, j; simpl; try reflexivity. destruct (Nat.eqb j i); reflexivity.
  - destruct i as [|i], j as [|j]; simpl; try reflexivity. apply IH.
Qed.

Lemma write_alignment_nth ax_flat (L : list (nat * nat)) :
  forall full i e,
    nth_error (write_alignment ax_flat L full) i = Some e ->
    exists e0, nth_error full i = Some e0 /\
      ((e = e0 /\
        forall p, In p L -> snd p = i -> nth_error ax_flat (fst p) = None) \/
       (exists ai ax l1 l2,
           L = l1 ++ (ai, i) :: l2 /\
           (forall p, In p l2 -> snd p = i -> nth_error ax_flat (fst p) = None) /\
           nth_error ax_flat ai = Some ax /\ e = set_ax ax e0)).
Proof.
  unfold write_alignment.
  induction L as [|[ai di] L IH]; intros full i e H; simpl in H.
  - exists e. split; [exact H|]. left. split; [reflexivity|intros p []].
  - destruct (nth_error ax_flat ai) as [ax|] eqn:Eax.
    + destruct (IH _ _ _ H) as [e1 [H1 Hcase]].
      rewrite update_nth_nth in H1.
      destruct (Nat.eqb i di) eqn:Ei.
      * apply Nat.eqb_eq in Ei. subst di.
        destruct (nth_error full i) as [e0|]; [|discriminate H1].
        simpl in H1. inversion H1; subst e1. exists e0. split; [reflexivity|].
        right. destruct Hcase as [[-> Hno]|[aj [ax' [l1 [l2 [-> [Hno [Hax' ->]]]]]]]].
        -- exists ai, ax, [], L. repeat split; auto.
        -- exists aj, ax', ((ai, i) :: l1), l2. repeat split; auto.
      * apply Nat.eqb_neq in Ei. exists e1. split; [exact H1|].
        destruct Hcase as [[-> Hno]|[aj [ax' [l1 [l2 [-> [Hno [Hax' ->]]]]]]]].
        -- left. split; [reflexivity|].
           intros p [<-|Hp] Hs; [simpl in Hs; congruence|exact (Hno p Hp Hs)].
        -- right. exists aj, ax', ((ai, di) :: l1), l2. repeat split; auto.
    + destruct (IH _ _ _ H) as [e1 [H1 Hcase]]. exists e1. split; [exact H1|].
      destruct Hcase as [[-> Hno]|[aj [ax' [l1 [l2 [-> [Hno [Hax' ->]]]]]]]].
      * left. split; [reflexivity|].
        intros p [<-|Hp] Hs; [exact Eax|exact (Hno p Hp Hs)].
      * right. exists aj, ax', ((ai, di) :: l1), l2. repeat split; auto.
Qed.

Lemma write_alignment_length ax_flat (L : list (nat * nat)) : forall full,
  List.length (write_alignment ax_flat L full) = List.length full.
Proof.
  unfold write_alignment.
  assert (Hup : forall (f : FullElem -> FullElem) l i,
             List.length (update_nth i f l) = List.length l).
  { intros f l. induction l as [|x r IHl]; intros [|i]; simpl; auto. }
  induction L as [|[ai di] L IH]; intro full; simpl; [reflexivity|].
  destruct (nth_error ax_flat ai); rewrite IH; [apply Hup|reflexivity].
Qed.

(** X19. The list of full records has one record per DOM node, in the order
    of the traversal.  The record of node [i] carries accessibility data
    exactly when some accessibility node is aligned to node [i]; the data is
    then that of the last such node in the order of the accessibility
    traversal, earlier ones being overwritten; every other field is the one
    computed from the DOM node alone. *)
Theorem full_records_keep_last_alignment
        (token_set_ratio : string -> string -> float)
        (dom_nodes : list DomNode) (ax_flat : list AxNode) :
  let full := full_elems_of token_set_ratio dom_nodes ax_flat in
  let ax2dom := ax2dom_of token_set_ratio dom_nodes ax_flat in
  List.length full = List.length dom_nodes /\
  forall i e, nth_error full i = Some e ->
    exists dn, nth_error dom_nodes i = Some dn /\
      match fe_ax e with
      | None => e = full_of_dom dn /\ forall ai, ~ In (ai, i) ax2dom
      | Some ax =>
          e = set_ax ax (full_of_dom dn) /\
          exists ai l1 l2,
            ax2dom = l1 ++ (ai, i) :: l2 /\
            (forall aj, ~ In (aj, i) l2) /\
            nth_error ax_flat ai = Some ax
      end.
Proof.
  intros full ax2dom. split.
  - unfold full, full_elems_of. rewrite write_alignment_length, length_map.
    reflexivity.
  - intros i e He. unfold full, full_elems_of in He.
    apply write_alignment_nth in He. fold ax2dom in He.
    destruct He as [e0 [H0 Hcase]].
    rewrite nth_error_map in H0.
    destruct (nth_error dom_nodes i) as [dn|]; [|discriminate H0].
    simpl in H0. inversion H0; subst e0. exists dn. split; [reflexivity|].
    assert (Hvalid : forall p, In p ax2dom -> nth_error ax_flat (fst p) <> None).
    { intros [ai di] Hp. unfold ax2dom, ax2dom_of in Hp.
      apply align_from_In in Hp. destruct Hp as [_ [ax [Hn _]]].
      rewrite Nat.sub_0_r in Hn. simpl. rewrite Hn. discriminate. }
    destruct Hcase as [[-> Hno]|[ai [ax [l1 [l2 [Hsplit [Hno [Hax ->]]]]]]]].
    + simpl. split; [reflexivity|]. intros ai Hin.
      apply (Hvalid _ Hin). exact (Hno _ Hin eq_refl).
    + simpl. split; [reflexivity|]. exists ai, l1, l2.
      split; [exact Hsplit|]. split; [|exact Hax].
      intros aj Hin. apply (Hvalid (aj, i)).
      * rewrite Hsplit. apply in_or_app. right. right. exact Hin.
      * exact (Hno _ Hin eq_refl).
Qed.



(** ** Synthesised selectors are read back *)

Lemma drop_prefix_app (p s : string) : drop_prefix p (p ++ s) = Some s.
Proof.
  induction p as [|a p IH]; simpl; [destruct s; reflexivity|].
  rewrite Ascii.eqb_refl. exact IH.
Qed.

Lemma span_role_app (r t : string) :
  all_role_chars r = true -> span_role t = (EmptyString, t) ->
  span_role (r ++ t) = (r, t).
Proof.
  intros H Ht. induction r as [|c r IH]; simpl; [exact Ht|].
  simpl in H. apply andb_true_iff in H. destruct H as [Hc Hr].
  rewrite Hc, (IH Hr). reflexivity.
Qed.

Lemma chomp_rstrip (s : string) : chomp (rstrip s) = rstrip s.
Proof.
  induction s as [|c r IH]; [reflexivity|].
  rewrite rstrip_cons. destruct (rstrip r) as [|c' r'] eqn:Er.
  - destruct (is_space c) eqn:Ec; [reflexivity|]. simpl.
    destruct (Ascii.eqb c newline) eqn:En; [|reflexivity].
    apply Ascii.eqb_eq in En. subst c. discriminate Ec.
  - change (chomp (String c (String c' r')))
      with (String c (chomp (String c' r'))).
    rewrite IH. reflexivity.
Qed.

Lemma chomp_no_newline (s : string) : has_newline s = false -> chomp s = s.
Proof.
  induction s as [|c r IH]; [reflexivity|]. simpl.
  intro H. apply orb_false_iff in H. destruct H as [Hc Hr].
  destruct r as [|c' r']; [rewrite Hc; reflexivity|].
  rewrite (IH Hr). reflexivity.
Qed.

Lemma parse_aria_built (r n : string) :
  r <> "" -> all_role_chars r = true -> chomp n = n ->
  parse_aria (Some ("aria://" ++ r ++ "::" ++ n)%string) =
  if nonempty n && negb (has_newline n) then Some (r, n) else None.
Proof.
  intros Hr Hall Hn. unfold parse_aria.
  change (str_or (Some ("aria://" ++ r ++ "::" ++ n)%string) "")
    with ("aria://" ++ (r ++ "::" ++ n))%string.
  rewrite drop_prefix_app, (span_role_app _ _ Hall) by reflexivity.
  apply String.eqb_neq in Hr. unfold nonempty at 1. rewrite Hr. cbn [negb].
  rewrite drop_prefix_app, Hn. reflexivity.
Qed.

(** X20. The selector [aria://<role>::<name>] that the snapshot and the
    executor synthesise is read back by the executor's pattern into the same
    role and name, provided the role is made of letters, digits, [_] and [-]
    and the name has no line break.  When the stripped name contains a line
    break, or is empty, the pattern does not match and the element cannot be
    located. *)
Theorem aria_selector_round_trip (role_ name_ : option string) (sel : string) :
  _aria_selector role_ name_ = Some sel ->
  lower (strip (str_or role_ "")) <> "" ->
  all_role_chars (lower (strip (str_or role_ ""))) = true ->
  parse_aria (Some sel) =
  (if nonempty (strip (str_or name_ "")) &&
      negb (has_newline (strip (str_or name_ "")))
   then Some (lower (strip (str_or role_ "")), strip (str_or name_ ""))
   else None) /\
  (forall el, selector_pref el = None -> selector el = None ->
              role el = role_ -> name el = name_ ->
              _resolve_target_selector el = Some sel).
Proof.
  intros Hsel Hr Hall. unfold _aria_selector in Hsel.
  destruct (negb (truthy role_) || negb (truthy name_)) eqn:Et; [discriminate|].
  injection Hsel as <-. split.
  - apply parse_aria_built; [exact Hr|exact Hall|].
    unfold strip. apply chomp_rstrip.
  - intros el Hp Hs Hro Hna. unfold _resolve_target_selector.
    rewrite Hp, Hs, Hro, Hna. cbn [truthy].
    apply orb_false_iff in Et. destruct Et as [E1 E2].
    apply negb_false_iff in E1, E2. rewrite E1, E2. reflexivity.
Qed.

Lemma aria_selector_round_trip_witness :
  parse_aria (Some "aria://link::Learn more") =
  (if nonempty (strip (str_or (Some "Learn more ") "")) &&
      negb (has_newline (strip (str_or (Some "Learn more ") "")))
   then Some (lower (strip (str_or (Some " Link") "")),
              strip (str_or (Some "Learn more ") ""))
   else None) /\
  (forall el, selector_pref el = None -> selector el = None ->
              role el = Some " Link" -> name el = Some "Learn more " ->
              _resolve_target_selector el = Some "aria://link::Learn more").
Proof.
  apply (aria_selector_round_trip (Some " Link") (Some "Learn more ")
           "aria://link::Learn more").
  - reflexivity.
  - discriminate.
  - reflexivity.
Defined.

(** ** Placeholders in the text of a step *)

Lemma replace_absent (old new s : string) :
  contains old s = false -> replace_from old new 0 s = s.
Proof.
  induction s as [|c r IH]; [reflexivity|].
  intro H. cbn [contains] in H. apply orb_false_iff in H.
  destruct H as [Hp Hr]. cbn [replace_from]. rewrite Hp, (IH Hr). reflexivity.
Qed.

Lemma replace_skip (old new : string) (o s : string) :
  replace_from old new (String.length o) (o ++ s) = replace_from old new 0 s.
Proof.
  induction o as [|c o IH]; [reflexivity|]. simpl. exact IH.
Qed.

Lemma prefix_app (p s : string) : String.prefix p (p ++ s) = true.
Proof.
  induction p as [|a p IH]; simpl; [destruct s; reflexivity|].
  destruct (ascii_dec a a) as [_|N]; [exact IH|contradiction].
Qed.

Lemma replace_at_occurrence (c : ascii) (o new s : string) :
  replace (String c o) new (String c o ++ s) =
  (new ++ replace (String c o) new s)%string.
Proof.
  unfold replace.
  change (replace_from (String c o) new 0 (String c o ++ s))
    with (if String.prefix (String c o) (String c o ++ s)
          then (new ++ replace_from (String c o) new
                                    (String.length (String c o) - 1) (o ++ s))%string
          else String c (replace_from (String c o) new 0 (o ++ s))).
  rewrite prefix_app.
  replace (String.length (String c o) - 1)%nat with (String.length o)
    by (simpl; lia).
  rewrite replace_skip. reflexivity.
Qed.

Lemma prefix_cons (a c : ascii) (p r : string) :
  String.prefix (String a p) (String c r) =
  if ascii_dec a c then String.prefix p r else false.
Proof. reflexivity. Qed.

Lemma no_opening_no_placeholder (k s : string) :
  contains "<" s = false -> contains ("<" ++ k ++ ">") s = false.
Proof.
  change ("<" ++ k ++ ">")%string with (String "<" (k ++ ">")).
  induction s as [|c r IH]; [reflexivity|].
  intro H. cbn [contains] in *. apply orb_false_iff in H.
  destruct H as [Hp Hr]. rewrite (IH Hr), orb_false_r.
  rewrite prefix_cons in *.
  destruct (ascii_dec "<" c); [|reflexivity].
  destruct r; discriminate Hp.
Qed.

(** X21. The substitution of the variables leaves unchanged every text that
    contains no ["<"], whatever the variable map; and a text that begins with
    the placeholder of the only variable has this occurrence replaced by the
    value, the rest being treated in turn. *)
Theorem substitution_touches_placeholders_only
        (vars : list (string * string)) (text_ : string) :
  (contains "<" text_ = false -> substitute_vars vars text_ = text_) /\
  (forall k v rest,
      substitute_vars [(k, v)] ("<" ++ k ++ ">" ++ rest)
      = (v ++ substitute_vars [(k, v)] rest)%string).
Proof.
  split.
  - intro H. unfold substitute_vars.
    induction vars as [|[k v] vars IH]; [reflexivity|].
    simpl. unfold replace.
    rewrite (replace_absent _ _ _ (no_opening_no_placeholder k _ H)).
    exact IH.
  - intros k v rest.
    assert (Hassoc : ("<" ++ k ++ ">" ++ rest)%string
                     = (String "<" (k ++ ">") ++ rest)%string).
    { cbn [append]. f_equal. induction k as [|a k IHk]; [reflexivity|].
      cbn [append]. rewrite IHk. reflexivity. }
    rewrite Hassoc. unfold substitute_vars. cbn [fold_left fst snd].
    change ("<" ++ k ++ ">")%string with (String "<" (k ++ ">")).
    apply replace_at_occurrence.
Qed.


(** ** Where a plan stops *)

Section StopFacts.
Variable hypot : float -> float -> float.
Variable Page : Type.
Variable page_is_visible : Page -> string -> nat -> bool * Page.
Variable page_click : Page -> string -> bool * Page.
Variable page_type_text : Page -> string -> string -> bool * Page.
Variable page_wait_for_url : Page -> string -> bool * Page.
Variable on_after_action : option (string -> AfterArg -> Page -> Page).

Local Abbreviation run_list := (run_steps hypot Page page_is_visible page_click
                                          page_type_text page_wait_for_url
                                          on_after_action).

(** X22. Steps that follow an [end] step, or a step that failed, are never
    executed: a plan cut after its first [end] step gives the same result,
    page and trace as the whole plan, and when a prefix of a plan fails, the
    whole plan fails with the page and the trace left by that prefix. *)
Theorem plan_stops_at_end_and_at_failure
        (els : list Element) (vars : list (string * string))
        (pre : list Step) (st : Step) (rest : list Step)
        (last : option Element) (w : World Page) :
  lower (strip (s_action st)) = "end" ->
  run_list els vars (pre ++ st :: rest) last w
  = run_list els vars (pre ++ [st]) last w /\
  (forall w', run_list els vars pre last w = (false, w') ->
              run_list els vars (pre ++ rest) last w = (false, w')).
Proof.
  intro Hend. split.
  - revert last w. induction pre as [|p pre IH]; intros last w; simpl.
    + unfold exec_step. rewrite Hend. reflexivity.
    + destruct (exec_step hypot Page page_is_visible page_click page_type_text
                          page_wait_for_url on_after_action els vars p last w)
        as [[last'| |msg] w1]; auto.
  - revert last w. induction pre as [|p pre IH]; intros last w w' H; simpl in *.
    + discriminate H.
    + destruct (exec_step hypot Page page_is_visible page_click page_type_text
                          page_wait_for_url on_after_action els vars p last w)
        as [[last'| |msg] w1]; auto.
Qed.
End StopFacts.

Lemma plan_stops_at_end_and_at_failure_witness :
  run_steps hypot_sqrt unit ready_visible ready_click ready_type ready_wait
            None [el_menu] [] ([step_click_home] ++ step_end :: [step_scroll])
            None world0
  = run_steps hypot_sqrt unit ready_visible ready_click ready_type ready_wait
              None [el_menu] [] ([step_click_home] ++ [step_end]) None world0 /\
  (forall w',
      run_steps hypot_sqrt unit ready_visible ready_click ready_type ready_wait
                None [el_menu] [] [step_click_home] None world0 = (false, w') ->
      run_steps hypot_sqrt unit ready_visible ready_click ready_type ready_wait
                None [el_menu] [] ([step_click_home] ++ [step_scroll]) None world0
      = (false, w')).
Proof.
  apply (plan_stops_at_end_and_at_failure hypot_sqrt unit ready_visible
           ready_click ready_type ready_wait None [el_menu] []
           [step_click_home] step_end [step_scroll] None world0).
  reflexivity.
Defined.
